(** * The SSH command of sshwifty: the session state machine

    A shallow embedding of [application/commands/ssh.go].  The session
    ([sshClient]) is a record; every method is a function in a small monad
    that threads the session, can panic, and can suspend at a blocking
    operation (channel receive, channel send on a full buffer,
    [sync.WaitGroup.Wait]) keeping the rest of the method as a continuation
    that is resumed on a later state.

    Between two blocking operations a method runs as one step.  The only
    data shared by the control goroutine and the remote goroutine are the
    three channels, the two retry flags (always accessed under
    [remoteReadTimeoutRetryLock]), the wait group and the once-guarded
    cancel function, so each access to shared data is atomic in the source
    as well. *)

From Stdlib Require Import ZArith List Bool Arith Lia String.
From Stdlib.Strings Require Import Byte.
Import ListNotations.

Set Implicit Arguments.

(** ** Signals, limits and errors *)

Definition SSHServerRemoteStdOut : byte := x00.
Definition SSHServerRemoteStdErr : byte := x01.
Definition SSHServerHookOutputBeforeConnecting : byte := x02.
Definition SSHServerConnectFailed : byte := x03.
Definition SSHServerConnectSucceed : byte := x04.
Definition SSHServerConnectVerifyFingerprint : byte := x05.
Definition SSHServerConnectRequestCredential : byte := x06.

Definition SSHClientStdIn : byte := x00.
Definition SSHClientResize : byte := x01.
Definition SSHClientRespondFingerprint : byte := x02.
Definition SSHClientRespondCredential : byte := x03.

Definition sshCredentialMaxSize : nat := 4096.

(** [command.StreamError] is a byte. *)
Definition StreamError := byte.
Definition SSHRequestErrorBadUserName : StreamError := x01.
Definition SSHRequestErrorBadRemoteAddress : StreamError := x02.
Definition SSHRequestErrorBadAuthMethod : StreamError := x03.

Definition SSHAuthMethodNone : byte := x00.
Definition SSHAuthMethodPassphrase : byte := x01.
Definition SSHAuthMethodPrivateKey : byte := x02.

(** The error values of the package, and the errors that come from its
    collaborators (reader, responder, connection, SSH library). *)
Inductive error : Type :=
| ErrSSHAuthCancelled
| ErrSSHInvalidAuthMethod
| ErrSSHInvalidAddress
| ErrSSHRemoteFingerprintVerificationCancelled
| ErrSSHRemoteFingerprintRefused
| ErrSSHRemoteConnUnavailable
| ErrSSHUnexpectedFingerprintVerificationRespond
| ErrSSHUnexpectedCredentialDataRespond
| ErrSSHCredentialDataTooLarge
| ErrSSHUnknownClientSignal
| io_EOF
| io_ErrUnexpectedEOF
| net_Error (timeout : bool)
| external_error (msg : string).

Definition Error (e : error) : string :=
  match e with
  | ErrSSHAuthCancelled => "authentication has been cancelled"
  | ErrSSHInvalidAuthMethod => "invalid auth method"
  | ErrSSHInvalidAddress => "invalid address"
  | ErrSSHRemoteFingerprintVerificationCancelled =>
      "server Fingerprint verification process has been cancelled"
  | ErrSSHRemoteFingerprintRefused => "server Fingerprint has been refused"
  | ErrSSHRemoteConnUnavailable => "remote SSH connection is unavailable"
  | ErrSSHUnexpectedFingerprintVerificationRespond =>
      "unexpected fingerprint verification respond"
  | ErrSSHUnexpectedCredentialDataRespond =>
      "unexpected credential data respond"
  | ErrSSHCredentialDataTooLarge => "credential was too large"
  | ErrSSHUnknownClientSignal => "unknown client signal"
  | io_EOF => "EOF"
  | io_ErrUnexpectedEOF => "unexpected EOF"
  | net_Error true => "i/o timeout"
  | net_Error false => "network error"
  | external_error msg => msg
  end%string.

(** ** Channels

    A buffered Go channel: the queued values and whether it was closed.
    Every channel of the session is made with capacity one. *)
Module Chan.

Record t (A : Type) : Type := mk { buf : list A; closed : bool }.

Definition capacity : nat := 1.

Definition make (A : Type) : t A := mk [] false.

Definition full A (c : t A) : bool := capacity <=? List.length (buf c).

Definition push A (v : A) (c : t A) : t A := mk (buf c ++ [v]) (closed c).

Definition pop A (c : t A) : option (A * t A) :=
  match buf c with
  | v :: rest => Some (v, mk rest (closed c))
  | [] => None
  end.

Definition close A (c : t A) : t A := mk (buf c) true.

End Chan.

(** ** The session *)

(** The remote handle.  [writer], [closer] and [session] are references to
    objects of the SSH library; [None] is Go's nil. *)
Record sshRemoteConn : Type := mkRemoteConn {
  writer : option nat;
  closer : option nat;
  session : option nat
}.

Definition isValid (s : sshRemoteConn) : bool :=
  match writer s, closer s, session s with
  | Some _, Some _, Some _ => true
  | _, _, _ => false
  end.

Definition zeroRemoteConn : sshRemoteConn := mkRemoteConn None None None.

Inductive channel : Type :=
| ch_credentialReceive
| ch_fingerprintVerifyResultReceive
| ch_remoteConnReceive.

(** What the session does to the outside, in the order it happens: channel
    operations, calls to the collaborators and goroutines started. *)
Inductive event : Type :=
| EvSendCredential (data : list byte)
| EvSendFingerprint (confirmed : bool)
| EvSendRemoteConn (h : sshRemoteConn)
| EvClose (c : channel)
| EvCtxCancel
| EvCloser (c : nat)
| EvWrite (w : nat) (data : list byte)
| EvWindowChange (sess : nat) (rows cols : Z)
| EvDebug (format : string)
| EvSendManual (marker : byte) (b : list byte)
| EvSignalHeaderClose
| EvSetReadDeadline (t : option Z)
| EvGoRemote (user : list byte) (address : string) (method : byte)
| EvGoStderr.

(** The collaborators whose calls can fail: the results of the coming calls
    to [w.SendManual], [remote.writer.Write] and [session.WindowChange], in
    order ([None] is a nil error; a call past the end succeeds). *)
Record environment : Type := mkEnv {
  sendManualResults : list (option error);
  writeResults : list (option error);
  windowChangeResults : list (option error)
}.

(** A goroutine of the session: not started, running, or returned.  The
    remote task is [Connecting] until it has published the remote handle,
    then [Published], and [Serving] once it has started the stderr pump. *)
Inductive progress : Type :=
| Connecting
| Published
| Serving.

Inductive task (A : Type) : Type :=
| NotStarted
| Running (at_ : A)
| Exited.

Arguments NotStarted {A}.
Arguments Exited {A}.

Definition running (A : Type) (t : task A) : nat :=
  match t with
  | Running _ => 1
  | _ => 0
  end.

(** The fields of [sshClient] that the methods read or write (the mutex is
    the atomicity of the steps, [baseCtxCancelDone] is the state of the
    [sync.OnceFunc], [remoteCloseWait] the counter of the wait group),
    followed by the state of what the session talks to: the responder's
    header size, the read deadline of the dialled connection, the two
    goroutines, the collaborators and the trace. *)
Record sshClient : Type := mkClient {
  HeaderSize : nat;
  baseCtxCancelDone : bool;
  remoteCloseWait : nat;
  remoteReadTimeoutRetry : bool;
  remoteReadForceRetryNextTimeout : bool;
  credentialReceive : Chan.t (list byte);
  credentialProcessed : bool;
  credentialReceiveClosed : bool;
  fingerprintVerifyResultReceive : Chan.t bool;
  fingerprintProcessed : bool;
  fingerprintVerifyResultReceiveClosed : bool;
  remoteConnReceive : Chan.t sshRemoteConn;
  remoteConn : sshRemoteConn;
  readDeadline : option Z;
  remoteTask : task progress;
  stderrTask : task unit;
  env : environment;
  trace : list event
}.

Definition newSSH (headerSize : nat) (e : environment) : sshClient :=
  {| HeaderSize := headerSize;
     baseCtxCancelDone := false;
     remoteCloseWait := 0;
     remoteReadTimeoutRetry := false;
     remoteReadForceRetryNextTimeout := false;
     credentialReceive := Chan.make (list byte);
     credentialProcessed := false;
     credentialReceiveClosed := false;
     fingerprintVerifyResultReceive := Chan.make bool;
     fingerprintProcessed := false;
     fingerprintVerifyResultReceiveClosed := false;
     remoteConnReceive := Chan.make sshRemoteConn;
     remoteConn := zeroRemoteConn;
     readDeadline := None;
     remoteTask := NotStarted;
     stderrTask := NotStarted;
     env := e;
     trace := [] |}.

(** Field updates. *)
Definition set_baseCtxCancelDone (v : bool) (d : sshClient) : sshClient :=
  mkClient (HeaderSize d) v (remoteCloseWait d) (remoteReadTimeoutRetry d)
    (remoteReadForceRetryNextTimeout d) (credentialReceive d)
    (credentialProcessed d) (credentialReceiveClosed d)
    (fingerprintVerifyResultReceive d) (fingerprintProcessed d)
    (fingerprintVerifyResultReceiveClosed d) (remoteConnReceive d)
    (remoteConn d) (readDeadline d) (remoteTask d) (stderrTask d) (env d)
    (trace d).

Definition set_remoteCloseWait (v : nat) (d : sshClient) : sshClient :=
  mkClient (HeaderSize d) (baseCtxCancelDone d) v (remoteReadTimeoutRetry d)
    (remoteReadForceRetryNextTimeout d) (credentialReceive d)
    (credentialProcessed d) (credentialReceiveClosed d)
    (fingerprintVerifyResultReceive d) (fingerprintProcessed d)
    (fingerprintVerifyResultReceiveClosed d) (remoteConnReceive d)
    (remoteConn d) (readDeadline d) (remoteTask d) (stderrTask d) (env d)
    (trace d).

Definition set_remoteReadTimeoutRetry (v : bool) (d : sshClient) : sshClient :=
  mkClient (HeaderSize d) (baseCtxCancelDone d) (remoteCloseWait d) v
    (remoteReadForceRetryNextTimeout d) (credentialReceive d)
    (credentialProcessed d) (credentialReceiveClosed d)
    (fingerprintVerifyResultReceive d) (fingerprintProcessed d)
    (fingerprintVerifyResultReceiveClosed d) (remoteConnReceive d)
    (remoteConn d) (readDeadline d) (remoteTask d) (stderrTask d) (env d)
    (trace d).

Definition set_remoteReadForceRetryNextTimeout (v : bool) (d : sshClient)
  : sshClient :=
  mkClient (HeaderSize d) (baseCtxCancelDone d) (remoteCloseWait d)
    (remoteReadTimeoutRetry d) v (credentialReceive d)
    (credentialProcessed d) (credentialReceiveClosed d)
    (fingerprintVerifyResultReceive d) (fingerprintProcessed d)
    (fingerprintVerifyResultReceiveClosed d) (remoteConnReceive d)
    (remoteConn d) (readDeadline d) (remoteTask d) (stderrTask d) (env d)
    (trace d).

Definition set_credentialReceive (v : Chan.t (list byte)) (d : sshClient)
  : sshClient :=
  mkClient (HeaderSize d) (baseCtxCancelDone d) (remoteCloseWait d)
    (remoteReadTimeoutRetry d) (remoteReadForceRetryNextTimeout d) v
    (credentialProcessed d) (credentialReceiveClosed d)
    (fingerprintVerifyResultReceive d) (fingerprintProcessed d)
    (fingerprintVerifyResultReceiveClosed d) (remoteConnReceive d)
    (remoteConn d) (readDeadline d) (remoteTask d) (stderrTask d) (env d)
    (trace d).

Definition set_credentialProcessed (v : bool) (d : sshClient) : sshClient :=
  mkClient (HeaderSize d) (baseCtxCancelDone d) (remoteCloseWait d)
    (remoteReadTimeoutRetry d) (remoteReadForceRetryNextTimeout d)
    (credentialReceive d) v (credentialReceiveClosed d)
    (fingerprintVerifyResultReceive d) (fingerprintProcessed d)
    (fingerprintVerifyResultReceiveClosed d) (remoteConnReceive d)
    (remoteConn d) (readDeadline d) (remoteTask d) (stderrTask d) (env d)
    (trace d).

Definition set_credentialReceiveClosed (v : bool) (d : sshClient)
  : sshClient :=
  mkClient (HeaderSize d) (baseCtxCancelDone d) (remoteCloseWait d)
    (remoteReadTimeoutRetry d) (remoteReadForceRetryNextTimeout d)
    (credentialReceive d) (credentialProcessed d) v
    (fingerprintVerifyResultReceive d) (fingerprintProcessed d)
    (fingerprintVerifyResultReceiveClosed d) (remoteConnReceive d)
    (remoteConn d) (readDeadline d) (remoteTask d) (stderrTask d) (env d)
    (trace d).

Definition set_fingerprintVerifyResultReceive (v : Chan.t bool)
  (d : sshClient) : sshClient :=
  mkClient (HeaderSize d) (baseCtxCancelDone d) (remoteCloseWait d)
    (remoteReadTimeoutRetry d) (remoteReadForceRetryNextTimeout d)
    (credentialReceive d) (credentialProcessed d) (credentialReceiveClosed d)
    v (fingerprintProcessed d)
    (fingerprintVerifyResultReceiveClosed d) (remoteConnReceive d)
    (remoteConn d) (readDeadline d) (remoteTask d) (stderrTask d) (env d)
    (trace d).

Definition set_fingerprintProcessed (v : bool) (d : sshClient) : sshClient :=
  mkClient (HeaderSize d) (baseCtxCancelDone d) (remoteCloseWait d)
    (remoteReadTimeoutRetry d) (remoteReadForceRetryNextTimeout d)
    (credentialReceive d) (credentialProcessed d) (credentialReceiveClosed d)
    (fingerprintVerifyResultReceive d) v
    (fingerprintVerifyResultReceiveClosed d) (remoteConnReceive d)
    (remoteConn d) (readDeadline d) (remoteTask d) (stderrTask d) (env d)
    (trace d).

Definition set_fingerprintVerifyResultReceiveClosed (v : bool)
  (d : sshClient) : sshClient :=
  mkClient (HeaderSize d) (baseCtxCancelDone d) (remoteCloseWait d)
    (remoteReadTimeoutRetry d) (remoteReadForceRetryNextTimeout d)
    (credentialReceive d) (credentialProcessed d) (credentialReceiveClosed d)
    (fingerprintVerifyResultReceive d) (fingerprintProcessed d) v
    (remoteConnReceive d) (remoteConn d) (readDeadline d) (remoteTask d) (stderrTask d) (env d)
    (trace d).

Definition set_remoteConnReceive (v : Chan.t sshRemoteConn) (d : sshClient)
  : sshClient :=
  mkClient (HeaderSize d) (baseCtxCancelDone d) (remoteCloseWait d)
    (remoteReadTimeoutRetry d) (remoteReadForceRetryNextTimeout d)
    (credentialReceive d) (credentialProcessed d) (credentialReceiveClosed d)
    (fingerprintVerifyResultReceive d) (fingerprintProcessed d)
    (fingerprintVerifyResultReceiveClosed d) v
    (remoteConn d) (readDeadline d) (remoteTask d) (stderrTask d) (env d)
    (trace d).

Definition set_remoteConn (v : sshRemoteConn) (d : sshClient) : sshClient :=
  mkClient (HeaderSize d) (baseCtxCancelDone d) (remoteCloseWait d)
    (remoteReadTimeoutRetry d) (remoteReadForceRetryNextTimeout d)
    (credentialReceive d) (credentialProcessed d) (credentialReceiveClosed d)
    (fingerprintVerifyResultReceive d) (fingerprintProcessed d)
    (fingerprintVerifyResultReceiveClosed d) (remoteConnReceive d)
    v (readDeadline d) (remoteTask d) (stderrTask d) (env d) (trace d).

Definition set_readDeadline (v : option Z) (d : sshClient) : sshClient :=
  mkClient (HeaderSize d) (baseCtxCancelDone d) (remoteCloseWait d)
    (remoteReadTimeoutRetry d) (remoteReadForceRetryNextTimeout d)
    (credentialReceive d) (credentialProcessed d) (credentialReceiveClosed d)
    (fingerprintVerifyResultReceive d) (fingerprintProcessed d)
    (fingerprintVerifyResultReceiveClosed d) (remoteConnReceive d)
    (remoteConn d) v (remoteTask d) (stderrTask d) (env d) (trace d).

Definition set_env (v : environment) (d : sshClient) : sshClient :=
  mkClient (HeaderSize d) (baseCtxCancelDone d) (remoteCloseWait d)
    (remoteReadTimeoutRetry d) (remoteReadForceRetryNextTimeout d)
    (credentialReceive d) (credentialProcessed d) (credentialReceiveClosed d)
    (fingerprintVerifyResultReceive d) (fingerprintProcessed d)
    (fingerprintVerifyResultReceiveClosed d) (remoteConnReceive d)
    (remoteConn d) (readDeadline d) (remoteTask d) (stderrTask d) v (trace d).

Definition set_remoteTask (v : task progress) (d : sshClient) : sshClient :=
  mkClient (HeaderSize d) (baseCtxCancelDone d) (remoteCloseWait d)
    (remoteReadTimeoutRetry d) (remoteReadForceRetryNextTimeout d)
    (credentialReceive d) (credentialProcessed d) (credentialReceiveClosed d)
    (fingerprintVerifyResultReceive d) (fingerprintProcessed d)
    (fingerprintVerifyResultReceiveClosed d) (remoteConnReceive d)
    (remoteConn d) (readDeadline d) v (stderrTask d) (env d) (trace d).

Definition set_stderrTask (v : task unit) (d : sshClient) : sshClient :=
  mkClient (HeaderSize d) (baseCtxCancelDone d) (remoteCloseWait d)
    (remoteReadTimeoutRetry d) (remoteReadForceRetryNextTimeout d)
    (credentialReceive d) (credentialProcessed d) (credentialReceiveClosed d)
    (fingerprintVerifyResultReceive d) (fingerprintProcessed d)
    (fingerprintVerifyResultReceiveClosed d) (remoteConnReceive d)
    (remoteConn d) (readDeadline d) (remoteTask d) v (env d) (trace d).

Definition record (ev : event) (d : sshClient) : sshClient :=
  mkClient (HeaderSize d) (baseCtxCancelDone d) (remoteCloseWait d)
    (remoteReadTimeoutRetry d) (remoteReadForceRetryNextTimeout d)
    (credentialReceive d) (credentialProcessed d) (credentialReceiveClosed d)
    (fingerprintVerifyResultReceive d) (fingerprintProcessed d)
    (fingerprintVerifyResultReceiveClosed d) (remoteConnReceive d)
    (remoteConn d) (readDeadline d) (remoteTask d) (stderrTask d) (env d)
    (trace d ++ [ev]).

(** ** The monad of methods *)

(** The outcome of running a method from a state: it returned [a] leaving
    the session [s]; or it is suspended in state [s] until [g] is enabled,
    and then goes on as [k]; or it panicked. *)
Inductive res (A : Type) : Type :=
| Done (a : A) (s : sshClient)
| Blocked (X : Type) (g : sshClient -> option (X * sshClient))
    (s : sshClient) (k : X -> sshClient -> res A)
| Panicked (s : sshClient).

Arguments Panicked {A} s.

Definition M (A : Type) : Type := sshClient -> res A.

Fixpoint bind_res (A B : Type) (r : res A) (f : A -> M B) : res B :=
  match r with
  | Done a s => f a s
  | Blocked g s k => Blocked g s (fun x s' => bind_res (k x s') f)
  | Panicked s => Panicked s
  end.

Definition ret (A : Type) (a : A) : M A := fun s => Done a s.

Definition bind (A B : Type) (m : M A) (f : A -> M B) : M B :=
  fun s => bind_res (m s) f.

Declare Scope go_scope.
Delimit Scope go_scope with go.
Notation "x <- m ;; k" := (bind m (fun x => k))
  (at level 61, m at next level, right associativity) : go_scope.
Notation "m ;; k" := (bind m (fun _ => k))
  (at level 61, right associativity) : go_scope.
Notation "' pat <- m ;; k" :=
  (bind m (fun x => match x with pat => k end))
  (at level 61, pat pattern, m at next level, right associativity)
  : go_scope.
Open Scope go_scope.

Definition gets (A : Type) (f : sshClient -> A) : M A := fun s => Done (f s) s.

Definition modify (f : sshClient -> sshClient) : M unit :=
  fun s => Done tt (f s).

Definition panic (A : Type) : M A := fun s => Panicked s.

(** Run [g] as soon as it is enabled. *)
Definition await (X : Type) (g : sshClient -> option (X * sshClient)) : M X :=
  fun s =>
    match g s with
    | Some (x, s') => Done x s'
    | None => Blocked g s (fun x s' => Done x s')
    end.

(** Resume a suspended method on the current session. *)
Definition resume (A : Type) (r : res A) (s' : sshClient) : res A :=
  match r with
  | Blocked g _ k =>
      match g s' with
      | Some (x, s'') => k x s''
      | None => Blocked g s' k
      end
  | _ => r
  end.

(** The session a run has reached, and its result once it has returned. *)
Definition state_of (A : Type) (r : res A) : sshClient :=
  match r with
  | Done _ s => s
  | Blocked _ s _ => s
  | Panicked s => s
  end.

Definition result_of (A : Type) (r : res A) : option A :=
  match r with
  | Done a _ => Some a
  | _ => None
  end.

Definition is_blocked (A : Type) (r : res A) : bool :=
  match r with
  | Blocked _ _ _ => true
  | _ => false
  end.

(** ** Channel operations *)

Section ChannelOps.

Variable A : Type.
Variable get : sshClient -> Chan.t A.
Variable put : Chan.t A -> sshClient -> sshClient.

(** [c <- v]: panics on a closed channel, waits while the buffer is
    full. *)
Definition chan_send (sent : event) (v : A) : M unit :=
  ok <- await (fun s =>
          if Chan.closed (get s) then Some (false, s)
          else if Chan.full (get s) then None
          else Some (true, record sent (put (Chan.push v (get s)) s))) ;;
  if ok then ret tt else panic unit.

(** [v, ok := <-c]: a queued value, or [None] once the channel is closed
    and drained; waits otherwise. *)
Definition chan_recv : M (option A) :=
  await (fun s =>
    match Chan.pop (get s) with
    | Some (v, c) => Some (Some v, put c s)
    | None => if Chan.closed (get s) then Some (None, s) else None
    end).

(** [close(c)]: panics on a closed channel. *)
Definition chan_close (name : channel) : M unit :=
  fun s =>
    if Chan.closed (get s) then Panicked s
    else Done tt (record (EvClose name) (put (Chan.close (get s)) s)).

End ChannelOps.

(** ** Collaborators *)

Definition next_result (l : list (option error))
  : option error * list (option error) :=
  match l with
  | r :: rest => (r, rest)
  | [] => (None, [])
  end.

(** [d.w.SendManual(marker, b)] *)
Definition SendManual (marker : byte) (b : list byte) : M (option error) :=
  fun s =>
    let e := env s in
    let (r, rest) := next_result (sendManualResults e) in
    Done r (record (EvSendManual marker b)
              (set_env (mkEnv rest (writeResults e) (windowChangeResults e)) s)).

(** [remote.writer.Write(rData)] *)
Definition writer_Write (w : nat) (rData : list byte) : M (option error) :=
  fun s =>
    let e := env s in
    let (r, rest) := next_result (writeResults e) in
    Done r (record (EvWrite w rData)
              (set_env (mkEnv (sendManualResults e) rest
                          (windowChangeResults e)) s)).

(** [remote.session.WindowChange(rows, cols)] *)
Definition session_WindowChange (sess : nat) (rows cols : Z)
  : M (option error) :=
  fun s =>
    let e := env s in
    let (r, rest) := next_result (windowChangeResults e) in
    Done r (record (EvWindowChange sess rows cols)
              (set_env (mkEnv (sendManualResults e) (writeResults e) rest) s)).

(** [d.l.Debug(format, ...)] *)
Definition l_Debug (format : string) : M unit :=
  modify (record (EvDebug format)).

(** [sshConn.SetReadDeadline(t)]; [None] is [sshEmptyTime], no deadline. *)
Definition SetReadDeadline (t : option Z) : M unit :=
  modify (fun s => record (EvSetReadDeadline t) (set_readDeadline t s)).

(** [d.baseCtxCancel()], a [sync.OnceFunc]: the context is cancelled by the
    first call only. *)
Definition baseCtxCancel : M unit :=
  done <- gets baseCtxCancelDone ;;
  if done then ret tt
  else modify (fun s => record EvCtxCancel (set_baseCtxCancelDone true s)).

(** ** Read-timeout retry *)

Definition enableRemoteReadTimeoutRetry : M unit :=
  modify (set_remoteReadTimeoutRetry true).

Definition disableRemoteReadTimeoutRetry : M unit :=
  modify (set_remoteReadTimeoutRetry false) ;;
  modify (set_remoteReadForceRetryNextTimeout true).

(** The [requestTimeoutRetry] closure of [dialRemote]; [timeout] is
    [config.Timeout] and [now] the value of [time.Now()]. *)
Definition requestTimeoutRetry (timeout now : Z) : M bool :=
  retry <- gets remoteReadTimeoutRetry ;;
  force <- gets remoteReadForceRetryNextTimeout ;;
  giveUp <- (if negb retry then
               if negb force then ret true
               else modify (set_remoteReadForceRetryNextTimeout false) ;;
                    ret false
             else ret false) ;;
  if giveUp : bool then ret false
  else SetReadDeadline (Some (now + timeout)%Z) ;; ret true.

(** The closure [dialRemote] returns as [clearConnInitialDeadline]. *)
Definition clearConnInitialDeadline : M unit :=
  modify (set_remoteReadTimeoutRetry false) ;;
  modify (set_remoteReadForceRetryNextTimeout true) ;;
  SetReadDeadline None.

(** One completed [s.Conn.Read(b)] of the dialled connection: what it
    returned and the time at which it returned. *)
Record conn_read : Type := mkRead {
  rLen : nat;
  rErr : option error;
  now : Z
}.

(** [sshRemoteConnWrapper.Read] over the coming results of the underlying
    reads.  It returns the result it hands to its caller and the reads that
    are left; [None] when the underlying read has not returned yet. *)
Fixpoint sshRemoteConnWrapper_Read (timeout : Z) (reads : list conn_read)
  : M (option (nat * option error) * list conn_read) :=
  match reads with
  | [] => ret (None, [])
  | r :: rest =>
      match rErr r with
      | None => ret (Some (rLen r, None), rest)
      | Some (net_Error true) =>
          again <- requestTimeoutRetry timeout (now r) ;;
          if again : bool then sshRemoteConnWrapper_Read timeout rest
          else ret (Some (rLen r, rErr r), rest)
      | Some _ => ret (Some (rLen r, rErr r), rest)
      end
  end.

(** Successive calls of the hook, at the given times. *)
Fixpoint requestTimeoutRetries (timeout : Z) (times : list Z)
  : M (list bool) :=
  match times with
  | [] => ret []
  | t :: rest =>
      b <- requestTimeoutRetry timeout t ;;
      bs <- requestTimeoutRetries timeout rest ;;
      ret (b :: bs)
  end.

(** ** The framed payload reader *)

Module rw.

(** Modelled from the spec: [rw.LimitedReader] and [rw.FetchOneByte] are
    not among the sources.  The spec speaks of the "framed payload" of a
    frame, read as "buffered payload chunks", of reading "exactly 4 bytes"
    and "one byte".  A reader is the number [n] of payload bytes of the
    frame that are still unread, and what the transport under it delivers
    next: chunks of bytes as they arrive, or a read error.  A fetch never
    goes past the end of the frame; on a transport that has nothing more to
    deliver it fails with [io_EOF]. *)
Inductive delivery : Type :=
| Data (bs : list byte)
| Fault (e : error).

Record LimitedReader : Type := mkReader {
  n : nat;
  source : list delivery
}.

Definition Remains (l : LimitedReader) : nat := n l.

Definition Completed (l : LimitedReader) : bool := n l <=? 0.

(** [l.Fetch(k)]: at most [k] bytes, and no more than remain. *)
Definition Fetch (k : nat) (l : LimitedReader)
  : list byte * option error * LimitedReader :=
  if Completed l then ([], Some io_EOF, l)
  else
    let k := if Remains l <? k then Remains l else k in
    match source l with
    | [] => ([], Some io_EOF, l)
    | Fault e :: rest => ([], Some e, mkReader (n l) rest)
    | Data bs :: rest =>
        let exported := firstn k bs in
        let unread := skipn k bs in
        (exported, None,
         mkReader (n l - List.length exported)
           (match unread with [] => rest | _ => Data unread :: rest end))
    end.

(** [l.Buffered()] *)
Definition Buffered (l : LimitedReader)
  : list byte * option error * LimitedReader :=
  Fetch (Remains l) l.

(** [l.Read(b)] with [len(b) = k]: the bytes copied into [b]. *)
Definition Read (k : nat) (l : LimitedReader)
  : list byte * option error * LimitedReader :=
  Fetch k l.

(** The loops below end when the frame is completed or the transport has
    nothing left; each turn that does neither consumes one delivery. *)
Definition fuel (l : LimitedReader) : nat := S (List.length (source l)).

(** [rw.FetchOneByte(l.Fetch)]: fetch until one byte or an error comes. *)
Fixpoint FetchOneByte_loop (turns : nat) (l : LimitedReader)
  : list byte * option error * LimitedReader :=
  match turns with
  | 0 => ([], Some io_EOF, l)
  | S turns' =>
      let '(d, dErr, l') := Fetch 1 l in
      match dErr with
      | Some e => ([], Some e, l')
      | None =>
          if List.length d <=? 0 then FetchOneByte_loop turns' l'
          else (d, None, l')
      end
  end.

Definition FetchOneByte (l : LimitedReader)
  : list byte * option error * LimitedReader :=
  FetchOneByte_loop (fuel l) l.

(** [io.ReadFull(l, b[:k])]: read until [k] bytes are in [b].  An error
    after the first byte and before the last is reported as
    [io_ErrUnexpectedEOF] when it is [io_EOF]. *)
Fixpoint ReadFull_loop (turns k : nat) (got : list byte) (l : LimitedReader)
  : list byte * option error * LimitedReader :=
  if k <=? List.length got then (got, None, l)
  else
    match turns with
    | 0 => (got, Some io_ErrUnexpectedEOF, l)
    | S turns' =>
        let '(bs, e, l') := Read (k - List.length got) l in
        let got' := got ++ bs in
        match e with
        | None => ReadFull_loop turns' k got' l'
        | Some err =>
            if k <=? List.length got' then (got', None, l')
            else
              match err, got' with
              | io_EOF, _ :: _ => (got', Some io_ErrUnexpectedEOF, l')
              | _, _ => (got', Some err, l')
              end
        end
    end.

Definition ReadFull (k : nat) (l : LimitedReader)
  : list byte * option error * LimitedReader :=
  ReadFull_loop (fuel l) k [] l.

(** A frame whose payload [payload] arrives whole, in the given chunks,
    followed by whatever the transport delivers for later frames. *)
Definition frame (chunks : list (list byte)) (later : list delivery)
  : LimitedReader :=
  mkReader (List.length (List.concat chunks)) (map Data chunks ++ later).

End rw.

Import rw.

(** ** The wait group [remoteCloseWait] *)

Definition remoteCloseWait_Add (k : nat) : M unit :=
  modify (fun s => set_remoteCloseWait (remoteCloseWait s + k) s).

(** [Done] panics when the counter would go below zero. *)
Definition remoteCloseWait_Done : M unit :=
  c <- gets remoteCloseWait ;;
  match c with
  | 0 => panic unit
  | S c' => modify (set_remoteCloseWait c')
  end.

Definition remoteCloseWait_Wait : M unit :=
  await (fun s => if remoteCloseWait s =? 0 then Some (tt, s) else None).

(** ** The remote handle *)

(** [remote.closer()]; calling a nil function panics. *)
Definition call_closer (remote : sshRemoteConn) : M unit :=
  match closer remote with
  | Some c => modify (record (EvCloser c))
  | None => panic unit
  end.

Definition recv_remoteConn : M (option sshRemoteConn) :=
  chan_recv remoteConnReceive set_remoteConnReceive.

Definition getRemote : M (sshRemoteConn * option error) :=
  cached <- gets remoteConn ;;
  if isValid cached then ret (cached, None)
  else
    fetched <- recv_remoteConn ;;
    match fetched with
    | None => ret (zeroRemoteConn, Some ErrSSHRemoteConnUnavailable)
    | Some remoteConn =>
        modify (set_remoteConn remoteConn) ;;
        ret (remoteConn, None)
    end.

(** ** The local-frame handler *)

Definition send_credential (data : list byte) : M unit :=
  chan_send credentialReceive set_credentialReceive
    (EvSendCredential data) data.

Definition send_fingerprint (confirmed : bool) : M unit :=
  chan_send fingerprintVerifyResultReceive set_fingerprintVerifyResultReceive
    (EvSendFingerprint confirmed) confirmed.

(** [int(b)] *)
Definition int (b : byte) : Z := Z.of_N (Byte.to_N b).

(** [x := int(hi); x <<= 8; x |= int(lo)]; Go's [int] has 64 bits and the
    value is below 2^16, so nothing wraps. *)
Definition be16 (hi lo : byte) : Z := Z.lor (Z.shiftl (int hi) 8) (int lo).

(** The loop of the [SSHClientStdIn] case. *)
Fixpoint stdin_loop (turns : nat) (remote : sshRemoteConn)
  (r : LimitedReader) : M (option error * LimitedReader) :=
  if Completed r then ret (None, r)
  else
    match turns with
    | 0 => ret (Some io_EOF, r)
    | S turns' =>
        let '(rData, rErr, r') := Buffered r in
        match rErr with
        | Some e => ret (Some e, r')
        | None =>
            wErr <- match writer remote with
                    | Some w => writer_Write w rData
                    | None => panic (option error)
                    end ;;
            match wErr with
            | Some _ =>
                call_closer remote ;;
                l_Debug "Failed to write data to remote: %s"
            | None => ret tt
            end ;;
            stdin_loop turns' remote r'
        end
    end.

(** The loop of the [SSHClientRespondCredential] case: the error it returns
    with, or the credential it has assembled. *)
Fixpoint credential_loop (turns : nat) (sshCredentialBufSize : nat)
  (credentialDataBuf : list byte) (totalCredentialRead : nat)
  (r : LimitedReader) : option error * list byte * LimitedReader :=
  if Completed r then (None, credentialDataBuf, r)
  else
    match turns with
    | 0 => (Some io_EOF, credentialDataBuf, r)
    | S turns' =>
        let '(rData, rErr, r') := Buffered r in
        match rErr with
        | Some e => (Some e, credentialDataBuf, r')
        | None =>
            let totalCredentialRead :=
              totalCredentialRead + List.length rData in
            if sshCredentialBufSize <? totalCredentialRead
            then (Some ErrSSHCredentialDataTooLarge, credentialDataBuf, r')
            else credential_loop turns' sshCredentialBufSize
                   (credentialDataBuf ++ rData) totalCredentialRead r'
        end
    end.

(** [d.local(f, r, h, b)] with [marker = h.Marker()]: the error it returns
    and the reader as it leaves it. *)
Definition local (marker : byte) (r : LimitedReader)
  : M (option error * LimitedReader) :=
  if Byte.eqb marker SSHClientStdIn then
    '(remote, remoteErr) <- getRemote ;;
    match remoteErr with
    | Some e => ret (Some e, r)
    | None => stdin_loop (fuel r) remote r
    end
  else if Byte.eqb marker SSHClientResize then
    '(remote, remoteErr) <- getRemote ;;
    match remoteErr with
    | Some e => ret (Some e, r)
    | None =>
        let '(b, rErr, r') := ReadFull 4 r in
        match rErr with
        | Some e => ret (Some e, r')
        | None =>
            let rows := be16 (nth 0 b x00) (nth 1 b x00) in
            let cols := be16 (nth 2 b x00) (nth 3 b x00) in
            wcErr <- match session remote with
                     | Some sess => session_WindowChange sess rows cols
                     | None => panic (option error)
                     end ;;
            match wcErr with
            | Some _ => l_Debug "Failed to resize to %d, %d: %s"
            | None => ret tt
            end ;;
            ret (None, r')
        end
    end
  else if Byte.eqb marker SSHClientRespondFingerprint then
    processed <- gets fingerprintProcessed ;;
    if processed : bool
    then ret (Some ErrSSHUnexpectedFingerprintVerificationRespond, r)
    else
      modify (set_fingerprintProcessed true) ;;
      let '(rData, rErr, r') := FetchOneByte r in
      match rErr with
      | Some e => ret (Some e, r')
      | None =>
          let comfirmed := Byte.eqb (nth 0 rData x00) x00 in
          if negb comfirmed then
            send_fingerprint false ;;
            '(remote, remoteErr) <- getRemote ;;
            match remoteErr with
            | None => call_closer remote
            | Some _ => ret tt
            end ;;
            ret (None, r')
          else
            send_fingerprint true ;;
            ret (None, r')
      end
  else if Byte.eqb marker SSHClientRespondCredential then
    processed <- gets credentialProcessed ;;
    if processed : bool
    then ret (Some ErrSSHUnexpectedCredentialDataRespond, r)
    else
      modify (set_credentialProcessed true) ;;
      let sshCredentialBufSize :=
        if sshCredentialMaxSize <? Remains r then sshCredentialMaxSize
        else Remains r in
      let '(rErr, credentialDataBuf, r') :=
        credential_loop (fuel r) sshCredentialBufSize [] 0 r in
      match rErr with
      | Some e => ret (Some e, r')
      | None =>
          send_credential credentialDataBuf ;;
          ret (None, r')
      end
  else ret (Some ErrSSHUnknownClientSignal, r).

(** What is left of the [SSHClientRespondFingerprint] case once a refusal
    has been sent. *)
Definition after_refusal (r' : LimitedReader)
  : M (option error * LimitedReader) :=
  '(remote, remoteErr) <- getRemote ;;
  match remoteErr with
  | None => call_closer remote
  | Some _ => ret tt
  end ;;
  ret (None, r').

(** ** Lifecycle *)

Definition Close : M (option error) :=
  modify (set_credentialProcessed true) ;;
  modify (set_fingerprintProcessed true) ;;
  credentialReceiveClosed <- gets credentialReceiveClosed ;;
  (if negb credentialReceiveClosed then
     chan_close credentialReceive set_credentialReceive
       ch_credentialReceive ;;
     modify (set_credentialReceiveClosed true)
   else ret tt) ;;
  fingerprintVerifyResultReceiveClosed <-
    gets fingerprintVerifyResultReceiveClosed ;;
  (if negb fingerprintVerifyResultReceiveClosed then
     chan_close fingerprintVerifyResultReceive
       set_fingerprintVerifyResultReceive
       ch_fingerprintVerifyResultReceive ;;
     modify (set_fingerprintVerifyResultReceiveClosed true)
   else ret tt) ;;
  '(remote, remoteErr) <- getRemote ;;
  match remoteErr with
  | None => call_closer remote
  | Some _ => ret tt
  end ;;
  baseCtxCancel ;;
  remoteCloseWait_Wait ;;
  ret None.

Definition Release : M (option error) :=
  baseCtxCancel ;;
  ret None.

(** ** Callbacks of the SSH library *)

(** [b[lo:]]; slicing past the end of [b] panics. *)
Definition slice_from (b : list byte) (lo : nat) : M (list byte) :=
  if List.length b <? lo then panic (list byte) else ret (skipn lo b).

Definition recv_credential : M (option (list byte)) :=
  chan_recv credentialReceive set_credentialReceive.

Definition recv_fingerprint : M (option bool) :=
  chan_recv fingerprintVerifyResultReceive
    set_fingerprintVerifyResultReceive.

(** The function given to [ssh.PasswordCallback]; [b] is the scratch buffer
    of the remote task.  The deferred call runs when the body returns. *)
Definition passwordCallback (b : list byte) : M (list byte * option error) :=
  enableRemoteReadTimeoutRetry ;;
  out <- (h <- gets HeaderSize ;;
          req <- slice_from b h ;;
          wErr <- SendManual SSHServerConnectRequestCredential req ;;
          match wErr with
          | Some e => ret ([], Some e)
          | None =>
              received <- recv_credential ;;
              match received with
              | None => ret ([], Some ErrSSHAuthCancelled)
              | Some passphraseBytes => ret (passphraseBytes, None)
              end
          end) ;;
  disableRemoteReadTimeoutRetry ;;
  ret out.

(** The function given to [ssh.PublicKeysCallback]; a signer is a reference
    to an object of the SSH library. *)
Definition publicKeysCallback
  (ParsePrivateKey : list byte -> nat * option error) (b : list byte)
  : M (list nat * option error) :=
  enableRemoteReadTimeoutRetry ;;
  out <- (h <- gets HeaderSize ;;
          req <- slice_from b h ;;
          wErr <- SendManual SSHServerConnectRequestCredential req ;;
          match wErr with
          | Some e => ret ([], Some e)
          | None =>
              received <- recv_credential ;;
              match received with
              | None => ret ([], Some ErrSSHAuthCancelled)
              | Some privateKeyBytes =>
                  let '(signer, signerErr) :=
                    ParsePrivateKey privateKeyBytes in
                  match signerErr with
                  | Some e => ret ([], Some e)
                  | None => ret ([signer], signerErr)
                  end
              end
          end) ;;
  disableRemoteReadTimeoutRetry ;;
  ret out.

(** [copy(buf[at:], src)] followed by [buf[:at+copied]]: the frame buffer
    handed to [SendManual], header region first. *)
Definition framed (buf : list byte) (at_ : nat) (src : list byte)
  : list byte :=
  firstn at_ buf ++ firstn (List.length buf - at_) src.

(** [d.confirmRemoteFingerprint(hostname, remote, key, buf)] with
    [fgp = ssh.FingerprintSHA256(key)]. *)
Definition confirmRemoteFingerprint (fgp buf : list byte)
  : M (option error) :=
  enableRemoteReadTimeoutRetry ;;
  out <- (h <- gets HeaderSize ;;
          _ <- slice_from buf h ;;
          wErr <- SendManual SSHServerConnectVerifyFingerprint
                    (framed buf h fgp) ;;
          match wErr with
          | Some e => ret (Some e)
          | None =>
              received <- recv_fingerprint ;;
              match received with
              | None =>
                  ret (Some ErrSSHRemoteFingerprintVerificationCancelled)
              | Some confirmed =>
                  if negb confirmed
                  then ret (Some ErrSSHRemoteFingerprintRefused)
                  else ret None
              end
          end) ;;
  disableRemoteReadTimeoutRetry ;;
  ret out.

(** ** The remote task

    [remote] runs in its own goroutine.  Its steps on the session are the
    callbacks above, which the SSH library calls during the handshake of
    [dialRemote], and the following ones. *)

(** The eight points at which [remote] gives up before the shell runs: the
    before-connecting hook, the dial, and the six steps on the connection
    that follow. *)
Inductive failure : Type :=
| HookFailed
| DialFailed
| NewSessionFailed
| StdinPipeFailed
| StdoutPipeFailed
| StderrPipeFailed
| RequestPtyFailed
| ShellFailed.

(** The line [remote] logs with [d.l.Debug] at each of them; the failure of
    the hook is not logged. *)
Definition failure_log (why : failure) : option string :=
  match why with
  | HookFailed => None
  | DialFailed => Some "Unable to connect to remote machine: %s"
  | NewSessionFailed =>
      Some "Unable open new session on remote machine: %s"
  | StdinPipeFailed => Some "Unable export Stdin pipe: %s"
  | StdoutPipeFailed => Some "Unable export Stdout pipe: %s"
  | StderrPipeFailed => Some "Unable export Stderr pipe: %s"
  | RequestPtyFailed => Some "Unable request PTY: %s"
  | ShellFailed => Some "Unable to start Shell: %s"
  end%string.

(** A failed step before the shell runs:
    [d.w.SendManual(SSHServerConnectFailed, buf[:errLen])], whose result
    is dropped, the line in the log, then return. *)
Definition remote_connectFailed (why : failure) (errText buf : list byte)
  : M unit :=
  h <- gets HeaderSize ;;
  _ <- slice_from buf h ;;
  _ <- SendManual SSHServerConnectFailed (framed buf h errText) ;;
  match failure_log why with
  | Some format => l_Debug format
  | None => ret tt
  end.

(** After [session.Shell()]: [clearConnInitialDeadline()] and
    [d.remoteConnReceive <- sshRemoteConn{...}]. *)
Definition remote_publish (w c sess : nat) : M unit :=
  clearConnInitialDeadline ;;
  let h := mkRemoteConn (Some w) (Some c) (Some sess) in
  chan_send remoteConnReceive set_remoteConnReceive (EvSendRemoteConn h) h ;;
  modify (set_remoteTask (Running Published)).

(** [SendManual(SSHServerConnectSucceed, buf[:HeaderSize])], and when it
    succeeds the start of the stderr pump.  It returns whether the task
    goes on to pump stdout. *)
Definition remote_serve (buf : list byte) : M bool :=
  h <- gets HeaderSize ;;
  _ <- slice_from buf h ;;
  wErr <- SendManual SSHServerConnectSucceed (firstn h buf) ;;
  match wErr with
  | Some _ => ret false
  | None =>
      l_Debug "Serving" ;;
      remoteCloseWait_Add 1 ;;
      modify (fun s => record EvGoStderr (set_stderrTask (Running tt) s)) ;;
      modify (set_remoteTask (Running Serving)) ;;
      ret true
  end.

(** One turn of a pump: [SendManual(marker, buf[:HeaderSize+rLen])] for the
    chunk read from the pipe. *)
Definition pump (marker : byte) (chunk buf : list byte)
  : M (option error) :=
  h <- gets HeaderSize ;;
  _ <- slice_from buf h ;;
  SendManual marker (framed buf h chunk).

(** The deferred function of [remote]. *)
Definition remote_deferred : M unit :=
  modify (record EvSignalHeaderClose) ;;
  chan_close remoteConnReceive set_remoteConnReceive ch_remoteConnReceive ;;
  baseCtxCancel ;;
  remoteCloseWait_Done ;;
  modify (set_remoteTask Exited).

(** The deferred function of the stderr pump. *)
Definition stderr_deferred : M unit :=
  remoteCloseWait_Done ;;
  modify (set_stderrTask Exited).

(** ** Bootup *)

Inductive AuthMethod : Type :=
| ssh_PasswordCallback (f : M (list byte * option error))
| ssh_PublicKeysCallback (f : M (list nat * option error)).

Definition sshAuthMethodBuilder : Type := list byte -> list AuthMethod.

(** [command.FSMError]: success, or an error with its code. *)
Inductive FSMError : Type :=
| NoFSMError
| ToFSMError (e : error) (c : StreamError).

(** [command.FSMState]: the handler of the frames that follow. *)
Definition FSMState : Type :=
  byte -> LimitedReader -> M (option error * LimitedReader).

Section Bootup.

(** [ParseString] and [ParseAddress] belong to the package but not to the
    sources, and [ssh.ParsePrivateKey] to the SSH library: they are taken
    as given.  Each parser takes the reader and leaves it advanced. *)
Variable ParseString : LimitedReader -> list byte * option error * LimitedReader.
Variable Address : Type.
Variable ParseAddress : LimitedReader -> Address * option error * LimitedReader.
Variable Address_String : Address -> string.
Variable ParsePrivateKey : list byte -> nat * option error.

Definition buildAuthMethod (methodType : byte)
  : option sshAuthMethodBuilder * option error :=
  if Byte.eqb methodType SSHAuthMethodNone then
    (Some (fun _ => []), None)
  else if Byte.eqb methodType SSHAuthMethodPassphrase then
    (Some (fun b => [ssh_PasswordCallback (passwordCallback b)]), None)
  else if Byte.eqb methodType SSHAuthMethodPrivateKey then
    (Some (fun b =>
             [ssh_PublicKeysCallback (publicKeysCallback ParsePrivateKey b)]),
     None)
  else (None, Some ErrSSHInvalidAuthMethod).

(** [go d.remote(userNameStr, addrStr, authMethodBuilder)] *)
Definition go_remote (user : list byte) (address : string) (method : byte)
  : M unit :=
  modify (fun s =>
    record (EvGoRemote user address method)
      (set_remoteTask (Running Connecting) s)).

Definition Bootup (r : LimitedReader)
  : M (option FSMState * FSMError * LimitedReader) :=
  let '(userName, userNameErr, r1) := ParseString r in
  match userNameErr with
  | Some e => ret (None, ToFSMError e SSHRequestErrorBadUserName, r1)
  | None =>
      let '(addr, addrErr, r2) := ParseAddress r1 in
      match addrErr with
      | Some e => ret (None, ToFSMError e SSHRequestErrorBadRemoteAddress, r2)
      | None =>
          let addrStr := Address_String addr in
          if String.length addrStr <=? 0 then
            ret (None,
                 ToFSMError ErrSSHInvalidAddress
                   SSHRequestErrorBadRemoteAddress, r2)
          else
            let '(rData, rErr, r3) := FetchOneByte r2 in
            match rErr with
            | Some e =>
                ret (None, ToFSMError e SSHRequestErrorBadAuthMethod, r3)
            | None =>
                match buildAuthMethod (nth 0 rData x00) with
                | (_, Some e) =>
                    ret (None,
                         ToFSMError e SSHRequestErrorBadAuthMethod, r3)
                | (_, None) =>
                    remoteCloseWait_Add 1 ;;
                    go_remote userName addrStr (nth 0 rData x00) ;;
                    ret (Some local, NoFSMError, r3)
                end
            end
      end
  end.

End Bootup.

(** ** The session and its goroutines

    The control goroutine makes one call at a time: [Bootup], a frame
    handed to [local], [Close] or [Release].  A call that cannot go on is
    suspended, and so is the goroutine, until it is woken.  The remote
    goroutine runs the steps of [remote]; while a callback of the SSH
    library is suspended it takes no other step, but the reads of the
    dialled connection go on and may time out. *)

Inductive call : Type :=
| CallBootup
| CallLocal (marker : byte)
| CallClose
| CallRelease.

Inductive action : Type :=
| DoBootup (r : LimitedReader)
| DoLocal (marker : byte) (r : LimitedReader)
| DoClose
| DoRelease
| WakeControl
| AskPassword (b : list byte)
| AskPublicKeys (b : list byte)
| AskFingerprint (fgp buf : list byte)
| WakeRemote
| ReadTimeout (timeout now : Z)
| ConnectFailed (why : failure) (errText buf : list byte)
| ShellStarted (w c sess : nat)
| ConnectSucceed (buf : list byte)
| StdoutRead (chunk : option (list byte)) (buf : list byte)
| StderrRead (chunk : option (list byte)) (buf : list byte).

Record system : Type := mkSystem {
  client : sshClient;
  control : option (call * res (option error));
  remote : option (res (option error));
  crashed : bool
}.

Definition boot (headerSize : nat) (e : environment) : system :=
  mkSystem (newSSH headerSize e) None None false.

(** The error a call returns, whatever else it returns. *)
Definition errorOf (A : Type) (f : A -> option error) (m : M A)
  : M (option error) :=
  a <- m ;; ret (f a).

Definition fsmError (fe : FSMError) : option error :=
  match fe with
  | NoFSMError => None
  | ToFSMError e _ => Some e
  end.

Definition settle_control (c : call) (r : res (option error)) (sys : system)
  : system * option (call * option error) :=
  match r with
  | Done e s => (mkSystem s None (remote sys) (crashed sys), Some (c, e))
  | Blocked _ s _ =>
      (mkSystem s (Some (c, r)) (remote sys) (crashed sys), None)
  | Panicked s => (mkSystem s None (remote sys) true, None)
  end.

Definition settle_remote (r : res (option error)) (sys : system) : system :=
  match r with
  | Done _ s => mkSystem s (control sys) None (crashed sys)
  | Blocked _ s _ => mkSystem s (control sys) (Some r) (crashed sys)
  | Panicked s => mkSystem s (control sys) None true
  end.

Definition is_none (A : Type) (o : option A) : bool :=
  match o with
  | None => true
  | Some _ => false
  end.

Definition at_stage (p : progress) (s : sshClient) : bool :=
  match remoteTask s, p with
  | Running Connecting, Connecting => true
  | Running Published, Published => true
  | Running Serving, Serving => true
  | _, _ => false
  end.

(** The scratch buffers of the remote task and of the stderr pump have 4096
    bytes, of which the header region is a part. *)
Definition fits (buf : list byte) (s : sshClient) : bool :=
  HeaderSize s <=? List.length buf.

Definition end_of_pump (e : option error) (deferred : M unit)
  : M (option error) :=
  match e with
  | Some _ => deferred ;; ret None
  | None => ret None
  end.

Section System.

Variable ParseString : LimitedReader -> list byte * option error * LimitedReader.
Variable Address : Type.
Variable ParseAddress : LimitedReader -> Address * option error * LimitedReader.
Variable Address_String : Address -> string.
Variable ParsePrivateKey : list byte -> nat * option error.

(** What a call of the control goroutine runs. *)
Definition control_call (a : action) : option (call * M (option error)) :=
  match a with
  | DoBootup r =>
      Some (CallBootup,
            errorOf (fun x => fsmError (snd (fst x)))
              (Bootup ParseString ParseAddress Address_String
                 ParsePrivateKey r))
  | DoLocal marker r => Some (CallLocal marker, errorOf fst (local marker r))
  | DoClose => Some (CallClose, Close)
  | DoRelease => Some (CallRelease, Release)
  | _ => None
  end.

(** What a step of the remote goroutine (or of the stderr pump) runs, and
    whether the goroutine is at the point of taking it. *)
Definition remote_step (a : action) (s : sshClient)
  : option (M (option error)) :=
  match a with
  | AskPassword b =>
      if at_stage Connecting s && fits b s
      then Some (errorOf snd (passwordCallback b)) else None
  | AskPublicKeys b =>
      if at_stage Connecting s && fits b s
      then Some (errorOf snd (publicKeysCallback ParsePrivateKey b))
      else None
  | AskFingerprint fgp buf =>
      if at_stage Connecting s && fits buf s
      then Some (confirmRemoteFingerprint fgp buf) else None
  | ConnectFailed why errText buf =>
      if at_stage Connecting s && fits buf s
      then Some (remote_connectFailed why errText buf ;; remote_deferred ;;
                 ret None)
      else None
  | ShellStarted w c sess =>
      if at_stage Connecting s
      then Some (remote_publish w c sess ;; ret None) else None
  | ConnectSucceed buf =>
      if at_stage Published s && fits buf s
      then Some (serving <- remote_serve buf ;;
                 if serving : bool then ret None
                 else remote_deferred ;; ret None)
      else None
  | StdoutRead chunk buf =>
      if at_stage Serving s && fits buf s then
        Some (match chunk with
              | Some bs =>
                  e <- pump SSHServerRemoteStdOut bs buf ;;
                  end_of_pump e remote_deferred
              | None => remote_deferred ;; ret None
              end)
      else None
  | StderrRead chunk buf =>
      match stderrTask s with
      | Running _ =>
          if fits buf s then
            Some (match chunk with
                  | Some bs =>
                      e <- pump SSHServerRemoteStdErr bs buf ;;
                      end_of_pump e stderr_deferred
                  | None => stderr_deferred ;; ret None
                  end)
          else None
      | _ => None
      end
  | _ => None
  end.

(** One action on the system, and the call of the control goroutine that
    returned in it, with its error. *)
Definition exec (a : action) (sys : system)
  : system * option (call * option error) :=
  if crashed sys then (sys, None)
  else
    match a with
    | WakeControl =>
        match control sys with
        | Some (c, r) => settle_control c (resume r (client sys)) sys
        | None => (sys, None)
        end
    | WakeRemote =>
        match remote sys with
        | Some r => (settle_remote (resume r (client sys)) sys, None)
        | None => (sys, None)
        end
    | ReadTimeout timeout now =>
        match remoteTask (client sys) with
        | Running _ =>
            (mkSystem
               (state_of (requestTimeoutRetry timeout now (client sys)))
               (control sys) (remote sys) (crashed sys), None)
        | _ => (sys, None)
        end
    | _ =>
        match control_call a with
        | Some (c, m) =>
            match control sys, a, remoteTask (client sys) with
            | Some _, _, _ => (sys, None)
            | None, DoBootup _, NotStarted =>
                settle_control c (m (client sys)) sys
            | None, DoBootup _, _ => (sys, None)
            | None, _, _ => settle_control c (m (client sys)) sys
            end
        | None =>
            match remote sys, remote_step a (client sys) with
            | None, Some m =>
                (settle_remote (m (client sys)) sys, None)
            | _, _ => (sys, None)
            end
        end
    end.

Definition step (a : action) (sys : system) : system := fst (exec a sys).

Fixpoint run (acts : list action) (sys : system) : system :=
  match acts with
  | [] => sys
  | a :: rest => run rest (step a sys)
  end.

End System.

(** ** Invariants *)

Definition count (p : event -> bool) (t : list event) : nat :=
  List.length (filter p t).

Definition is_send_credential (ev : event) : bool :=
  match ev with EvSendCredential _ => true | _ => false end.

Definition is_send_fingerprint (ev : event) : bool :=
  match ev with EvSendFingerprint _ => true | _ => false end.

Definition is_send_remoteConn (ev : event) : bool :=
  match ev with EvSendRemoteConn _ => true | _ => false end.

Definition is_close (c : channel) (ev : event) : bool :=
  match ev, c with
  | EvClose ch_credentialReceive, ch_credentialReceive => true
  | EvClose ch_fingerprintVerifyResultReceive,
    ch_fingerprintVerifyResultReceive => true
  | EvClose ch_remoteConnReceive, ch_remoteConnReceive => true
  | _, _ => false
  end.

Definition is_ctx_cancel (ev : event) : bool :=
  match ev with EvCtxCancel => true | _ => false end.

Definition is_exited (A : Type) (t : task A) : bool :=
  match t with Exited => true | _ => false end.

Definition before_serving (t : task progress) : bool :=
  match t with
  | NotStarted | Running Connecting | Running Published => true
  | _ => false
  end.

Definition before_published (t : task progress) : bool :=
  match t with
  | NotStarted | Running Connecting => true
  | _ => false
  end.

(** What holds of the session whenever a goroutine is between two steps. *)
Record session_inv (s : sshClient) : Prop := mkInv {
  inv_credential_unused :
    credentialProcessed s = false ->
    credentialReceive s = Chan.make (list byte) /\
    count is_send_credential (trace s) = 0;
  inv_credential_once : count is_send_credential (trace s) <= 1;
  inv_credential_buffer :
    List.length (Chan.buf (credentialReceive s)) <=
      count is_send_credential (trace s);
  inv_fingerprint_unused :
    fingerprintProcessed s = false ->
    fingerprintVerifyResultReceive s = Chan.make bool /\
    count is_send_fingerprint (trace s) = 0;
  inv_fingerprint_once : count is_send_fingerprint (trace s) <= 1;
  inv_fingerprint_buffer :
    List.length (Chan.buf (fingerprintVerifyResultReceive s)) <=
      count is_send_fingerprint (trace s);
  inv_credential_closed :
    credentialReceiveClosed s = Chan.closed (credentialReceive s) /\
    count (is_close ch_credentialReceive) (trace s) =
      Nat.b2n (credentialReceiveClosed s);
  inv_fingerprint_closed :
    fingerprintVerifyResultReceiveClosed s =
      Chan.closed (fingerprintVerifyResultReceive s) /\
    count (is_close ch_fingerprintVerifyResultReceive) (trace s) =
      Nat.b2n (fingerprintVerifyResultReceiveClosed s);
  inv_cancel_once :
    count is_ctx_cancel (trace s) = Nat.b2n (baseCtxCancelDone s);
  inv_handles : Forall (fun h => isValid h = true)
                  (Chan.buf (remoteConnReceive s));
  inv_wait :
    remoteCloseWait s = running (remoteTask s) + running (stderrTask s);
  inv_remote_closed :
    Chan.closed (remoteConnReceive s) = is_exited (remoteTask s) /\
    count (is_close ch_remoteConnReceive) (trace s) =
      Nat.b2n (is_exited (remoteTask s));
  inv_remote_unpublished :
    before_published (remoteTask s) = true ->
    Chan.buf (remoteConnReceive s) = [] /\
    count is_send_remoteConn (trace s) = 0;
  inv_remote_once : count is_send_remoteConn (trace s) <= 1;
  inv_cached :
    isValid (remoteConn s) = true -> before_published (remoteTask s) = false;
  inv_stderr :
    before_serving (remoteTask s) = true -> stderrTask s = NotStarted
}.

(** The session once [Close] has set the two flags and closed the channels
    that were not closed. *)
Definition closing (s : sshClient) : sshClient :=
  let s1 := set_fingerprintProcessed true (set_credentialProcessed true s) in
  let s2 :=
    if credentialReceiveClosed s1 then s1
    else set_credentialReceiveClosed true
           (record (EvClose ch_credentialReceive)
              (set_credentialReceive (Chan.close (credentialReceive s1)) s1))
  in
  if fingerprintVerifyResultReceiveClosed s2 then s2
  else set_fingerprintVerifyResultReceiveClosed true
         (record (EvClose ch_fingerprintVerifyResultReceive)
            (set_fingerprintVerifyResultReceive
               (Chan.close (fingerprintVerifyResultReceive s2)) s2)).

(** What is left of [Close] from there. *)
Definition Close_tail : M (option error) :=
  '(remote, remoteErr) <- getRemote ;;
  match remoteErr with
  | None => call_closer remote
  | Some _ => ret tt
  end ;;
  baseCtxCancel ;;
  remoteCloseWait_Wait ;;
  ret None.

(** The part of the session the invariant looks at. *)
Record view_t : Type := mkView {
  v_credential : bool * Chan.t (list byte) * bool;
  v_fingerprint : bool * Chan.t bool * bool;
  v_remote :
    Chan.t sshRemoteConn * nat * task progress * task unit * sshRemoteConn;
  v_cancel : bool;
  v_counts : list nat
}.

Definition view (s : sshClient) : view_t :=
  mkView
    (credentialProcessed s, credentialReceive s, credentialReceiveClosed s)
    (fingerprintProcessed s, fingerprintVerifyResultReceive s,
     fingerprintVerifyResultReceiveClosed s)
    (remoteConnReceive s, remoteCloseWait s, remoteTask s, stderrTask s,
     remoteConn s)
    (baseCtxCancelDone s)
    [count is_send_credential (trace s);
     count is_send_fingerprint (trace s);
     count is_send_remoteConn (trace s);
     count (is_close ch_credentialReceive) (trace s);
     count (is_close ch_fingerprintVerifyResultReceive) (trace s);
     count (is_close ch_remoteConnReceive) (trace s);
     count is_ctx_cancel (trace s)].

(** The events the invariant counts. *)
Definition counted (ev : event) : bool :=
  match ev with
  | EvSendCredential _ | EvSendFingerprint _ | EvSendRemoteConn _
  | EvClose _ | EvCtxCancel => true
  | _ => false
  end.

(** A step that always returns and changes nothing the invariant looks
    at. *)
Definition neutral (A : Type) (m : M A) : Prop :=
  forall s, exists a s', m s = Done a s' /\ view s' = view s.

(** What every step guarantees, from the session [s] it starts in to the
    session [s'] it leaves: once one of the two flags is set it stays set,
    and nothing more is sent on its channel; a channel marked closed stays
    so, and so does the cancelled context; a cached remote handle stays;
    and once the remote goroutine has returned it is not started again, no
    stderr pump is started, and no handle is published. *)
Definition evolves (s s' : sshClient) : Prop :=
  (credentialProcessed s = true ->
   credentialProcessed s' = true /\
   count is_send_credential (trace s') =
     count is_send_credential (trace s)) /\
  (fingerprintProcessed s = true ->
   fingerprintProcessed s' = true /\
   count is_send_fingerprint (trace s') =
     count is_send_fingerprint (trace s)) /\
  (credentialReceiveClosed s = true -> credentialReceiveClosed s' = true) /\
  (fingerprintVerifyResultReceiveClosed s = true ->
   fingerprintVerifyResultReceiveClosed s' = true) /\
  (baseCtxCancelDone s = true -> baseCtxCancelDone s' = true) /\
  (isValid (remoteConn s) = true -> isValid (remoteConn s') = true) /\
  (is_exited (remoteTask s) = true ->
   is_exited (remoteTask s') = true /\
   running (stderrTask s') <= running (stderrTask s) /\
   List.length (Chan.buf (remoteConnReceive s')) <=
     List.length (Chan.buf (remoteConnReceive s))).

(** [ok Q s0 r]: the run [r], started or woken in [s0], does not panic; it
    returns only with results and in states that satisfy [Q], and is
    suspended only in states that satisfy the invariant, all of which
    [evolves] from [s0]; and so does what is left of it, woken in any
    state that satisfies the invariant and [evolves] from the one it was
    suspended in. *)
Inductive ok (A : Type) (Q : A -> sshClient -> Prop)
  : sshClient -> res A -> Prop :=
| ok_Done : forall s0 a s, Q a s -> evolves s0 s -> ok Q s0 (Done a s)
| ok_Blocked : forall s0 (X : Type)
    (g : sshClient -> option (X * sshClient)) s
    (k : X -> sshClient -> res A),
    session_inv s ->
    evolves s0 s ->
    (forall s1 x s2, session_inv s1 -> evolves s s1 ->
                     g s1 = Some (x, s2) -> ok Q s1 (k x s2)) ->
    ok Q s0 (Blocked g s k).

(** The remote handle is cached, or there is none to fetch any more. *)
Definition handle_settled (s : sshClient) : Prop :=
  isValid (remoteConn s) = true \/
  is_exited (remoteTask s) = true /\ Chan.buf (remoteConnReceive s) = [].

(** No response is accepted any more, and the two channels are closed. *)
Definition sealed (s : sshClient) : Prop :=
  credentialProcessed s = true /\
  fingerprintProcessed s = true /\
  credentialReceiveClosed s = true /\
  fingerprintVerifyResultReceiveClosed s = true.

(** The session [Close] leaves when it returns. *)
Definition closed (s : sshClient) : Prop :=
  sealed s /\
  baseCtxCancelDone s = true /\
  remoteCloseWait s = 0 /\
  is_exited (remoteTask s) = true /\
  handle_settled s.

(** What a call of the control goroutine guarantees when it returns. *)
Definition returned (c : call) (e : option error) (s : sshClient) : Prop :=
  session_inv s /\
  match c with
  | CallClose => e = None /\ closed s
  | _ => True
  end.

(** A suspended run, and the session of the moment. *)
Definition suspended_ok (A : Type) (Q : A -> sshClient -> Prop)
  (r : res A) (now : sshClient) : Prop :=
  is_blocked r = true /\ evolves (state_of r) now /\ exists s0, ok Q s0 r.

Definition system_inv (sys : system) : Prop :=
  crashed sys = false /\
  session_inv (client sys) /\
  match control sys with
  | Some (c, r) => suspended_ok (returned c) r (client sys)
  | None => True
  end /\
  match remote sys with
  | Some r => suspended_ok (fun _ s => session_inv s) r (client sys)
  | None => True
  end.

(** The goroutines the wait group counts have returned. *)
Definition tasks_exited (s : sshClient) : Prop :=
  running (remoteTask s) = 0 /\ running (stderrTask s) = 0.

(** A read of the dialled connection that timed out. *)
Definition timed_out (len : nat) (at_ : Z) : conn_read :=
  mkRead len (Some (net_Error true)) at_.



(** The outcomes of the fingerprint confirmation as the spec lists them:
    accepted, success; rejected, "fingerprint refused"; channel closed,
    "fingerprint verification cancelled". *)
Definition fingerprint_verdict (received : option bool) : option error :=
  match received with
  | Some true => None
  | Some false => Some ErrSSHRemoteFingerprintRefused
  | None => Some ErrSSHRemoteFingerprintVerificationCancelled
  end.

(** What the password callback returns for what it received. *)
Definition password_result (received : option (list byte))
  : list byte * option error :=
  match received with
  | Some passphraseBytes => (passphraseBytes, None)
  | None => ([], Some ErrSSHAuthCancelled)
  end.

(** The session when a callback returns: retry disabled, latch set. *)
Definition disabled (s : sshClient) : sshClient :=
  set_remoteReadForceRetryNextTimeout true
    (set_remoteReadTimeoutRetry false s).

(** The guard of a receive on [fingerprintVerifyResultReceive] and on
    [credentialReceive]. *)
Definition fingerprint_ready (s : sshClient)
  : option (option bool * sshClient) :=
  match Chan.pop (fingerprintVerifyResultReceive s) with
  | Some (v, c) => Some (Some v, set_fingerprintVerifyResultReceive c s)
  | None =>
      if Chan.closed (fingerprintVerifyResultReceive s) then Some (None, s)
      else None
  end.

Definition credential_ready (s : sshClient)
  : option (option (list byte) * sshClient) :=
  match Chan.pop (credentialReceive s) with
  | Some (v, c) => Some (Some v, set_credentialReceive c s)
  | None =>
      if Chan.closed (credentialReceive s) then Some (None, s) else None
  end.

(** What the spec says of a stdin frame: each chunk is written to the
    remote stdin in order, and a write that fails is followed by
    [closer()] and a log entry, not by a return.  [results] are the
    results of the writes to come. *)
Fixpoint stdin_events (w c : nat) (chunks : list (list byte))
  (results : list (option error)) : list event :=
  match chunks with
  | [] => []
  | chunk :: rest =>
      EvWrite w chunk ::
      match fst (next_result results) with
      | Some _ =>
          [EvCloser c; EvDebug "Failed to write data to remote: %s"]
      | None => []
      end ++ stdin_events w c rest (snd (next_result results))
  end.

(** ** The rest of the file *)

(** [netErr.Timeout()] of an error that is a [net.Error]. *)
Definition is_timeout (e : option error) : bool :=
  match e with
  | Some (net_Error true) => true
  | _ => false
  end.

(** The writer [remote] hands to [command.NewDefaultHookOutput]:
    [wLen = len(b)], the copy into the scratch buffer after the header,
    and [SendManual].  It returns [wLen] and [wErr]. *)
Definition hookOutput (b buf : list byte) : M (nat * option error) :=
  h <- gets HeaderSize ;;
  _ <- slice_from buf h ;;
  wErr <- SendManual SSHServerHookOutputBeforeConnecting (framed buf h b) ;;
  ret (List.length b, wErr).

Definition sshDefaultPortString : string := "22".

(** [configuration.Preset]: the host, and the fields [parseSSHConfig] does
    not look at. *)
Record Preset (Rest : Type) : Type := mkPreset {
  Host : string;
  rest_of_preset : Rest
}.

Section ParseSSHConfig.

(** [net.SplitHostPort] and [net.JoinHostPort] of the Go library. *)
Variable SplitHostPort : string -> string * string * option error.
Variable JoinHostPort : string -> string -> string.
Variable Rest : Type.

Definition parseSSHConfig (p : Preset Rest) : Preset Rest * option error :=
  let oldHost := Host p in
  let '(_, _, sErr) := SplitHostPort (Host p) in
  let p :=
    match sErr with
    | Some _ =>
        mkPreset (JoinHostPort (Host p) sshDefaultPortString)
          (rest_of_preset p)
    | None => p
    end in
  let p :=
    if String.length (Host p) <=? 0
    then mkPreset oldHost (rest_of_preset p)
    else p in
  (p, None).

End ParseSSHConfig.

(** What the public-keys callback returns for what it received. *)
Definition public_keys_result
  (ParsePrivateKey : list byte -> nat * option error)
  (received : option (list byte)) : list nat * option error :=
  match received with
  | None => ([], Some ErrSSHAuthCancelled)
  | Some privateKeyBytes =>
      match ParsePrivateKey privateKeyBytes with
      | (_, Some e) => ([], Some e)
      | (signer, None) => ([signer], None)
      end
  end.

(** The events a [Close] or a returning remote task may add. *)
Definition is_signal_close (ev : event) : bool :=
  match ev with EvSignalHeaderClose => true | _ => false end.

(** The session a callback leaves when it has enabled retry and handed its
    frame to [SendManual]. *)
Definition requested (marker : byte) (b : list byte) (s : sshClient)
  : sshClient :=
  state_of (SendManual marker b (set_remoteReadTimeoutRetry true s)).

(** Retry is off and the latch is set: what [disableRemoteReadTimeoutRetry]
    leaves. *)
Definition retry_off (s : sshClient) : Prop :=
  remoteReadTimeoutRetry s = false /\
  remoteReadForceRetryNextTimeout s = true.

(** A callback has retry on while it waits, and off when it returns,
    at once or when it is woken in any session. *)
Definition bracketed (A : Type) (run : res A) : Prop :=
  match run with
  | Done _ s' => retry_off s'
  | Blocked _ asked _ =>
      remoteReadTimeoutRetry asked = true /\
      forall s1,
        match resume run s1 with
        | Done _ s' => retry_off s'
        | Blocked _ asked' _ => asked' = s1
        | Panicked _ => False
        end
  | Panicked _ => False
  end.
(** * Properties *)

Unset Implicit Arguments.

(** ** The read-timeout retry discipline *)

Lemma requestTimeoutRetry_enabled timeout now d :
  remoteReadTimeoutRetry d = true ->
  requestTimeoutRetry timeout now d =
    Done true (record (EvSetReadDeadline (Some (now + timeout)%Z))
                 (set_readDeadline (Some (now + timeout)%Z) d)).
Proof.
  intros H. unfold requestTimeoutRetry, bind, gets. cbn. rewrite H. reflexivity.
Qed.

Lemma requestTimeoutRetry_forced timeout now d :
  remoteReadTimeoutRetry d = false ->
  remoteReadForceRetryNextTimeout d = true ->
  requestTimeoutRetry timeout now d =
    Done true
      (record (EvSetReadDeadline (Some (now + timeout)%Z))
         (set_readDeadline (Some (now + timeout)%Z)
            (set_remoteReadForceRetryNextTimeout false d))).
Proof.
  intros H1 H2. unfold requestTimeoutRetry, bind, gets. cbn.
  rewrite H1, H2. reflexivity.
Qed.

Lemma requestTimeoutRetry_refused timeout now d :
  remoteReadTimeoutRetry d = false ->
  remoteReadForceRetryNextTimeout d = false ->
  requestTimeoutRetry timeout now d = Done false d.
Proof.
  intros H1 H2. unfold requestTimeoutRetry, bind, gets. cbn.
  rewrite H1, H2. reflexivity.
Qed.

(** C2.  The hook retries when retry is enabled, leaving the latch as it
    is; otherwise it retries once when the latch [retryForceNext] is set,
    and clears it; on each retry it sets the read deadline to
    [now + timeout].  Otherwise it returns false and leaves the session,
    deadline included, as it was.  Enabling sets [retryEnabled] and nothing
    else; disabling clears it and sets the latch. *)
Theorem requestTimeoutRetry_spec (timeout now : Z) (d : sshClient) :
  requestTimeoutRetry timeout now d =
    (if remoteReadTimeoutRetry d then
       Done true (record (EvSetReadDeadline (Some (now + timeout)%Z))
                    (set_readDeadline (Some (now + timeout)%Z) d))
     else if remoteReadForceRetryNextTimeout d then
       Done true
         (record (EvSetReadDeadline (Some (now + timeout)%Z))
            (set_readDeadline (Some (now + timeout)%Z)
               (set_remoteReadForceRetryNextTimeout false d)))
     else Done false d) /\
  (forall d', requestTimeoutRetry timeout now d = Done true d' ->
     readDeadline d' = Some (now + timeout)%Z /\
     remoteReadTimeoutRetry d' = remoteReadTimeoutRetry d /\
     remoteReadForceRetryNextTimeout d' =
       (remoteReadTimeoutRetry d && remoteReadForceRetryNextTimeout d)) /\
  enableRemoteReadTimeoutRetry d =
    Done tt (set_remoteReadTimeoutRetry true d) /\
  remoteReadForceRetryNextTimeout (set_remoteReadTimeoutRetry true d) =
    remoteReadForceRetryNextTimeout d /\
  (exists d', disableRemoteReadTimeoutRetry d = Done tt d' /\
     d' = set_remoteReadForceRetryNextTimeout true
            (set_remoteReadTimeoutRetry false d) /\
     remoteReadTimeoutRetry d' = false /\
     remoteReadForceRetryNextTimeout d' = true).
Proof.
  split; [| split; [| split; [| split]]].
  - destruct (remoteReadTimeoutRetry d) eqn:Hr.
    + now apply requestTimeoutRetry_enabled.
    + destruct (remoteReadForceRetryNextTimeout d) eqn:Hf.
      * now apply requestTimeoutRetry_forced.
      * now apply requestTimeoutRetry_refused.
  - intros d' H.
    destruct (remoteReadTimeoutRetry d) eqn:Hr.
    + rewrite requestTimeoutRetry_enabled in H by assumption.
      injection H as <-. cbn. now rewrite Hr.
    + destruct (remoteReadForceRetryNextTimeout d) eqn:Hf.
      * rewrite requestTimeoutRetry_forced in H by assumption.
        injection H as <-. cbn. now rewrite Hr.
      * rewrite requestTimeoutRetry_refused in H by assumption.
        discriminate.
  - reflexivity.
  - reflexivity.
  - eexists. split; [reflexivity |]. repeat split.
Qed.

Lemma requestTimeoutRetries_refused timeout times d :
  remoteReadTimeoutRetry d = false ->
  remoteReadForceRetryNextTimeout d = false ->
  requestTimeoutRetries timeout times d = Done (map (fun _ => false) times) d.
Proof.
  intros H1 H2. induction times as [| t rest IH]; [reflexivity |].
  cbn [requestTimeoutRetries map]. unfold bind.
  rewrite requestTimeoutRetry_refused by assumption. cbn [bind_res].
  fold (bind (requestTimeoutRetries timeout rest)
          (fun bs => ret (false :: bs)) d).
  unfold bind. rewrite IH. reflexivity.
Qed.


Lemma clearConnInitialDeadline_run d :
  clearConnInitialDeadline d =
    Done tt (record (EvSetReadDeadline None)
               (set_readDeadline None
                  (set_remoteReadForceRetryNextTimeout true
                     (set_remoteReadTimeoutRetry false d)))).
Proof. reflexivity. Qed.

(** C1, as stated, fails: the first read timeout after
    [clearConnInitialDeadline] is retried.  The hook answers true, and a
    read that times out once and then delivers five bytes returns the five
    bytes to the caller of [Read], not the timeout. *)
Lemma clearConnInitialDeadline_retries_once_more :
  let d := state_of (clearConnInitialDeadline (newSSH 2 (mkEnv [] [] []))) in
  result_of (requestTimeoutRetry 30 100 d) = Some true /\
  result_of (requestTimeoutRetry 30 100 d) <> Some false /\
  result_of (sshRemoteConnWrapper_Read 30 [timed_out 0 100; mkRead 5 None 101]
               d) =
    Some (Some (5, None), []).
Proof.
  cbn. repeat split. discriminate.
Qed.

(** C1, amended.  After [clearConnInitialDeadline], whatever the session
    was, and as long as retry is neither enabled nor disabled again, one
    read timeout is retried and no more.  The closure leaves the read
    deadline empty.  The first call of the hook that follows returns true,
    clears the latch and sets the read deadline anew, to the time of the
    call plus the timeout; every later call returns false and leaves the
    session, that deadline included, as it is.  So a [Read] whose
    underlying reads time out twice retries once, with the new deadline
    set, and hands the second timeout to its caller. *)
Theorem clearConnInitialDeadline_one_retry
  (d : sshClient) (timeout : Z) (times : list Z)
  (len1 len2 : nat) (at1 at2 : Z) (reads : list conn_read) :
  let d1 := state_of (clearConnInitialDeadline d) in
  let granted (t : Z) :=
    record (EvSetReadDeadline (Some (t + timeout)%Z))
      (set_readDeadline (Some (t + timeout)%Z)
         (set_remoteReadForceRetryNextTimeout false d1)) in
  (readDeadline d1 = None /\
   remoteReadTimeoutRetry d1 = false /\
   remoteReadForceRetryNextTimeout d1 = true) /\
  (forall t,
     requestTimeoutRetry timeout t d1 = Done true (granted t) /\
     readDeadline (granted t) = Some (t + timeout)%Z /\
     remoteReadForceRetryNextTimeout (granted t) = false /\
     trace (granted t) =
       trace d1 ++ [EvSetReadDeadline (Some (t + timeout)%Z)]) /\
  (forall t t',
     requestTimeoutRetry timeout t' (granted t) = Done false (granted t)) /\
  requestTimeoutRetries timeout times d1 =
    Done (match times with
          | [] => []
          | _ :: later => true :: map (fun _ => false) later
          end)
      (match times with
       | [] => d1
       | t :: _ => granted t
       end) /\
  result_of (requestTimeoutRetries timeout times d1) =
    Some (match times with
          | [] => []
          | _ :: later => true :: map (fun _ => false) later
          end) /\
  sshRemoteConnWrapper_Read timeout
    (timed_out len1 at1 :: timed_out len2 at2 :: reads) d1 =
    Done (Some (len2, Some (net_Error true)), reads) (granted at1) /\
  result_of (sshRemoteConnWrapper_Read timeout
               (timed_out len1 at1 :: timed_out len2 at2 :: reads) d1) =
    Some (Some (len2, Some (net_Error true)), reads).
Proof.
  rewrite clearConnInitialDeadline_run. cbn [state_of]. cbv zeta.
  set (d1 := record (EvSetReadDeadline None)
               (set_readDeadline None
                  (set_remoteReadForceRetryNextTimeout true
                     (set_remoteReadTimeoutRetry false d)))).
  set (granted := fun t : Z =>
    record (EvSetReadDeadline (Some (t + timeout)%Z))
      (set_readDeadline (Some (t + timeout)%Z)
         (set_remoteReadForceRetryNextTimeout false d1))).
  assert (Hfirst : forall t,
    requestTimeoutRetry timeout t d1 = Done true (granted t))
    by (intros t; now apply requestTimeoutRetry_forced).
  assert (Hlater : forall t t',
    requestTimeoutRetry timeout t' (granted t) = Done false (granted t))
    by (intros t t'; now apply requestTimeoutRetry_refused).
  assert (Hall : requestTimeoutRetries timeout times d1 =
    Done (match times with
          | [] => []
          | _ :: later => true :: map (fun _ => false) later
          end)
      (match times with
       | [] => d1
       | t :: _ => granted t
       end)).
  { destruct times as [| t later]; [reflexivity |].
    cbn [requestTimeoutRetries]. unfold bind at 1.
    rewrite Hfirst. cbn [bind_res].
    unfold bind. rewrite requestTimeoutRetries_refused by reflexivity.
    reflexivity. }
  assert (Hread : sshRemoteConnWrapper_Read timeout
    (timed_out len1 at1 :: timed_out len2 at2 :: reads) d1 =
    Done (Some (len2, Some (net_Error true)), reads) (granted at1)).
  { cbn [sshRemoteConnWrapper_Read timed_out rErr rLen now].
    unfold bind at 1. rewrite Hfirst. cbn [bind_res].
    unfold bind. rewrite Hlater. reflexivity. }
  split; [repeat split |].
  split; [intros t; split; [apply Hfirst | repeat split] |].
  split; [exact Hlater |].
  split; [exact Hall |]. split; [now rewrite Hall |].
  split; [exact Hread | now rewrite Hread].
Qed.

(** ** Frames read whole *)

Lemma frame_cons c cs later :
  frame (c :: cs) later =
    mkReader (List.length c + List.length (List.concat cs))
      (Data c :: map Data cs ++ later).
Proof.
  unfold frame. cbn [List.concat map app]. now rewrite length_app.
Qed.

Lemma Completed_frame chunks later :
  Completed (frame chunks later) = (List.length (List.concat chunks) =? 0).
Proof.
  unfold Completed, frame. cbn [n].
  destruct (List.length (List.concat chunks)); reflexivity.
Qed.

Lemma Fetch_whole_chunk k c cs later :
  0 < List.length (List.concat (c :: cs)) ->
  List.length (List.concat (c :: cs)) <= k ->
  Fetch k (frame (c :: cs) later) = (c, None, frame cs later).
Proof.
  intros Hpos Hk. unfold Fetch. rewrite Completed_frame.
  destruct (Nat.eqb_spec (List.length (List.concat (c :: cs))) 0) as [E | _];
    [lia |].
  rewrite frame_cons. cbn [Remains n source].
  cbn [List.concat] in Hk. rewrite length_app in Hk.
  set (m := List.length c + List.length (List.concat cs)) in *.
  assert (Hm : List.length c <= (if m <? k then m else k)).
  { destruct (Nat.ltb_spec m k); lia. }
  rewrite firstn_all2 by exact Hm.
  rewrite skipn_all2 by exact Hm.
  unfold frame. f_equal. f_equal. subst m. lia.
Qed.

Lemma Buffered_frame c cs later :
  0 < List.length (List.concat (c :: cs)) ->
  Buffered (frame (c :: cs) later) = (c, None, frame cs later).
Proof.
  intros H. unfold Buffered. apply Fetch_whole_chunk; [exact H |].
  unfold Remains, frame. cbn [n]. lia.
Qed.

Lemma credential_loop_within chunks : forall later turns size buf total,
  List.length chunks < turns ->
  total + List.length (List.concat chunks) <= size ->
  exists r',
    credential_loop turns size buf total (frame chunks later) =
      (None, buf ++ List.concat chunks, r') /\
    Completed r' = true.
Proof.
  induction chunks as [| c cs IH]; intros later turns size buf total Ht Hs.
  - exists (frame [] later). destruct turns; cbn; now rewrite app_nil_r.
  - destruct turns as [| turns]; [cbn in Ht; lia |].
    cbn [credential_loop]. rewrite Completed_frame.
    destruct (Nat.eqb_spec (List.length (List.concat (c :: cs))) 0) as [E | E].
    + exists (frame (c :: cs) later). rewrite Completed_frame, E.
      apply length_zero_iff_nil in E. rewrite E, app_nil_r. now split.
    + rewrite Buffered_frame by lia.
      cbn [List.concat] in Hs. rewrite length_app in Hs.
      destruct (Nat.ltb_spec size (total + List.length c)); [lia |].
      destruct (IH later turns size (buf ++ c) (total + List.length c))
        as (r' & Hr & Hc); [cbn in Ht; lia | lia |].
      exists r'. rewrite Hr. cbn [List.concat]. now rewrite app_assoc.
Qed.

Lemma credential_loop_beyond chunks : forall later turns size buf total,
  List.length chunks < turns ->
  total <= size ->
  size < total + List.length (List.concat chunks) ->
  exists buf' r',
    credential_loop turns size buf total (frame chunks later) =
      (Some ErrSSHCredentialDataTooLarge, buf', r').
Proof.
  induction chunks as [| c cs IH]; intros later turns size buf total Ht Hs Hl.
  - cbn in Hl. lia.
  - destruct turns as [| turns]; [cbn in Ht; lia |].
    cbn [credential_loop]. rewrite Completed_frame.
    destruct (Nat.eqb_spec (List.length (List.concat (c :: cs))) 0) as [E | E];
      [lia |].
    rewrite Buffered_frame by lia.
    cbn [List.concat] in Hl. rewrite length_app in Hl.
    destruct (Nat.ltb_spec size (total + List.length c)).
    + now eexists _, _.
    + apply IH; [cbn in Ht; lia | lia | lia].
Qed.

Lemma fuel_frame chunks later :
  List.length chunks < fuel (frame chunks later).
Proof.
  unfold fuel, frame. cbn [source]. rewrite length_app, length_map. lia.
Qed.

(** ** Credential responses *)

Lemma local_RespondCredential_run s r :
  credentialProcessed s = false ->
  local SSHClientRespondCredential r s =
    (let '(rErr, buf, r') :=
       credential_loop (fuel r)
         (if sshCredentialMaxSize <? Remains r then sshCredentialMaxSize
          else Remains r) [] 0 r in
     match rErr with
     | Some e => Done (Some e, r') (set_credentialProcessed true s)
     | None =>
         (send_credential buf ;; ret (None, r'))
           (set_credentialProcessed true s)
     end).
Proof.
  intros H. unfold local.
  change (Byte.eqb SSHClientRespondCredential SSHClientStdIn) with false.
  change (Byte.eqb SSHClientRespondCredential SSHClientResize) with false.
  change (Byte.eqb SSHClientRespondCredential SSHClientRespondFingerprint)
    with false.
  change (Byte.eqb SSHClientRespondCredential SSHClientRespondCredential)
    with true.
  cbv iota. unfold bind at 1, gets at 1. cbn [bind_res]. rewrite H.
  unfold bind at 1, modify at 1. cbn [bind_res].
  destruct (credential_loop _ _ _ _ _) as [[rErr buf] r'].
  destruct rErr; reflexivity.
Qed.

Lemma local_RespondCredential_again s r :
  credentialProcessed s = true ->
  local SSHClientRespondCredential r s =
    Done (Some ErrSSHUnexpectedCredentialDataRespond, r) s.
Proof.
  intros H. unfold local.
  change (Byte.eqb SSHClientRespondCredential SSHClientStdIn) with false.
  change (Byte.eqb SSHClientRespondCredential SSHClientResize) with false.
  change (Byte.eqb SSHClientRespondCredential SSHClientRespondFingerprint)
    with false.
  change (Byte.eqb SSHClientRespondCredential SSHClientRespondCredential)
    with true.
  cbv iota. unfold bind at 1, gets at 1. cbn [bind_res]. now rewrite H.
Qed.

Lemma send_credential_run data s :
  credentialReceive s = Chan.make (list byte) ->
  send_credential data s =
    Done tt (record (EvSendCredential data)
               (set_credentialReceive (Chan.mk [data] false) s)).
Proof.
  intros H. unfold send_credential, chan_send, bind, await.
  rewrite H. reflexivity.
Qed.

Lemma newSSH_inv headerSize e : session_inv (newSSH headerSize e).
Proof.
  constructor; cbn; auto; try (intros; discriminate).
Qed.

(** C4.  A credential response handled while no credential was processed
    before, whose payload arrives whole.  When the payload has more than
    [sshCredentialMaxSize] = 4096 bytes, [local] returns "credential was
    too large" and sends nothing on [credentialReceive].  When it has at
    most 4096 bytes, [local] sends the whole payload, assembled from its
    chunks, on [credentialReceive] and returns no error. *)
Theorem local_RespondCredential_size
  (s : sshClient) (chunks : list (list byte)) (later : list delivery) :
  session_inv s ->
  credentialProcessed s = false ->
  let payload := List.concat chunks in
  let r := frame chunks later in
  sshCredentialMaxSize = 4096 /\
  Error ErrSSHCredentialDataTooLarge = "credential was too large"%string /\
  (sshCredentialMaxSize < List.length payload ->
   exists r' s',
     local SSHClientRespondCredential r s =
       Done (Some ErrSSHCredentialDataTooLarge, r') s' /\
     credentialReceive s' = credentialReceive s /\
     trace s' = trace s) /\
  (List.length payload <= sshCredentialMaxSize ->
   exists r' s',
     local SSHClientRespondCredential r s = Done (None, r') s' /\
     credentialReceive s' = Chan.mk [payload] false /\
     trace s' = trace s ++ [EvSendCredential payload] /\
     Completed r' = true).
Proof.
  intros Hinv Hp payload r. split; [reflexivity |]. split; [reflexivity |].
  assert (Hrem : Remains r = List.length payload) by reflexivity.
  split; intros Hlen.
  - rewrite local_RespondCredential_run by exact Hp. rewrite Hrem.
    destruct (Nat.ltb_spec sshCredentialMaxSize (List.length payload));
      [| lia].
    destruct (credential_loop_beyond chunks later (fuel r)
                sshCredentialMaxSize [] 0) as (buf' & r' & Hrun).
    + apply fuel_frame.
    + lia.
    + exact Hlen.
    + subst r. rewrite Hrun. exists r', (set_credentialProcessed true s).
      repeat split.
  - rewrite local_RespondCredential_run by exact Hp. rewrite Hrem.
    destruct (Nat.ltb_spec sshCredentialMaxSize (List.length payload));
      [lia |].
    destruct (credential_loop_within chunks later (fuel r)
                (List.length payload) [] 0) as (r' & Hrun & Hc).
    + apply fuel_frame.
    + reflexivity.
    + subst r. rewrite Hrun. cbn [app].
      unfold bind. rewrite send_credential_run.
      * cbn [bind_res ret]. eexists r', _. split; [reflexivity |].
        repeat split. exact Hc.
      * apply (inv_credential_unused Hinv). exact Hp.
Qed.

(** Scenario 4: a first credential response of 4097 bytes. *)
Lemma local_RespondCredential_size_4097 :
  exists r' s',
    local SSHClientRespondCredential (frame [repeat x61 4097] [])
      (newSSH 2 (mkEnv [] [] [])) =
      Done (Some ErrSSHCredentialDataTooLarge, r') s' /\
    credentialReceive s' = Chan.make (list byte) /\
    trace s' = [].
Proof.
  destruct (local_RespondCredential_size (newSSH 2 (mkEnv [] [] []))
              [repeat x61 4097] [] (newSSH_inv 2 (mkEnv [] [] [])) eq_refl)
    as (_ & _ & Hbig & _).
  apply Hbig. cbn [List.concat]. rewrite app_nil_r, repeat_length.
  unfold sshCredentialMaxSize. apply Nat.lt_succ_diag_r.
Defined.

(** ** Window resizes *)





Lemma Fetch_frame k c cs later :
  0 < k ->
  0 < List.length (List.concat (c :: cs)) ->
  Fetch k (frame (c :: cs) later) =
    (firstn k c, None,
     match skipn k c with
     | [] => frame cs later
     | x :: bs => frame ((x :: bs) :: cs) later
     end).
Proof.
  intros Hk Hpos. unfold Fetch. rewrite Completed_frame.
  destruct (Nat.eqb_spec (List.length (List.concat (c :: cs))) 0) as [E | _];
    [lia |].
  rewrite frame_cons. cbn [Remains n source].
  set (m := List.length c + List.length (List.concat cs)).
  destruct (Nat.ltb_spec m k) as [Hmk | Hmk].
  - rewrite !firstn_all2, !skipn_all2 by (subst m; lia).
    unfold frame. f_equal. f_equal. subst m. lia.
  - destruct (skipn k c) as [| x bs] eqn:E.
    + unfold frame. f_equal. f_equal.
      assert (List.length (skipn k c) = 0) by now rewrite E.
      rewrite length_skipn in H. rewrite length_firstn. subst m. lia.
    + rewrite frame_cons. f_equal. f_equal.
      * assert (List.length (skipn k c) = S (List.length bs))
          by now rewrite E.
        rewrite length_skipn in H. rewrite length_firstn.
        cbn [List.length]. subst m. lia.
Qed.


Lemma getRemote_cached s :
  isValid (remoteConn s) = true ->
  getRemote s = Done (remoteConn s, None) s.
Proof.
  intros H. unfold getRemote, bind, gets. cbn [bind_res]. now rewrite H.
Qed.

Lemma getRemote_fetched s h rest :
  isValid (remoteConn s) = false ->
  Chan.buf (remoteConnReceive s) = h :: rest ->
  getRemote s =
    Done (h, None)
      (set_remoteConn h
         (set_remoteConnReceive
            (Chan.mk rest (Chan.closed (remoteConnReceive s))) s)).
Proof.
  intros Hv Hb. unfold getRemote, bind, gets. cbn [bind_res]. rewrite Hv.
  unfold recv_remoteConn, chan_recv, await, Chan.pop. rewrite Hb. reflexivity.
Qed.

Lemma getRemote_unavailable s :
  isValid (remoteConn s) = false ->
  Chan.buf (remoteConnReceive s) = [] ->
  Chan.closed (remoteConnReceive s) = true ->
  getRemote s = Done (zeroRemoteConn, Some ErrSSHRemoteConnUnavailable) s.
Proof.
  intros Hv Hb Hc. unfold getRemote, bind, gets. cbn [bind_res]. rewrite Hv.
  unfold recv_remoteConn, chan_recv, await, Chan.pop. rewrite Hb, Hc.
  reflexivity.
Qed.




(** ** Fingerprint verification *)

Lemma FetchOneByte_loop_frame chunks : forall later turns b more,
  List.length chunks < turns ->
  List.concat chunks = b :: more ->
  exists l',
    FetchOneByte_loop turns (frame chunks later) = ([b], None, l') /\
    Remains l' = List.length more.
Proof.
  induction chunks as [| c cs IH]; intros later turns b more Ht Hc;
    [discriminate |].
  destruct turns as [| turns]; [cbn in Ht; lia |].
  cbn [FetchOneByte_loop]. rewrite Fetch_frame;
    [| lia | rewrite Hc; cbn; lia].
  destruct c as [| x c'].
  - cbn [firstn skipn List.length Nat.leb].
    apply IH; [cbn in Ht; lia | exact Hc].
  - cbn [List.concat app] in Hc. injection Hc as -> Hmore.
    cbn [firstn skipn List.length Nat.leb].
    destruct c' as [| y c''].
    + exists (frame cs later). split; [reflexivity |].
      unfold Remains, frame. cbn [n]. cbn [app] in Hmore. now rewrite Hmore.
    + exists (frame ((y :: c'') :: cs) later). split; [reflexivity |].
      unfold Remains, frame. cbn [n List.concat]. now rewrite Hmore.
Qed.

Lemma FetchOneByte_frame chunks later b more :
  List.concat chunks = b :: more ->
  exists l',
    FetchOneByte (frame chunks later) = ([b], None, l') /\
    Remains l' = List.length more.
Proof.
  intros H. apply FetchOneByte_loop_frame; [apply fuel_frame | exact H].
Qed.

Lemma local_RespondFingerprint_again s r :
  fingerprintProcessed s = true ->
  local SSHClientRespondFingerprint r s =
    Done (Some ErrSSHUnexpectedFingerprintVerificationRespond, r) s.
Proof.
  intros H. unfold local.
  change (Byte.eqb SSHClientRespondFingerprint SSHClientStdIn) with false.
  change (Byte.eqb SSHClientRespondFingerprint SSHClientResize) with false.
  change (Byte.eqb SSHClientRespondFingerprint SSHClientRespondFingerprint)
    with true.
  cbv iota. unfold bind at 1, gets at 1. cbn [bind_res]. now rewrite H.
Qed.

Lemma local_RespondFingerprint_run s r :
  fingerprintProcessed s = false ->
  local SSHClientRespondFingerprint r s =
    (let '(rData, rErr, r') := FetchOneByte r in
     match rErr with
     | Some e => Done (Some e, r') (set_fingerprintProcessed true s)
     | None =>
         if Byte.eqb (nth 0 rData x00) x00
         then (send_fingerprint true ;; ret (None, r'))
                (set_fingerprintProcessed true s)
         else (send_fingerprint false ;; after_refusal r')
                (set_fingerprintProcessed true s)
     end).
Proof.
  intros H. unfold local.
  change (Byte.eqb SSHClientRespondFingerprint SSHClientStdIn) with false.
  change (Byte.eqb SSHClientRespondFingerprint SSHClientResize) with false.
  change (Byte.eqb SSHClientRespondFingerprint SSHClientRespondFingerprint)
    with true.
  cbv iota. unfold bind at 1, gets at 1. cbn [bind_res]. rewrite H.
  unfold bind at 1, modify at 1. cbn [bind_res].
  destruct (FetchOneByte r) as [[rData rErr] r'].
  destruct rErr; [reflexivity |].
  destruct (Byte.eqb (nth 0 rData x00) x00); reflexivity.
Qed.

Lemma send_fingerprint_run confirmed s :
  fingerprintVerifyResultReceive s = Chan.make bool ->
  send_fingerprint confirmed s =
    Done tt (record (EvSendFingerprint confirmed)
               (set_fingerprintVerifyResultReceive
                  (Chan.mk [confirmed] false) s)).
Proof.
  intros H. unfold send_fingerprint, chan_send, bind, await.
  rewrite H. reflexivity.
Qed.

Lemma filter_record p ev s :
  filter p (trace (record ev s)) =
    filter p (trace s) ++ (if p ev then [ev] else []).
Proof.
  cbn [trace record]. rewrite filter_app. cbn [filter].
  destruct (p ev); reflexivity.
Qed.

Lemma getRemote_blocked s :
  isValid (remoteConn s) = false ->
  Chan.buf (remoteConnReceive s) = [] ->
  Chan.closed (remoteConnReceive s) = false ->
  exists k, getRemote s = Blocked (X := option sshRemoteConn)
    (fun s =>
       match Chan.pop (remoteConnReceive s) with
       | Some (v, c) => Some (Some v, set_remoteConnReceive c s)
       | None =>
           if Chan.closed (remoteConnReceive s) then Some (None, s) else None
       end) s k.
Proof.
  intros Hv Hb Hc. unfold getRemote, bind, gets. cbn [bind_res]. rewrite Hv.
  unfold recv_remoteConn, chan_recv, await, Chan.pop. rewrite Hb, Hc.
  cbn [bind_res]. eexists. reflexivity.
Qed.

(** The four ways [getRemote] can go. *)
Lemma getRemote_cases s :
  (isValid (remoteConn s) = true /\
   getRemote s = Done (remoteConn s, None) s) \/
  (exists h rest,
     isValid (remoteConn s) = false /\
     Chan.buf (remoteConnReceive s) = h :: rest /\
     getRemote s =
       Done (h, None)
         (set_remoteConn h
            (set_remoteConnReceive
               (Chan.mk rest (Chan.closed (remoteConnReceive s))) s))) \/
  (isValid (remoteConn s) = false /\
   Chan.buf (remoteConnReceive s) = [] /\
   Chan.closed (remoteConnReceive s) = true /\
   getRemote s = Done (zeroRemoteConn, Some ErrSSHRemoteConnUnavailable) s) \/
  (exists (g : sshClient -> option (option sshRemoteConn * sshClient)) k,
     getRemote s = Blocked g s k).
Proof.
  destruct (isValid (remoteConn s)) eqn:Hv.
  - left. split; [reflexivity |]. now apply getRemote_cached.
  - destruct (Chan.buf (remoteConnReceive s)) as [| h rest] eqn:Hb.
    + destruct (Chan.closed (remoteConnReceive s)) eqn:Hc.
      * right. right. left. repeat (split; [reflexivity |]).
        now apply getRemote_unavailable.
      * right. right. right.
        destruct (getRemote_blocked s Hv Hb Hc) as [k Hk]. eauto.
    + right. left. exists h, rest. repeat (split; [reflexivity |]).
      now apply getRemote_fetched.
Qed.

(** After a refusal has been sent, [local] touches neither the fingerprint
    channel nor the credential channel again, and sends nothing more. *)
Lemma after_refusal_keeps r' s :
  let s' := state_of (after_refusal r' s) in
  fingerprintVerifyResultReceive s' = fingerprintVerifyResultReceive s /\
  filter is_send_fingerprint (trace s') =
    filter is_send_fingerprint (trace s).
Proof.
  cbv zeta. unfold after_refusal, bind.
  destruct (getRemote_cases s)
    as [[_ H] | [(h & rest & _ & _ & H) | [(_ & _ & _ & H) | (g & k & H)]]];
    rewrite H; cbn [bind_res]; unfold call_closer.
  - destruct (closer (remoteConn s)); cbn; [| now split].
    split; [reflexivity |]. rewrite filter_app. cbn. now rewrite app_nil_r.
  - destruct (closer h); cbn; [| now split].
    split; [reflexivity |]. rewrite filter_app. cbn. now rewrite app_nil_r.
  - cbn. now split.
  - cbn. now split.
Qed.

(** ** The invariant and the runs that keep it *)

Lemma count_app p t1 t2 : count p (t1 ++ t2) = count p t1 + count p t2.
Proof. unfold count. now rewrite filter_app, length_app. Qed.

Lemma count_record p ev s :
  count p (trace (record ev s)) = count p (trace s) + Nat.b2n (p ev).
Proof.
  cbn [trace record]. rewrite count_app. unfold count at 2. cbn [filter].
  destruct (p ev); reflexivity.
Qed.

Lemma session_inv_view s s' : view s = view s' -> session_inv s -> session_inv s'.
Proof.
  unfold view. intros E [].
  injection E as E1 E2 E3 E4 E5 E6 E7 E8 E9 E10 E11 E12 E13 E14 E15 E16 E17 E18
    E19.
  constructor;
    rewrite <- ?E1, <- ?E2, <- ?E3, <- ?E4, <- ?E5, <- ?E6, <- ?E7, <- ?E8,
      <- ?E9, <- ?E10, <- ?E11, <- ?E12, <- ?E13, <- ?E14, <- ?E15, <- ?E16,
      <- ?E17, <- ?E18, <- ?E19; assumption.
Qed.

Lemma view_record ev s : counted ev = false -> view (record ev s) = view s.
Proof.
  intros H. unfold view. rewrite !count_record.
  destruct ev; try discriminate; cbn; rewrite ?Nat.add_0_r; reflexivity.
Qed.

Lemma evolves_refl s : evolves s s.
Proof. unfold evolves. intuition. Qed.

Lemma view_evolves s s' : view s = view s' -> evolves s s'.
Proof.
  unfold view. intros E.
  injection E as E1 E2 E3 E4 E5 E6 E7 E8 E9 E10 E11 E12 E13 E14 E15 E16 E17 E18
    E19.
  unfold evolves.
  rewrite <- ?E1, <- ?E2, <- ?E3, <- ?E4, <- ?E5, <- ?E6, <- ?E7, <- ?E8,
    <- ?E9, <- ?E10, <- ?E11, <- ?E12, <- ?E13, <- ?E14, <- ?E15, <- ?E16,
    <- ?E17, <- ?E18, <- ?E19.
  apply evolves_refl.
Qed.

Lemma evolves_trans s1 s2 s3 : evolves s1 s2 -> evolves s2 s3 -> evolves s1 s3.
Proof.
  unfold evolves.
  intros (Hc1 & Hf1 & Hcc1 & Hfc1 & Hx1 & Hh1 & He1)
         (Hc2 & Hf2 & Hcc2 & Hfc2 & Hx2 & Hh2 & He2).
  repeat match goal with |- _ /\ _ => split end; intros H.
  - destruct (Hc1 H) as [H1 E1]. destruct (Hc2 H1) as [H2 E2].
    split; congruence.
  - destruct (Hf1 H) as [H1 E1]. destruct (Hf2 H1) as [H2 E2].
    split; congruence.
  - auto.
  - auto.
  - auto.
  - auto.
  - destruct (He1 H) as (H1 & L1 & B1). destruct (He2 H1) as (H2 & L2 & B2).
    repeat split; [exact H2 | lia | lia].
Qed.

Lemma ok_ret (A : Type) (Q : A -> sshClient -> Prop) a s :
  Q a s -> ok Q s (Done a s).
Proof. intros H. apply ok_Done; [exact H | apply evolves_refl]. Qed.

Lemma ok_rebase (A : Type) (Q : A -> sshClient -> Prop) s0 s (r : res A) :
  evolves s0 s -> ok Q s r -> ok Q s0 r.
Proof.
  intros H0 Hr. destruct Hr as [s1 a s2 Ha He | s1 X g s2 k Hs He Hk].
  - apply ok_Done; [exact Ha | now apply evolves_trans with s1].
  - apply ok_Blocked; [exact Hs | now apply evolves_trans with s1 | exact Hk].
Qed.

Lemma ok_bind (A B : Type)
  (R : A -> sshClient -> Prop) (Q : B -> sshClient -> Prop)
  s0 (r : res A) (f : A -> M B) :
  ok R s0 r ->
  (forall a s, R a s -> ok Q s (f a s)) ->
  ok Q s0 (bind_res r f).
Proof.
  intros Hr Hf. induction Hr as [s0 a s Ha He | s0 X g s k Hs He Hk IH].
  - cbn. apply ok_rebase with s; [exact He | now apply Hf].
  - cbn. apply ok_Blocked; [exact Hs | exact He |].
    intros s1 x s2 H1 E1 Hg. now apply (IH s1 x s2).
Qed.

Lemma ok_mono (A : Type) (Q Q' : A -> sshClient -> Prop) s0 (r : res A) :
  ok Q s0 r -> (forall a s, Q a s -> Q' a s) -> ok Q' s0 r.
Proof.
  intros Hr HQ. induction Hr as [s0 a s Ha He | s0 X g s k Hs He Hk IH].
  - apply ok_Done; [now apply HQ | exact He].
  - apply ok_Blocked; [exact Hs | exact He |]. intros s1 x s2 H1 E1 Hg.
    now apply (IH s1 x s2).
Qed.

(** A property of the session that every step keeps holds wherever a run
    that started with it returns. *)
Lemma ok_stable (A : Type) (Q : A -> sshClient -> Prop)
  (P : sshClient -> Prop) s0 (r : res A) :
  (forall s s', P s -> evolves s s' -> P s') ->
  P s0 -> ok Q s0 r -> ok (fun a s => Q a s /\ P s) s0 r.
Proof.
  intros HP H0 Hr. induction Hr as [s0 a s Ha He | s0 X g s k Hs He Hk IH].
  - apply ok_Done; [| exact He]. split; [exact Ha | now apply (HP s0)].
  - apply ok_Blocked; [exact Hs | exact He |]. intros s1 x s2 H1 E1 Hg.
    apply (IH s1 x s2 H1 E1 Hg). apply (HP s); [| exact E1].
    now apply (HP s0).
Qed.

Lemma ok_await (X : Type) (Q : X -> sshClient -> Prop)
  (g : sshClient -> option (X * sshClient)) s :
  session_inv s ->
  (forall s1 x s2, session_inv s1 -> g s1 = Some (x, s2) ->
                   Q x s2 /\ evolves s1 s2) ->
  ok Q s (await g s).
Proof.
  intros Hs Hg. unfold await. destruct (g s) as [[x s2] |] eqn:E.
  - destruct (Hg s x s2 Hs E). now apply ok_Done.
  - apply ok_Blocked; [exact Hs | apply evolves_refl |].
    intros s1 x s2 H1 _ E1. destruct (Hg s1 x s2 H1 E1). now apply ok_Done.
Qed.

Lemma ok_resume (A : Type) (Q : A -> sshClient -> Prop) s0 (r : res A) s :
  is_blocked r = true -> ok Q s0 r -> session_inv s ->
  evolves (state_of r) s -> ok Q s (resume r s).
Proof.
  intros Hb Hr Hs Hev. destruct Hr as [s1 a s2 Ha He | s1 X g s2 k H2 He Hk];
    [discriminate |].
  cbn in *. destruct (g s) as [[x s3] |] eqn:E.
  - now apply (Hk s).
  - apply ok_Blocked; [exact Hs | apply evolves_refl |].
    intros s4 x s5 H4 E4 Hg. apply (Hk s4 x s5 H4); [| exact Hg].
    now apply evolves_trans with s.
Qed.

Ltac fields :=
  cbn [HeaderSize baseCtxCancelDone remoteCloseWait remoteReadTimeoutRetry
       remoteReadForceRetryNextTimeout credentialReceive credentialProcessed
       credentialReceiveClosed fingerprintVerifyResultReceive
       fingerprintProcessed fingerprintVerifyResultReceiveClosed
       remoteConnReceive remoteConn readDeadline remoteTask stderrTask env
       trace set_baseCtxCancelDone set_remoteCloseWait
       set_remoteReadTimeoutRetry set_remoteReadForceRetryNextTimeout
       set_credentialReceive set_credentialProcessed
       set_credentialReceiveClosed set_fingerprintVerifyResultReceive
       set_fingerprintProcessed set_fingerprintVerifyResultReceiveClosed
       set_remoteConnReceive set_remoteConn set_readDeadline set_remoteTask
       set_stderrTask set_env record newSSH
       Chan.buf Chan.closed Chan.close Chan.push Chan.make] in *.

Lemma count_single p ev : count p [ev] = Nat.b2n (p ev).
Proof. unfold count. cbn. destruct (p ev); reflexivity. Qed.

Ltac counts :=
  rewrite ?count_app, ?count_single in *;
  cbn [is_send_credential is_send_fingerprint is_send_remoteConn is_close
       is_ctx_cancel Nat.b2n is_exited running before_serving
       before_published List.length] in *;
  rewrite ?Nat.add_0_r in *.

(** Prove the invariant of an updated session from that of the session. *)
Ltac reinv H :=
  let H' := fresh in
  pose proof H as H'; destruct H';
  constructor; fields; counts;
  try assumption; try (intros; discriminate); try lia;
  try (intuition (try congruence; try lia); fail).

(** Prove that an updated session evolves from the session. *)
Ltac evo :=
  unfold evolves; fields; counts;
  try (intuition (try congruence; try lia); fail).

(** The same, where [H] tells how far the remote goroutine is. *)
Ltac evo_at H :=
  unfold evolves; fields; rewrite ?H; counts;
  try (intuition (try discriminate; try congruence; try lia); fail).

Lemma neutral_ok (A : Type) (m : M A) s :
  neutral m -> session_inv s ->
  ok (fun _ s' => session_inv s') s (m s).
Proof.
  intros Hn Hs. destruct (Hn s) as (a & s' & -> & Hv).
  apply ok_Done; [| apply view_evolves; now symmetry].
  apply (session_inv_view s); [now symmetry | exact Hs].
Qed.

Lemma neutral_ret (A : Type) (a : A) : neutral (ret a).
Proof. intros s. now exists a, s. Qed.

Lemma neutral_bind (A B : Type) (m : M A) (f : A -> M B) :
  neutral m -> (forall a, neutral (f a)) -> neutral (bind m f).
Proof.
  intros Hm Hf s. destruct (Hm s) as (a & s1 & E1 & V1).
  destruct (Hf a s1) as (b & s2 & E2 & V2).
  exists b, s2. unfold bind. rewrite E1. cbn. split; [exact E2 | congruence].
Qed.

Lemma neutral_gets (A : Type) (f : sshClient -> A) : neutral (gets f).
Proof. intros s. now exists (f s), s. Qed.

Lemma neutral_SendManual marker b : neutral (SendManual marker b).
Proof.
  intros s. unfold SendManual.
  destruct (next_result (sendManualResults (env s))) as [r rest].
  eexists _, _. split; [reflexivity |]. now rewrite view_record.
Qed.

Lemma neutral_writer_Write w data : neutral (writer_Write w data).
Proof.
  intros s. unfold writer_Write.
  destruct (next_result (writeResults (env s))) as [r rest].
  eexists _, _. split; [reflexivity |]. now rewrite view_record.
Qed.

Lemma neutral_session_WindowChange sess rows cols :
  neutral (session_WindowChange sess rows cols).
Proof.
  intros s. unfold session_WindowChange.
  destruct (next_result (windowChangeResults (env s))) as [r rest].
  eexists _, _. split; [reflexivity |]. now rewrite view_record.
Qed.

Lemma neutral_l_Debug format : neutral (l_Debug format).
Proof.
  intros s. eexists _, _. split; [reflexivity |]. now rewrite view_record.
Qed.

Lemma neutral_enable : neutral enableRemoteReadTimeoutRetry.
Proof. intros s. eexists _, _. split; reflexivity. Qed.

Lemma neutral_disable : neutral disableRemoteReadTimeoutRetry.
Proof. intros s. eexists _, _. split; reflexivity. Qed.

Lemma neutral_requestTimeoutRetry timeout now :
  neutral (requestTimeoutRetry timeout now).
Proof.
  intros s. destruct (remoteReadTimeoutRetry s) eqn:Hr.
  - rewrite requestTimeoutRetry_enabled by exact Hr.
    eexists _, _. split; [reflexivity |]. now rewrite view_record.
  - destruct (remoteReadForceRetryNextTimeout s) eqn:Hf.
    + rewrite requestTimeoutRetry_forced by assumption.
      eexists _, _. split; [reflexivity |]. now rewrite view_record.
    + rewrite requestTimeoutRetry_refused by assumption.
      now eexists _, _.
Qed.

Lemma neutral_clearConnInitialDeadline : neutral clearConnInitialDeadline.
Proof.
  intros s. rewrite clearConnInitialDeadline_run.
  eexists _, _. split; [reflexivity |]. now rewrite view_record.
Qed.

Lemma neutral_call_closer h :
  isValid h = true -> neutral (call_closer h).
Proof.
  intros Hv s. unfold call_closer, isValid in *.
  destruct (writer h); [| discriminate].
  destruct (closer h); [| discriminate].
  eexists _, _. split; [reflexivity |]. now rewrite view_record.
Qed.

Lemma neutral_slice_from b lo :
  lo <= List.length b -> neutral (slice_from b lo).
Proof.
  intros H s. unfold slice_from.
  destruct (Nat.ltb_spec (List.length b) lo); [lia |].
  now eexists _, _.
Qed.

Lemma ok_neutral_bind (A B : Type) (Q : B -> sshClient -> Prop)
  (m : M A) (f : A -> M B) s :
  neutral m -> session_inv s ->
  (forall a s', session_inv s' -> ok Q s' (f a s')) ->
  ok Q s (bind m f s).
Proof.
  intros Hn Hs Hf. unfold bind.
  apply ok_bind with (R := fun _ s' => session_inv s').
  - now apply neutral_ok.
  - exact Hf.
Qed.

Lemma recv_remoteConn_ok s :
  session_inv s ->
  ok
    (fun v s' => session_inv s' /\
                 match v with
                 | Some h => isValid h = true /\
                             before_published (remoteTask s') = false
                 | None => is_exited (remoteTask s') = true /\
                           Chan.buf (remoteConnReceive s') = []
                 end)
    s (recv_remoteConn s).
Proof.
  intros Hs. unfold recv_remoteConn, chan_recv. apply ok_await; [exact Hs |].
  intros s1 x s2 H1 E. unfold Chan.pop in E.
  destruct (Chan.buf (remoteConnReceive s1)) as [| h rest] eqn:Hb.
  - destruct (Chan.closed (remoteConnReceive s1)) eqn:Hc; [| discriminate].
    injection E as <- <-. split; [| apply evolves_refl].
    split; [exact H1 |]. destruct (inv_remote_closed H1) as [Hx _].
    split; congruence.
  - injection E as <- <-.
    pose proof (inv_handles H1) as Hh. rewrite Hb in Hh.
    inversion Hh as [| ? ? Hv Hrest]; subst.
    pose proof (inv_remote_unpublished H1) as Hu. rewrite Hb in Hu.
    assert (Hp : before_published (remoteTask s1) = false).
    { destruct (before_published (remoteTask s1)); [| reflexivity].
      destruct Hu as [? _]; [reflexivity | discriminate]. }
    split; [split; [| split; [exact Hv | exact Hp]] |].
    2: { unfold evolves; fields. rewrite Hb. cbn [List.length].
         intuition lia. }
    reinv H1.
    all: intros Hbp; destruct (Hu Hbp) as [? _]; discriminate.
Qed.

Lemma getRemote_ok s :
  session_inv s ->
  ok
    (fun x s' => session_inv s' /\
                 match snd x with
                 | None => isValid (fst x) = true /\
                           isValid (remoteConn s') = true
                 | Some _ => is_exited (remoteTask s') = true /\
                             Chan.buf (remoteConnReceive s') = []
                 end)
    s (getRemote s).
Proof.
  intros Hs. unfold getRemote, bind, gets. cbn [bind_res].
  destruct (isValid (remoteConn s)) eqn:Hv.
  - apply ok_ret. now split.
  - eapply ok_bind; [now apply recv_remoteConn_ok |].
    intros [h |] s' [Hs' Hh]; cbn [bind_res modify ret].
    + destruct Hh as [Hh Hp]. apply ok_Done; [| evo].
      split; [| now split]. reinv Hs'.
    + apply ok_ret. now split.
Qed.

Lemma getRemote_valid s :
  session_inv s ->
  ok
    (fun x s' => session_inv s' /\
                 match snd x with
                 | None => isValid (fst x) = true
                 | Some _ => True
                 end)
    s (getRemote s).
Proof.
  intros Hs. eapply ok_mono; [now apply getRemote_ok |].
  intros [h e] s' [Hs' Hh]. split; [exact Hs' |].
  cbn [fst snd] in *. destruct e; [exact I | apply Hh].
Qed.

Lemma baseCtxCancel_ok s :
  session_inv s ->
  ok (fun _ s' => session_inv s' /\
                  remoteCloseWait s' = remoteCloseWait s /\
                  baseCtxCancelDone s' = true)
    s (baseCtxCancel s).
Proof.
  intros Hs. unfold baseCtxCancel, bind, gets. cbn [bind_res].
  destruct (baseCtxCancelDone s) eqn:Hd.
  - apply ok_ret. auto.
  - cbn [modify]. apply ok_Done; [| evo]. split; [| split; reflexivity].
    pose proof (inv_cancel_once Hs) as Hc. rewrite Hd in Hc.
    reinv Hs.
Qed.

Lemma remoteCloseWait_Wait_ok s :
  session_inv s ->
  ok (fun _ s' => session_inv s' /\ remoteCloseWait s' = 0)
    s (remoteCloseWait_Wait s).
Proof.
  intros Hs. unfold remoteCloseWait_Wait. apply ok_await; [exact Hs |].
  intros s1 x s2 H1 E.
  destruct (Nat.eqb_spec (remoteCloseWait s1) 0); [| discriminate].
  injection E as <- <-. split; [now split | apply evolves_refl].
Qed.

Lemma recv_credential_ok s :
  session_inv s ->
  ok (fun _ s' => session_inv s') s (recv_credential s).
Proof.
  intros Hs. unfold recv_credential, chan_recv. apply ok_await; [exact Hs |].
  intros s1 x s2 H1 E. unfold Chan.pop in E.
  destruct (Chan.buf (credentialReceive s1)) as [| v rest] eqn:Hb.
  - destruct (Chan.closed (credentialReceive s1)); [| discriminate].
    injection E as <- <-. split; [exact H1 | apply evolves_refl].
  - injection E as <- <-. split; [| evo].
    pose proof (inv_credential_unused H1) as Hu.
    pose proof (inv_credential_buffer H1) as Hl. rewrite Hb in Hl.
    cbn [List.length] in Hl.
    reinv H1.
    all: intros Hp; destruct (Hu Hp) as [Hc _]; rewrite Hc in Hb; discriminate.
Qed.

Lemma recv_fingerprint_ok s :
  session_inv s ->
  ok (fun _ s' => session_inv s') s (recv_fingerprint s).
Proof.
  intros Hs. unfold recv_fingerprint, chan_recv. apply ok_await; [exact Hs |].
  intros s1 x s2 H1 E. unfold Chan.pop in E.
  destruct (Chan.buf (fingerprintVerifyResultReceive s1)) as [| v rest] eqn:Hb.
  - destruct (Chan.closed (fingerprintVerifyResultReceive s1));
      [| discriminate].
    injection E as <- <-. split; [exact H1 | apply evolves_refl].
  - injection E as <- <-. split; [| evo].
    pose proof (inv_fingerprint_unused H1) as Hu.
    pose proof (inv_fingerprint_buffer H1) as Hl. rewrite Hb in Hl.
    cbn [List.length] in Hl.
    reinv H1.
    all: intros Hp; destruct (Hu Hp) as [Hc _]; rewrite Hc in Hb; discriminate.
Qed.

(** ** Close *)

Lemma Close_run s :
  session_inv s ->
  Close s = Close_tail (closing s).
Proof.
  intros Hs. destruct (inv_credential_closed Hs) as [Hc _].
  destruct (inv_fingerprint_closed Hs) as [Hf _].
  unfold Close, Close_tail, closing.
  unfold bind at 1, modify at 1. cbn [bind_res].
  unfold bind at 1, modify at 1. cbn [bind_res].
  unfold bind at 1, gets at 1. cbn [bind_res]. fields.
  destruct (credentialReceiveClosed s) eqn:Ec; cbn [negb].
  - unfold bind at 1, ret at 1. cbn [bind_res].
    unfold bind at 1, gets at 1. cbn [bind_res]. fields.
    destruct (fingerprintVerifyResultReceiveClosed s) eqn:Ef; cbn [negb].
    + reflexivity.
    + unfold bind at 1, bind at 1, chan_close. fields.
      rewrite <- Hf. reflexivity.
  - unfold bind at 1, bind at 1, chan_close. fields. rewrite <- Hc.
    cbn [bind_res modify].
    unfold bind at 1, gets at 1. cbn [bind_res]. fields.
    destruct (fingerprintVerifyResultReceiveClosed s) eqn:Ef; cbn [negb].
    + reflexivity.
    + unfold bind at 1, bind at 1, chan_close. fields.
      rewrite <- Hf. reflexivity.
Qed.

Lemma closing_inv s : session_inv s -> session_inv (closing s).
Proof.
  intros Hs. unfold closing. fields.
  destruct (inv_credential_closed Hs) as [Hc Hcc].
  destruct (inv_fingerprint_closed Hs) as [Hf Hfc].
  destruct (credentialReceiveClosed s) eqn:Ec; fields;
    destruct (fingerprintVerifyResultReceiveClosed s) eqn:Ef; fields;
    reinv Hs.
Qed.

Lemma closing_flags s :
  credentialProcessed (closing s) = true /\
  fingerprintProcessed (closing s) = true /\
  credentialReceiveClosed (closing s) = true /\
  fingerprintVerifyResultReceiveClosed (closing s) = true.
Proof.
  unfold closing. fields.
  destruct (credentialReceiveClosed s) eqn:Ec; fields;
    destruct (fingerprintVerifyResultReceiveClosed s) eqn:Ef; fields;
    auto.
Qed.

Lemma closing_evolves s : evolves s (closing s).
Proof.
  unfold closing. fields.
  destruct (credentialReceiveClosed s) eqn:Ec; fields;
    destruct (fingerprintVerifyResultReceiveClosed s) eqn:Ef; fields;
    evo.
Qed.

Lemma sealed_stable s s' : sealed s -> evolves s s' -> sealed s'.
Proof.
  unfold sealed, evolves.
  intros (H1 & H2 & H3 & H4) (E1 & E2 & E3 & E4 & _).
  destruct (E1 H1) as [? _]. destruct (E2 H2) as [? _]. auto.
Qed.

Lemma handle_settled_stable s s' :
  handle_settled s -> evolves s s' -> handle_settled s'.
Proof.
  unfold handle_settled, evolves.
  intros [Hv | [Hx Hb]] (_ & _ & _ & _ & _ & Ev & Ex).
  - left. auto.
  - right. destruct (Ex Hx) as (Hx' & _ & Hl). split; [exact Hx' |].
    rewrite Hb in Hl. cbn in Hl.
    destruct (Chan.buf (remoteConnReceive s')); [reflexivity | cbn in Hl; lia].
Qed.

Lemma cancelled_stable s s' :
  baseCtxCancelDone s = true -> evolves s s' -> baseCtxCancelDone s' = true.
Proof. unfold evolves. intuition. Qed.

Lemma closed_stable s s' :
  session_inv s -> session_inv s' ->
  closed s -> evolves s s' -> closed s'.
Proof.
  intros Hs Hs' (Hf & Hd & Hw & Hx & Hh) He.
  split; [now apply (sealed_stable s) |].
  split; [now apply (cancelled_stable s) |].
  pose proof He as (_ & _ & _ & _ & _ & _ & Ex).
  destruct (Ex Hx) as (Hx' & Hl & _).
  pose proof (inv_wait Hs) as W. pose proof (inv_wait Hs') as W'.
  destruct (remoteTask s); try discriminate.
  destruct (remoteTask s'); try discriminate. cbn in W, W'.
  repeat split; [lia | now apply (handle_settled_stable s)].
Qed.

Lemma Close_tail_ok s :
  session_inv s -> sealed s ->
  ok (returned CallClose) s (Close_tail s).
Proof.
  intros Hs Hf. unfold Close_tail, bind at 1.
  eapply ok_bind.
  { apply ok_stable with (P := sealed);
      [apply sealed_stable | exact Hf | now apply getRemote_ok]. }
  intros [h e] s1 [[H1 Hh] Hf1]. cbn [fst snd] in Hh.
  set (P := fun t => sealed t /\ handle_settled t).
  assert (HP : forall t t', P t -> evolves t t' -> P t').
  { intros t t' [Pf Ph] E. split;
      [now apply (sealed_stable t) | now apply (handle_settled_stable t)]. }
  assert (P1 : P s1).
  { split; [exact Hf1 |]. destruct e; [now right | now left]. }
  unfold bind at 1.
  apply ok_bind with (R := fun _ s' => session_inv s' /\ P s').
  - apply ok_stable; [exact HP | exact P1 |].
    destruct e; [apply ok_ret; exact H1 |].
    apply neutral_ok; [now apply neutral_call_closer | exact H1].
  - intros u s2 [H2 P2]. unfold bind at 1.
    eapply ok_bind.
    { apply ok_stable with (P := P);
        [exact HP | exact P2 | now apply baseCtxCancel_ok]. }
    intros u1 s3 [(H3 & _ & Hd) P3]. unfold bind.
    eapply ok_bind.
    { apply ok_stable
        with (P := fun t => P t /\ baseCtxCancelDone t = true);
        [| now split | now apply remoteCloseWait_Wait_ok].
      intros t t' [Pt Dt] E. split;
        [now apply (HP t) | now apply (cancelled_stable t)]. }
    intros u2 s4 [[H4 Hw] [[Pf Ph] Hd4]]. apply ok_ret.
    split; [exact H4 |]. split; [reflexivity |].
    split; [exact Pf |]. split; [exact Hd4 |]. split; [exact Hw |].
    split; [| exact Ph].
    pose proof (inv_wait H4) as W. rewrite Hw in W.
    destruct Ph as [Hv | [Hx _]]; [| exact Hx].
    pose proof (inv_cached H4 Hv) as Hc.
    destruct (remoteTask s4) as [| [] |]; cbn in *;
      try discriminate; reflexivity.
Qed.

Lemma Close_ok s :
  session_inv s ->
  ok (returned CallClose) s (Close s).
Proof.
  intros Hs. rewrite Close_run by exact Hs.
  apply ok_rebase with (closing s); [apply closing_evolves |].
  apply Close_tail_ok; [now apply closing_inv | apply closing_flags].
Qed.

Lemma Release_ok s :
  session_inv s ->
  ok (returned CallRelease) s (Release s).
Proof.
  intros Hs. unfold Release, bind.
  eapply ok_bind; [now apply baseCtxCancel_ok |].
  intros u s1 [H1 _]. apply ok_ret. unfold returned. auto.
Qed.

(** ** The local-frame handler keeps the invariant *)

Lemma valid_handle h :
  isValid h = true ->
  exists w c sess, writer h = Some w /\ closer h = Some c /\
                   session h = Some sess.
Proof.
  unfold isValid. destruct (writer h), (closer h), (session h);
    try discriminate. intros _. do 3 eexists. repeat split.
Qed.

Lemma neutral_stdin_loop remote turns : forall r,
  isValid remote = true -> neutral (stdin_loop turns remote r).
Proof.
  induction turns as [| turns IH]; intros r Hv.
  - cbn. destruct (Completed r); apply neutral_ret.
  - cbn [stdin_loop]. destruct (Completed r); [apply neutral_ret |].
    destruct (Buffered r) as [[rData rErr] r'].
    destruct rErr; [apply neutral_ret |].
    destruct (valid_handle remote Hv) as (w & c & sess & -> & Hc & _).
    apply neutral_bind; [apply neutral_writer_Write |].
    intros wErr. apply neutral_bind; [| intros _; now apply IH].
    destruct wErr; [| apply neutral_ret].
    apply neutral_bind; [now apply neutral_call_closer |].
    intros _. apply neutral_l_Debug.
Qed.

Lemma after_refusal_ok r' s :
  session_inv s ->
  ok (fun _ s' => session_inv s') s (after_refusal r' s).
Proof.
  intros Hs. unfold after_refusal, bind at 1.
  eapply ok_bind; [now apply getRemote_valid |].
  intros [h e] s1 [H1 Hh]. cbn [fst snd] in Hh.
  apply ok_neutral_bind; [| exact H1 |].
  - destruct e; [apply neutral_ret | now apply neutral_call_closer].
  - intros _ s2 H2. now apply ok_ret.
Qed.

Lemma local_ok marker r s :
  session_inv s ->
  ok (fun _ s' => session_inv s') s (local marker r s).
Proof.
  intros Hs. unfold local.
  destruct (Byte.eqb marker SSHClientStdIn).
  { unfold bind at 1. eapply ok_bind; [now apply getRemote_valid |].
    intros [h e] s1 [H1 Hh]. cbn [fst snd] in Hh.
    destruct e; [now apply ok_ret |].
    apply neutral_ok; [now apply neutral_stdin_loop | exact H1]. }
  destruct (Byte.eqb marker SSHClientResize).
  { unfold bind at 1. eapply ok_bind; [now apply getRemote_valid |].
    intros [h e] s1 [H1 Hh]. cbn [fst snd] in Hh.
    destruct e; [now apply ok_ret |].
    destruct (ReadFull 4 r) as [[b rErr] r'].
    destruct rErr; [now apply ok_ret |].
    destruct (valid_handle h Hh) as (w & c & sess & _ & _ & ->).
    apply neutral_ok; [| exact H1].
    apply neutral_bind; [apply neutral_session_WindowChange |].
    intros wcErr. apply neutral_bind; [| intros _; apply neutral_ret].
    destruct wcErr; [apply neutral_l_Debug | apply neutral_ret]. }
  destruct (Byte.eqb marker SSHClientRespondFingerprint).
  { unfold bind at 1, gets at 1. cbn [bind_res].
    destruct (fingerprintProcessed s) eqn:Hp; [now apply ok_ret |].
    unfold bind at 1, modify at 1. cbn [bind_res].
    destruct (inv_fingerprint_unused Hs Hp) as [Hc Hn].
    assert (H1 : session_inv (set_fingerprintProcessed true s))
      by reinv Hs.
    assert (E1 : evolves s (set_fingerprintProcessed true s)) by evo.
    destruct (FetchOneByte r) as [[rData rErr] r'].
    destruct rErr; [now apply ok_Done |].
    assert (H2 : forall v,
      session_inv
        (record (EvSendFingerprint v)
           (set_fingerprintVerifyResultReceive (Chan.mk [v] false)
              (set_fingerprintProcessed true s)))).
    { intros v. destruct (inv_fingerprint_closed Hs) as [Hk _].
      rewrite Hc in Hk. cbn in Hk. reinv Hs. }
    assert (E2 : forall v,
      evolves s
        (record (EvSendFingerprint v)
           (set_fingerprintVerifyResultReceive (Chan.mk [v] false)
              (set_fingerprintProcessed true s)))) by (intros v; evo).
    destruct (Byte.eqb (nth 0 rData x00) x00); cbn [negb];
      unfold bind at 1; rewrite send_fingerprint_run by exact Hc;
      cbn [bind_res].
    - apply ok_Done; [apply H2 | apply E2].
    - eapply ok_rebase; [apply E2 |]. apply after_refusal_ok. apply H2. }
  destruct (Byte.eqb marker SSHClientRespondCredential).
  { unfold bind at 1, gets at 1. cbn [bind_res].
    destruct (credentialProcessed s) eqn:Hp; [now apply ok_ret |].
    unfold bind at 1, modify at 1. cbn [bind_res].
    destruct (inv_credential_unused Hs Hp) as [Hc Hn].
    assert (H1 : session_inv (set_credentialProcessed true s))
      by reinv Hs.
    assert (E1 : evolves s (set_credentialProcessed true s)) by evo.
    destruct (credential_loop _ _ _ _ _) as [[rErr buf] r'].
    destruct rErr; [now apply ok_Done |].
    unfold bind. rewrite send_credential_run by exact Hc. cbn [bind_res].
    apply ok_Done; [| evo]. destruct (inv_credential_closed Hs) as [Hk _].
    rewrite Hc in Hk. cbn in Hk. reinv Hs. }
  now apply ok_ret.
Qed.

(** ** Bootup, the callbacks and the remote task keep the invariant *)

Section BootupKeeps.

Variable ParseString : LimitedReader -> list byte * option error * LimitedReader.
Variable Address : Type.
Variable ParseAddress : LimitedReader -> Address * option error * LimitedReader.
Variable Address_String : Address -> string.
Variable ParsePrivateKey : list byte -> nat * option error.

Lemma Bootup_ok r s :
  session_inv s ->
  remoteTask s = NotStarted ->
  ok (fun _ s' => session_inv s') s
    (Bootup ParseString ParseAddress Address_String ParsePrivateKey r s).
Proof.
  intros Hs Hn. unfold Bootup.
  destruct (ParseString r) as [[userName userNameErr] r1].
  destruct userNameErr; [now apply ok_ret |].
  destruct (ParseAddress r1) as [[addr addrErr] r2].
  destruct addrErr; [now apply ok_ret |].
  destruct (String.length (Address_String addr) <=? 0); [now apply ok_ret |].
  destruct (FetchOneByte r2) as [[rData rErr] r3].
  destruct rErr; [now apply ok_ret |].
  destruct (buildAuthMethod ParsePrivateKey (nth 0 rData x00)) as [b e].
  destruct e; [now apply ok_ret |].
  cbn. apply ok_Done;
    [| evo_at Hn].
  pose proof (inv_cached Hs) as Hv. rewrite Hn in Hv. cbn in Hv.
  pose proof (inv_wait Hs) as Hw. rewrite Hn in Hw.
  pose proof (inv_remote_closed Hs) as Hc. rewrite Hn in Hc.
  pose proof (inv_remote_unpublished Hs) as Hu. rewrite Hn in Hu.
  pose proof (inv_stderr Hs) as He. rewrite Hn in He.
  reinv Hs.
Qed.

End BootupKeeps.

Lemma fits_slice b s :
  fits b s = true -> slice_from b (HeaderSize s) s = Done (skipn (HeaderSize s) b) s.
Proof.
  unfold fits, slice_from. intros H. apply Nat.leb_le in H.
  destruct (Nat.ltb_spec (List.length b) (HeaderSize s)); [lia | reflexivity].
Qed.

Lemma SendManual_run marker b s :
  exists wErr s',
    SendManual marker b s = Done wErr s' /\
    wErr = fst (next_result (sendManualResults (env s))) /\
    s' = record (EvSendManual marker b)
           (set_env (mkEnv (snd (next_result (sendManualResults (env s))))
                       (writeResults (env s)) (windowChangeResults (env s)))
              s) /\
    view s' = view s /\ HeaderSize s' = HeaderSize s /\
    remoteTask s' = remoteTask s /\ stderrTask s' = stderrTask s.
Proof.
  unfold SendManual.
  destruct (next_result (sendManualResults (env s))) as [r rest].
  eexists _, _. split; [reflexivity |]. cbn [fst snd].
  repeat split. now rewrite view_record.
Qed.

Lemma passwordCallback_ok b s :
  session_inv s -> fits b s = true ->
  ok (fun _ s' => session_inv s') s (passwordCallback b s).
Proof.
  intros Hs Hf. unfold passwordCallback.
  unfold bind at 1, enableRemoteReadTimeoutRetry, modify at 1.
  cbn [bind_res].
  set (s1 := set_remoteReadTimeoutRetry true s).
  assert (H1 : session_inv s1)
    by (apply (session_inv_view s); [reflexivity | exact Hs]).
  unfold bind at 1, bind at 1, gets at 1. cbn [bind_res].
  unfold bind at 1. rewrite fits_slice by exact Hf. cbn [bind_res].
  unfold bind at 1.
  destruct (SendManual_run SSHServerConnectRequestCredential
              (skipn (HeaderSize s1) b) s1)
    as (wErr & s2 & -> & _ & _ & Hv & _). cbn [bind_res].
  assert (H2 : session_inv s2)
    by (apply (session_inv_view s1); [now symmetry | exact H1]).
  apply ok_rebase with s2;
    [apply view_evolves; transitivity (view s1); [reflexivity | now symmetry] |].
  destruct wErr.
  - cbn [bind_res ret].
    apply ok_neutral_bind; [apply neutral_disable | exact H2 |].
    intros _ s3 H3. now apply ok_ret.
  - apply ok_bind with (R := fun _ s' => session_inv s').
    + apply ok_bind with (R := fun _ s' => session_inv s');
        [now apply recv_credential_ok |].
      intros v s3 H3. destruct v; now apply ok_ret.
    + intros out s3 H3.
      apply ok_neutral_bind; [apply neutral_disable | exact H3 |].
      intros _ s4 H4. now apply ok_ret.
Qed.

Lemma publicKeysCallback_ok parse b s :
  session_inv s -> fits b s = true ->
  ok (fun _ s' => session_inv s') s (publicKeysCallback parse b s).
Proof.
  intros Hs Hf. unfold publicKeysCallback.
  unfold bind at 1, enableRemoteReadTimeoutRetry, modify at 1.
  cbn [bind_res].
  set (s1 := set_remoteReadTimeoutRetry true s).
  assert (H1 : session_inv s1)
    by (apply (session_inv_view s); [reflexivity | exact Hs]).
  unfold bind at 1, bind at 1, gets at 1. cbn [bind_res].
  unfold bind at 1. rewrite fits_slice by exact Hf. cbn [bind_res].
  unfold bind at 1.
  destruct (SendManual_run SSHServerConnectRequestCredential
              (skipn (HeaderSize s1) b) s1)
    as (wErr & s2 & -> & _ & _ & Hv & _). cbn [bind_res].
  assert (H2 : session_inv s2)
    by (apply (session_inv_view s1); [now symmetry | exact H1]).
  apply ok_rebase with s2;
    [apply view_evolves; transitivity (view s1); [reflexivity | now symmetry] |].
  destruct wErr.
  - cbn [bind_res ret].
    apply ok_neutral_bind; [apply neutral_disable | exact H2 |].
    intros _ s3 H3. now apply ok_ret.
  - apply ok_bind with (R := fun _ s' => session_inv s').
    + apply ok_bind with (R := fun _ s' => session_inv s');
        [now apply recv_credential_ok |].
      intros v s3 H3. destruct v as [bytes |]; [| now apply ok_ret].
      destruct (parse bytes) as [signer signerErr].
      destruct signerErr; now apply ok_ret.
    + intros out s3 H3.
      apply ok_neutral_bind; [apply neutral_disable | exact H3 |].
      intros _ s4 H4. now apply ok_ret.
Qed.

Lemma confirmRemoteFingerprint_ok fgp buf s :
  session_inv s -> fits buf s = true ->
  ok (fun _ s' => session_inv s') s
    (confirmRemoteFingerprint fgp buf s).
Proof.
  intros Hs Hf. unfold confirmRemoteFingerprint.
  unfold bind at 1, enableRemoteReadTimeoutRetry, modify at 1.
  cbn [bind_res].
  set (s1 := set_remoteReadTimeoutRetry true s).
  assert (H1 : session_inv s1)
    by (apply (session_inv_view s); [reflexivity | exact Hs]).
  unfold bind at 1, bind at 1, gets at 1. cbn [bind_res].
  unfold bind at 1. rewrite fits_slice by exact Hf. cbn [bind_res].
  unfold bind at 1.
  destruct (SendManual_run SSHServerConnectVerifyFingerprint
              (framed buf (HeaderSize s1) fgp) s1)
    as (wErr & s2 & -> & _ & _ & Hv & _). cbn [bind_res].
  assert (H2 : session_inv s2)
    by (apply (session_inv_view s1); [now symmetry | exact H1]).
  apply ok_rebase with s2;
    [apply view_evolves; transitivity (view s1); [reflexivity | now symmetry] |].
  destruct wErr.
  - cbn [bind_res ret].
    apply ok_neutral_bind; [apply neutral_disable | exact H2 |].
    intros _ s3 H3. now apply ok_ret.
  - apply ok_bind with (R := fun _ s' => session_inv s').
    + apply ok_bind with (R := fun _ s' => session_inv s');
        [now apply recv_fingerprint_ok |].
      intros v s3 H3. destruct v as [[|] |]; now apply ok_ret.
    + intros out s3 H3.
      apply ok_neutral_bind; [apply neutral_disable | exact H3 |].
      intros _ s4 H4. now apply ok_ret.
Qed.

Lemma remote_deferred_ok s p :
  session_inv s -> remoteTask s = Running p ->
  ok (fun _ s' => session_inv s') s (remote_deferred s).
Proof.
  intros Hs Hr. unfold remote_deferred.
  unfold bind at 1, modify at 1. cbn [bind_res].
  unfold bind at 1, chan_close. fields.
  destruct (inv_remote_closed Hs) as [Hc Hcc]. rewrite Hr in Hc, Hcc.
  cbn [is_exited Nat.b2n] in Hc, Hcc. rewrite Hc. cbn [bind_res].
  pose proof (inv_wait Hs) as Hw. rewrite Hr in Hw. cbn [running] in Hw.
  pose proof (inv_cancel_once Hs) as Hk.
  unfold bind at 1, baseCtxCancel, bind at 1, gets at 1. cbn [bind_res].
  fields.
  destruct (baseCtxCancelDone s) eqn:Hd; cbn [bind_res ret modify];
    unfold bind at 1, remoteCloseWait_Done, bind at 1, gets at 1;
    cbn [bind_res]; fields; rewrite Hw; cbn [Nat.add bind_res modify];
    (apply ok_Done; [reinv Hs | evo]).
Qed.

Lemma stderr_deferred_ok s u :
  session_inv s -> stderrTask s = Running u ->
  ok (fun _ s' => session_inv s') s (stderr_deferred s).
Proof.
  intros Hs Hr. unfold stderr_deferred.
  pose proof (inv_wait Hs) as Hw. rewrite Hr in Hw. cbn [running] in Hw.
  pose proof (inv_stderr Hs) as He. rewrite Hr in He.
  unfold bind at 1, remoteCloseWait_Done, bind at 1, gets at 1.
  cbn [bind_res]. rewrite Hw, Nat.add_1_r. cbn [bind_res modify].
  apply ok_Done; [| evo]. reinv Hs.
  all: intros Hb; specialize (He Hb); discriminate.
Qed.

Lemma remote_publish_ok w c sess s :
  session_inv s -> remoteTask s = Running Connecting ->
  ok (fun _ s' => session_inv s') s (remote_publish w c sess s).
Proof.
  intros Hs Hr. unfold remote_publish.
  unfold bind at 1. rewrite clearConnInitialDeadline_run. cbn [bind_res].
  destruct (inv_remote_closed Hs) as [Hc Hcc]. rewrite Hr in Hc, Hcc.
  cbn [is_exited Nat.b2n] in Hc, Hcc.
  pose proof (inv_remote_unpublished Hs) as Hu. rewrite Hr in Hu.
  destruct (Hu eq_refl) as [Hb Hn].
  pose proof (inv_stderr Hs) as He. rewrite Hr in He.
  unfold bind at 1, chan_send, bind at 1, await, Chan.full. fields.
  rewrite Hc, Hb. cbn [List.length Chan.capacity Nat.leb bind_res ret modify].
  pose proof (inv_wait Hs) as Hw. rewrite Hr in Hw. cbn [running] in Hw.
  apply ok_Done; [| evo_at Hr]. reinv Hs.
  rewrite Hb. repeat constructor.
Qed.

Lemma pump_neutral marker chunk buf s :
  session_inv s -> fits buf s = true ->
  exists e s', pump marker chunk buf s = Done e s' /\
               (session_inv s' /\ evolves s s') /\
               remoteTask s' = remoteTask s /\ stderrTask s' = stderrTask s.
Proof.
  intros Hs Hf. unfold pump, bind at 1, gets at 1. cbn [bind_res].
  unfold bind at 1. rewrite fits_slice by exact Hf. cbn [bind_res].
  destruct (SendManual_run marker (framed buf (HeaderSize s) chunk) s)
    as (wErr & s2 & E & _ & _ & Hv & _ & Hr & He).
  exists wErr, s2. split; [exact E |]. split; [| now split].
  split; [| now apply view_evolves].
  apply (session_inv_view s); [now symmetry | exact Hs].
Qed.

Lemma remote_connectFailed_neutral why errText buf s :
  session_inv s -> fits buf s = true ->
  exists s', remote_connectFailed why errText buf s = Done tt s' /\
             (session_inv s' /\ evolves s s') /\
             remoteTask s' = remoteTask s.
Proof.
  intros Hs Hf. unfold remote_connectFailed, bind at 1, gets at 1.
  cbn [bind_res].
  unfold bind at 1. rewrite fits_slice by exact Hf. cbn [bind_res].
  unfold bind.
  destruct (SendManual_run SSHServerConnectFailed
              (framed buf (HeaderSize s) errText) s)
    as (wErr & s2 & E & _ & _ & Hv & _ & Hr & _).
  rewrite E. cbn [bind_res].
  assert (H2 : session_inv s2)
    by (apply (session_inv_view s); [now symmetry | exact Hs]).
  destruct (failure_log why) as [format |].
  - exists (record (EvDebug format) s2). split; [reflexivity |].
    assert (Hv2 : view (record (EvDebug format) s2) = view s)
      by (now rewrite view_record).
    split; [| exact Hr]. split; [| now apply view_evolves].
    apply (session_inv_view s); [now symmetry | exact Hs].
  - exists s2. split; [reflexivity |]. split; [| exact Hr].
    split; [exact H2 | now apply view_evolves].
Qed.

Lemma remote_serve_ok buf s :
  session_inv s -> remoteTask s = Running Published -> fits buf s = true ->
  ok
    (fun serving s' =>
       session_inv s' /\
       if serving : bool then True else remoteTask s' = Running Published) s
    (remote_serve buf s).
Proof.
  intros Hs Hr Hf. unfold remote_serve, bind at 1, gets at 1.
  cbn [bind_res].
  unfold bind at 1. rewrite fits_slice by exact Hf. cbn [bind_res].
  unfold bind at 1.
  destruct (SendManual_run SSHServerConnectSucceed
              (firstn (HeaderSize s) buf) s)
    as (wErr & s2 & -> & _ & -> & Hv & _ & Hr2 & He2). cbn [bind_res].
  destruct wErr.
  - apply ok_Done; [| now apply view_evolves]. split.
    + apply (session_inv_view s); [now symmetry | exact Hs].
    + rewrite Hr2. exact Hr.
  - pose proof (inv_wait Hs) as Hw. rewrite Hr in Hw.
    pose proof (inv_stderr Hs) as He. rewrite Hr in He.
    specialize (He eq_refl). rewrite He in Hw. cbn [running] in Hw.
    pose proof (inv_remote_closed Hs) as Hc. rewrite Hr in Hc.
    cbn. apply ok_Done; [| evo_at Hr]. split; [| exact I].
    reinv Hs.
Qed.

Lemma at_stage_true p s : at_stage p s = true -> remoteTask s = Running p.
Proof.
  unfold at_stage. destruct (remoteTask s) as [| [] |], p;
    try discriminate; reflexivity.
Qed.

Lemma errorOf_ok (A : Type) (f : A -> option error) (m : M A)
  (Q : option error -> sshClient -> Prop) s :
  ok (fun a s' => Q (f a) s') s (m s) ->
  ok Q s (errorOf f m s).
Proof.
  intros H. unfold errorOf, bind. eapply ok_bind; [exact H |].
  intros a s' Ha. now apply ok_ret.
Qed.

Lemma then_deferred_ok (deferred : M unit) s :
  ok (fun _ s' => session_inv s') s (deferred s) ->
  ok (fun _ s' => session_inv s') s
    ((deferred ;; ret (@None error)) s).
Proof.
  intros H. unfold bind. eapply ok_bind; [exact H |].
  intros u s' H'. now apply ok_ret.
Qed.

Lemma remote_step_ok parse a s m :
  session_inv s ->
  remote_step parse a s = Some m ->
  ok (fun _ s' => session_inv s') s (m s).
Proof.
  intros Hs E. destruct a; cbn [remote_step] in E; try discriminate.
  - destruct (at_stage Connecting s && fits b s) eqn:G; [| discriminate].
    apply andb_prop in G as [_ Hf]. injection E as <-.
    apply errorOf_ok. now apply passwordCallback_ok.
  - destruct (at_stage Connecting s && fits b s) eqn:G; [| discriminate].
    apply andb_prop in G as [_ Hf]. injection E as <-.
    apply errorOf_ok. now apply publicKeysCallback_ok.
  - destruct (at_stage Connecting s && fits buf s) eqn:G; [| discriminate].
    apply andb_prop in G as [_ Hf]. injection E as <-.
    now apply confirmRemoteFingerprint_ok.
  - destruct (at_stage Connecting s && fits buf s) eqn:G; [| discriminate].
    apply andb_prop in G as [Hst Hf]. injection E as <-.
    apply at_stage_true in Hst.
    destruct (remote_connectFailed_neutral why errText buf s Hs Hf)
      as (s' & E' & [H' He'] & Hr).
    unfold bind at 1. rewrite E'. cbn [bind_res].
    apply ok_rebase with s'; [exact He' |].
    apply then_deferred_ok. apply remote_deferred_ok with Connecting;
      [exact H' | congruence].
  - destruct (at_stage Connecting s) eqn:Hst; [| discriminate].
    injection E as <-. apply at_stage_true in Hst.
    unfold bind. eapply ok_bind; [now apply remote_publish_ok |].
    intros u s' H'. now apply ok_ret.
  - destruct (at_stage Published s && fits buf s) eqn:G; [| discriminate].
    apply andb_prop in G as [Hst Hf]. injection E as <-.
    apply at_stage_true in Hst.
    unfold bind at 1. eapply ok_bind; [now apply remote_serve_ok |].
    intros [|] s' [H' Hr]; [now apply ok_ret |].
    apply then_deferred_ok. now apply remote_deferred_ok with Published.
  - destruct (at_stage Serving s && fits buf s) eqn:G; [| discriminate].
    apply andb_prop in G as [Hst Hf]. injection E as <-.
    apply at_stage_true in Hst. destruct chunk as [bs |].
    + destruct (pump_neutral SSHServerRemoteStdOut bs buf s Hs Hf)
        as (e & s' & E' & [H' He'] & Hr & _).
      unfold bind at 1. rewrite E'. cbn [bind_res].
      apply ok_rebase with s'; [exact He' |].
      destruct e; cbn [end_of_pump]; [| now apply ok_ret].
      apply then_deferred_ok. apply remote_deferred_ok with Serving;
        [exact H' | congruence].
    + apply then_deferred_ok. now apply remote_deferred_ok with Serving.
  - destruct (stderrTask s) as [| u |] eqn:Hst; try discriminate.
    destruct (fits buf s) eqn:Hf; [| discriminate]. injection E as <-.
    destruct chunk as [bs |].
    + destruct (pump_neutral SSHServerRemoteStdErr bs buf s Hs Hf)
        as (e & s' & E' & [H' He'] & _ & Hr).
      unfold bind at 1. rewrite E'. cbn [bind_res].
      apply ok_rebase with s'; [exact He' |].
      destruct e; cbn [end_of_pump]; [| now apply ok_ret].
      apply then_deferred_ok. apply stderr_deferred_ok with u;
        [exact H' | congruence].
    + apply then_deferred_ok. now apply stderr_deferred_ok with u.
Qed.

(** ** Every schedule keeps the invariant *)

Lemma suspended_later (A : Type) (Q : A -> sshClient -> Prop) (r : res A)
  s s' :
  suspended_ok Q r s -> evolves s s' -> suspended_ok Q r s'.
Proof.
  intros (Hb & He & Hok) E. split; [exact Hb |].
  split; [now apply evolves_trans with s | exact Hok].
Qed.

Lemma settle_control_inv c r sys :
  system_inv sys ->
  ok (returned c) (client sys) r ->
  system_inv (fst (settle_control c r sys)) /\
  evolves (client sys) (client (fst (settle_control c r sys))) /\
  (forall c' e, snd (settle_control c r sys) = Some (c', e) ->
     c' = c /\ returned c e (client (fst (settle_control c r sys)))).
Proof.
  intros (Hc & Hs & Hctl & Hrem) Hr.
  assert (Hrem' : forall s, evolves (client sys) s ->
    match remote sys with
    | Some r0 => suspended_ok (fun _ s' => session_inv s') r0 s
    | None => True
    end).
  { intros s E. destruct (remote sys); [| exact I].
    now apply suspended_later with (client sys). }
  remember (client sys) as s0 eqn:E0.
  destruct Hr as [s0 e s He Hev | s0 X g s k H0 Hev Hk];
    cbn [settle_control fst snd client].
  - split; [| split; [exact Hev |]].
    + split; [exact Hc |]. split; [apply He |].
      split; [exact I | now apply Hrem'].
    + intros c' e' E. injection E as <- <-. now split.
  - split; [| split; [exact Hev | intros c' e' E; discriminate]].
    split; [exact Hc |]. split; [exact H0 |]. split; [| now apply Hrem'].
    cbn. split; [reflexivity |]. split; [apply evolves_refl |].
    exists s0. now apply ok_Blocked.
Qed.

Lemma settle_remote_inv r sys :
  system_inv sys ->
  ok (fun _ s' => session_inv s') (client sys) r ->
  system_inv (settle_remote r sys) /\
  evolves (client sys) (client (settle_remote r sys)).
Proof.
  intros (Hc & Hs & Hctl & Hrem) Hr.
  assert (Hctl' : forall s, evolves (client sys) s ->
    match control sys with
    | Some (c, r0) => suspended_ok (returned c) r0 s
    | None => True
    end).
  { intros s E. destruct (control sys) as [[c r0] |]; [| exact I].
    now apply suspended_later with (client sys). }
  remember (client sys) as s0 eqn:E0.
  destruct Hr as [s0 e s He Hev | s0 X g s k H0 Hev Hk];
    cbn [settle_remote client].
  - split; [| exact Hev].
    split; [exact Hc |]. split; [exact He |].
    split; [now apply Hctl' | exact I].
  - split; [| exact Hev].
    split; [exact Hc |]. split; [exact H0 |]. split; [now apply Hctl' |].
    cbn. split; [reflexivity |]. split; [apply evolves_refl |].
    exists s0. now apply ok_Blocked.
Qed.

Section Schedules.

Variable ParseString : LimitedReader -> list byte * option error * LimitedReader.
Variable Address : Type.
Variable ParseAddress : LimitedReader -> Address * option error * LimitedReader.
Variable Address_String : Address -> string.
Variable ParsePrivateKey : list byte -> nat * option error.

Local Notation "'exec_'" :=
  (exec ParseString ParseAddress Address_String ParsePrivateKey).
Local Notation "'run_'" :=
  (run ParseString ParseAddress Address_String ParsePrivateKey).
Local Notation "'control_call_'" :=
  (control_call ParseString ParseAddress Address_String ParsePrivateKey).

Lemma control_call_ok a c m s :
  control_call_ a = Some (c, m) ->
  session_inv s ->
  (c = CallBootup -> remoteTask s = NotStarted) ->
  ok (returned c) s (m s).
Proof.
  intros E Hs Hb. destruct a; cbn in E; try discriminate;
    injection E as <- <-.
  - apply errorOf_ok. eapply ok_mono; [apply Bootup_ok; auto |].
    intros x s' H'. now split.
  - apply errorOf_ok. eapply ok_mono; [now apply local_ok |].
    intros x s' H'. now split.
  - now apply Close_ok.
  - now apply Release_ok.
Qed.

(** One action keeps the invariant of the system, the session after it
    evolves from the session before it, and a call that returns in it
    guarantees what [returned] says. *)
Lemma exec_inv a sys :
  system_inv sys ->
  system_inv (fst (exec_ a sys)) /\
  evolves (client sys) (client (fst (exec_ a sys))) /\
  (forall c e, snd (exec_ a sys) = Some (c, e) ->
     returned c e (client (fst (exec_ a sys)))).
Proof.
  intros Hsys. pose proof Hsys as (Hc & Hs & Hctl & Hrem).
  set (goal := fun x : system * option (call * option error) =>
    system_inv (fst x) /\
    evolves (client sys) (client (fst x)) /\
    (forall c e, snd x = Some (c, e) -> returned c e (client (fst x)))).
  change (goal (exec_ a sys)).
  assert (Hskip : goal (sys, None)).
  { split; [exact Hsys |]. split; [apply evolves_refl |].
    intros c e E; discriminate. }
  assert (Hcall : forall c m,
    control_call_ a = Some (c, m) ->
    (c = CallBootup -> remoteTask (client sys) = NotStarted) ->
    goal (settle_control c (m (client sys)) sys)).
  { intros c m E Hb.
    destruct (settle_control_inv c (m (client sys)) sys Hsys)
      as (H1 & H2 & H3).
    - now apply (control_call_ok a).
    - split; [exact H1 |]. split; [exact H2 |]. intros c' e E'.
      destruct (H3 c' e E') as [-> H4]. exact H4. }
  assert (Hstep : forall m,
    remote_step ParsePrivateKey a (client sys) = Some m ->
    goal (settle_remote (m (client sys)) sys, None)).
  { intros m E.
    destruct (settle_remote_inv (m (client sys)) sys Hsys)
      as [H1 H2].
    - now apply (remote_step_ok ParsePrivateKey a).
    - split; [exact H1 |]. split; [exact H2 |].
      intros c e E'; discriminate. }
  unfold exec. rewrite Hc.
  destruct a; cbn [control_call];
    try (destruct (control sys) as [[c0 r0] |]; [exact Hskip |]);
    try (apply Hcall; [reflexivity | discriminate]);
    try (destruct (remote_step ParsePrivateKey _ (client sys)) eqn:Es;
         destruct (remote sys) eqn:Er; try exact Hskip;
         apply Hstep; reflexivity).
  - destruct (remoteTask (client sys)) eqn:Et; try exact Hskip.
    apply Hcall; [reflexivity | auto].
  - destruct (control sys) as [[c0 r0] |]; [| exact Hskip].
    destruct Hctl as (Hb & Hev0 & s0 & Hok).
    destruct (settle_control_inv c0 (resume r0 (client sys)) sys Hsys)
      as (H1 & H2 & H3); [now apply ok_resume with s0 |].
    split; [exact H1 |]. split; [exact H2 |]. intros c' e E'.
    destruct (H3 c' e E') as [-> H4]. exact H4.
  - destruct (remote sys) as [r0 |]; [| exact Hskip].
    destruct Hrem as (Hb & Hev0 & s0 & Hok).
    destruct (settle_remote_inv (resume r0 (client sys)) sys Hsys)
      as [H1 H2]; [now apply ok_resume with s0 |].
    split; [exact H1 |]. split; [exact H2 |]. intros c e E; discriminate.
  - destruct (remoteTask (client sys)); try exact Hskip.
    destruct (neutral_requestTimeoutRetry timeout now0 (client sys))
      as (b & s' & E & Hv).
    rewrite E. cbn [state_of].
    assert (Ev : evolves (client sys) s')
      by (apply view_evolves; now symmetry).
    split; [| split; [exact Ev | intros c e E'; discriminate]].
    split; [reflexivity |].
    split; [apply (session_inv_view (client sys));
            [now symmetry | exact Hs] |].
    cbn [fst control remote client]. split.
    + destruct (control sys) as [[c0 r0] |]; [| exact I].
      now apply suspended_later with (client sys).
    + destruct (remote sys); [| exact I].
      now apply suspended_later with (client sys).
Qed.

Lemma boot_inv headerSize e : system_inv (boot headerSize e).
Proof.
  split; [reflexivity |]. split; [apply newSSH_inv |]. now split.
Qed.

Lemma run_inv acts : forall sys,
  system_inv sys ->
  system_inv (run_ acts sys) /\
  evolves (client sys) (client (run_ acts sys)).
Proof.
  induction acts as [| a rest IH]; intros sys H.
  - split; [exact H | apply evolves_refl].
  - cbn [run step]. destruct (exec_inv a sys H) as (H1 & H2 & _).
    destruct (IH _ H1) as [H3 H4]. split; [exact H3 |].
    now apply evolves_trans with (client (fst (exec_ a sys))).
Qed.

End Schedules.

(** ** At most one response on each channel *)

Lemma ok_state_evolves (A : Type) (Q : A -> sshClient -> Prop) s0 (r : res A) :
  ok Q s0 r -> evolves s0 (state_of r).
Proof. intros H. destruct H; assumption. Qed.

Lemma ok_state_inv (A : Type) s0 (r : res A) :
  ok (fun _ s' => session_inv s') s0 r -> session_inv (state_of r).
Proof. intros H. destruct H; assumption. Qed.

Lemma local_RespondCredential_marks r s :
  session_inv s ->
  credentialProcessed
    (state_of (local SSHClientRespondCredential r s)) = true.
Proof.
  intros Hs. destruct (credentialProcessed s) eqn:Hp.
  - now rewrite local_RespondCredential_again.
  - rewrite local_RespondCredential_run by exact Hp.
    destruct (credential_loop _ _ _ _ _) as [[rErr buf] r'].
    destruct rErr; [reflexivity |].
    unfold bind. rewrite send_credential_run; [reflexivity |].
    now apply (inv_credential_unused Hs).
Qed.

Lemma local_RespondFingerprint_marks r s :
  session_inv s ->
  fingerprintProcessed
    (state_of (local SSHClientRespondFingerprint r s)) = true.
Proof.
  intros Hs. destruct (fingerprintProcessed s) eqn:Hp.
  - now rewrite local_RespondFingerprint_again.
  - pose proof (local_ok SSHClientRespondFingerprint r s Hs) as Hok.
    rewrite local_RespondFingerprint_run in * by exact Hp.
    destruct (FetchOneByte r) as [[rData rErr] r'].
    destruct rErr; [reflexivity |].
    destruct (inv_fingerprint_unused Hs Hp) as [Hc _].
    destruct (Byte.eqb (nth 0 rData x00) x00); unfold bind in *;
      rewrite send_fingerprint_run in * by exact Hc; cbn [bind_res] in *.
    + reflexivity.
    + assert (H2 : session_inv
        (record (EvSendFingerprint false)
           (set_fingerprintVerifyResultReceive (Chan.mk [false] false)
              (set_fingerprintProcessed true s)))).
      { destruct (inv_fingerprint_closed Hs) as [Hk _].
        rewrite Hc in Hk. cbn in Hk. destruct (inv_fingerprint_unused Hs Hp).
        reinv Hs. }
      pose proof (ok_state_evolves _ _ _ _ (after_refusal_ok r' _ H2)) as He.
      destruct He as (_ & Hf & _). now apply Hf.
Qed.

Lemma Close_marks s :
  session_inv s ->
  credentialProcessed (state_of (Close s)) = true /\
  fingerprintProcessed (state_of (Close s)) = true.
Proof.
  intros Hs. rewrite Close_run by exact Hs.
  destruct (closing_flags s) as (Hc & Hf & _).
  destruct (ok_state_evolves _ _ _ _
              (Close_tail_ok (closing s) (closing_inv s Hs)
                 (closing_flags s))) as (Hec & Hef & _).
  split; [now apply Hec | now apply Hef].
Qed.

Section Claims.

Variable ParseString : LimitedReader -> list byte * option error * LimitedReader.
Variable Address : Type.
Variable ParseAddress : LimitedReader -> Address * option error * LimitedReader.
Variable Address_String : Address -> string.
Variable ParsePrivateKey : list byte -> nat * option error.

Local Notation "'exec_'" :=
  (exec ParseString ParseAddress Address_String ParsePrivateKey).
Local Notation "'run_'" :=
  (run ParseString ParseAddress Address_String ParsePrivateKey).

(** C3.  Whatever the goroutines of a session do, in whatever order, at
    most one value is ever sent on [credentialReceive] and at most one on
    [fingerprintVerifyResultReceive], and no send or close panics.  A value
    was sent only with the flag of its channel set; a response frame leaves
    the flag set whether or not it sends; once the flag is set, it stays
    set and every later response frame is turned down with "unexpected
    credential data respond" (or "unexpected fingerprint verification
    respond") leaving the session as it was.  [Close] sets both flags. *)
Theorem one_response_per_channel
  (headerSize : nat) (e : environment) (acts : list action) :
  let sys := run_ acts (boot headerSize e) in
  let s := client sys in
  crashed sys = false /\
  count is_send_credential (trace s) <= 1 /\
  count is_send_fingerprint (trace s) <= 1 /\
  (count is_send_credential (trace s) = 1 -> credentialProcessed s = true) /\
  (count is_send_fingerprint (trace s) = 1 ->
   fingerprintProcessed s = true) /\
  (forall r,
     credentialProcessed
       (state_of (local SSHClientRespondCredential r s)) = true /\
     fingerprintProcessed
       (state_of (local SSHClientRespondFingerprint r s)) = true) /\
  (credentialProcessed s = true ->
   forall later r,
     let s' := client (run_ later sys) in
     local SSHClientRespondCredential r s' =
       Done (Some ErrSSHUnexpectedCredentialDataRespond, r) s') /\
  (fingerprintProcessed s = true ->
   forall later r,
     let s' := client (run_ later sys) in
     local SSHClientRespondFingerprint r s' =
       Done (Some ErrSSHUnexpectedFingerprintVerificationRespond, r) s') /\
  Error ErrSSHUnexpectedCredentialDataRespond =
    "unexpected credential data respond"%string /\
  Error ErrSSHUnexpectedFingerprintVerificationRespond =
    "unexpected fingerprint verification respond"%string /\
  credentialProcessed (state_of (Close s)) = true /\
  fingerprintProcessed (state_of (Close s)) = true.
Proof.
  intros sys s.
  destruct (run_inv ParseString Address ParseAddress Address_String ParsePrivateKey
              acts (boot headerSize e) (boot_inv headerSize e))
    as [Hsys _].
  fold sys in Hsys. pose proof Hsys as (Hc & Hs & _). fold s in Hs.
  split; [exact Hc |].
  split; [apply (inv_credential_once Hs) |].
  split; [apply (inv_fingerprint_once Hs) |].
  split.
  { intros H1. destruct (credentialProcessed s) eqn:Hp; [reflexivity |].
    destruct (inv_credential_unused Hs Hp) as [_ H0]. lia. }
  split.
  { intros H1. destruct (fingerprintProcessed s) eqn:Hp; [reflexivity |].
    destruct (inv_fingerprint_unused Hs Hp) as [_ H0]. lia. }
  split.
  { intros r. split;
      [now apply local_RespondCredential_marks
      | now apply local_RespondFingerprint_marks]. }
  split.
  { intros Hp later r s'.
    destruct (run_inv ParseString Address ParseAddress Address_String ParsePrivateKey
                later sys Hsys) as [_ [He _]].
    apply local_RespondCredential_again. now apply He. }
  split.
  { intros Hp later r s'.
    destruct (run_inv ParseString Address ParseAddress Address_String ParsePrivateKey
                later sys Hsys) as [_ (_ & He & _)].
    apply local_RespondFingerprint_again. now apply He. }
  split; [reflexivity |]. split; [reflexivity |].
  now apply Close_marks.
Qed.

End Claims.

(** ** The fingerprint rendezvous *)

Lemma awaiting_fingerprint s :
  exists k,
    (forall x s2, k x s2 = Done (fingerprint_verdict x) (disabled s2)) /\
    (out <- (received <- recv_fingerprint ;;
             match received with
             | None =>
                 ret (Some ErrSSHRemoteFingerprintVerificationCancelled)
             | Some confirmed =>
                 if negb confirmed
                 then ret (Some ErrSSHRemoteFingerprintRefused)
                 else ret None
             end) ;;
     disableRemoteReadTimeoutRetry ;; ret out) s =
    match fingerprint_ready s with
    | Some (x, s2) => k x s2
    | None => Blocked fingerprint_ready s k
    end.
Proof.
  exists (fun x s2 =>
    bind_res
      (bind_res (Done x s2)
         (fun received : option bool =>
            match received with
            | None =>
                ret (Some ErrSSHRemoteFingerprintVerificationCancelled)
            | Some confirmed =>
                if negb confirmed
                then ret (Some ErrSSHRemoteFingerprintRefused)
                else ret None
            end))
      (fun out => disableRemoteReadTimeoutRetry ;; ret out)).
  split.
  - intros [[|] |] s2; reflexivity.
  - unfold bind at 1, bind at 1, recv_fingerprint, chan_recv, await.
    fold (fingerprint_ready s).
    destruct (fingerprint_ready s) as [[x s2] |]; reflexivity.
Qed.

Lemma confirmRemoteFingerprint_run fgp buf s :
  fits buf s = true ->
  fst (next_result (sendManualResults (env s))) = None ->
  exists asked k,
    trace asked =
      trace s ++ [EvSendManual SSHServerConnectVerifyFingerprint
                    (framed buf (HeaderSize s) fgp)] /\
    fingerprintVerifyResultReceive asked =
      fingerprintVerifyResultReceive s /\
    view asked = view s /\
    (forall x s2, k x s2 = Done (fingerprint_verdict x) (disabled s2)) /\
    confirmRemoteFingerprint fgp buf s =
      match fingerprint_ready asked with
      | Some (x, s2) => k x s2
      | None => Blocked fingerprint_ready asked k
      end.
Proof.
  intros Hf Hw. unfold confirmRemoteFingerprint.
  unfold bind at 1, enableRemoteReadTimeoutRetry, modify at 1.
  cbn [bind_res].
  set (s1 := set_remoteReadTimeoutRetry true s).
  unfold bind at 1, bind at 1, gets at 1. cbn [bind_res].
  unfold bind at 1. rewrite fits_slice by exact Hf. cbn [bind_res].
  unfold bind at 1.
  destruct (SendManual_run SSHServerConnectVerifyFingerprint
              (framed buf (HeaderSize s1) fgp) s1)
    as (wErr & s2 & -> & Ew & Es2 & Hv & _). cbn [bind_res].
  change (env s1) with (env s) in Ew. rewrite Hw in Ew. subst wErr.
  destruct (awaiting_fingerprint s2) as (k & Hk & Hrun).
  exists s2, k. split; [| split; [| split; [| split]]].
  - rewrite Es2. reflexivity.
  - rewrite Es2. reflexivity.
  - rewrite Hv. reflexivity.
  - exact Hk.
  - exact Hrun.
Qed.

Lemma filter_none p t : count p t = 0 -> filter p t = [].
Proof. unfold count. intros H. now apply length_zero_iff_nil. Qed.

Lemma local_RespondFingerprint_sends c b more chunks later :
  session_inv c ->
  fingerprintProcessed c = false ->
  List.concat chunks = b :: more ->
  let sent :=
    state_of (local SSHClientRespondFingerprint (frame chunks later) c) in
  fingerprintVerifyResultReceive sent = Chan.mk [Byte.eqb b x00] false /\
  filter is_send_fingerprint (trace sent) =
    [EvSendFingerprint (Byte.eqb b x00)] /\
  (Byte.eqb b x00 = true ->
   exists r',
     local SSHClientRespondFingerprint (frame chunks later) c =
       Done (None, r') sent).
Proof.
  intros Hc Hp Hb. cbv zeta.
  rewrite local_RespondFingerprint_run by exact Hp.
  destruct (FetchOneByte_frame chunks later b more Hb) as (l' & -> & _).
  cbn [nth]. destruct (inv_fingerprint_unused Hc Hp) as [Hch Hn].
  apply filter_none in Hn.
  destruct (Byte.eqb b x00); unfold bind;
    rewrite !send_fingerprint_run by exact Hch; cbn [bind_res].
  - cbn [ret state_of]. split; [reflexivity |]. split.
    + rewrite filter_record. fields. rewrite Hn. reflexivity.
    + intros _. now exists l'.
  - destruct (after_refusal_keeps l'
                (record (EvSendFingerprint false)
                   (set_fingerprintVerifyResultReceive
                      (Chan.mk [false] false)
                      (set_fingerprintProcessed true c)))) as [H1 H2].
    split; [rewrite H1; reflexivity |]. split; [| discriminate].
    rewrite H2, filter_record. fields. rewrite Hn. reflexivity.
Qed.

Lemma framed_fits buf at_ src :
  at_ <= List.length buf ->
  List.length src <= List.length buf - at_ ->
  framed buf at_ src = firstn at_ buf ++ src.
Proof.
  intros _ H. unfold framed. now rewrite (firstn_all2 src).
Qed.

(** C5.  [confirmRemoteFingerprint], once its frame with the printable
    fingerprint is out, answers by what it receives on
    [fingerprintVerifyResultReceive], at once or when it is woken: nil
    exactly for true, "server Fingerprint has been refused" for false,
    "server Fingerprint verification process has been cancelled" when the
    channel is closed.  A first fingerprint response whose byte is 0x00
    sends true on the channel, any other byte sends false; the confirmation
    that waited for it answers accordingly. *)
Theorem confirmRemoteFingerprint_verdict
  (fgp buf : list byte) (s : sshClient) :
  fits buf s = true ->
  fst (next_result (sendManualResults (env s))) = None ->
  let run := confirmRemoteFingerprint fgp buf s in
  let channel (d : sshClient) := fingerprintVerifyResultReceive d in
  (trace (state_of run) =
     trace s ++ [EvSendManual SSHServerConnectVerifyFingerprint
                   (framed buf (HeaderSize s) fgp)] /\
   (List.length fgp <= List.length buf - HeaderSize s ->
    framed buf (HeaderSize s) fgp = firstn (HeaderSize s) buf ++ fgp)) /\
  (forall v rest, Chan.buf (channel s) = v :: rest ->
     result_of run = Some (fingerprint_verdict (Some v))) /\
  (Chan.buf (channel s) = [] -> Chan.closed (channel s) = true ->
     result_of run = Some (fingerprint_verdict None)) /\
  (Chan.buf (channel s) = [] -> Chan.closed (channel s) = false ->
     is_blocked run = true /\
     forall s1,
       (forall v rest, Chan.buf (channel s1) = v :: rest ->
          result_of (resume run s1) = Some (fingerprint_verdict (Some v))) /\
       (Chan.buf (channel s1) = [] -> Chan.closed (channel s1) = true ->
          result_of (resume run s1) = Some (fingerprint_verdict None)) /\
       (Chan.buf (channel s1) = [] -> Chan.closed (channel s1) = false ->
          is_blocked (resume run s1) = true)) /\
  (forall received,
     fingerprint_verdict received = None <-> received = Some true) /\
  (fingerprint_verdict (Some false) = Some ErrSSHRemoteFingerprintRefused /\
   Error ErrSSHRemoteFingerprintRefused =
     "server Fingerprint has been refused"%string /\
   fingerprint_verdict None =
     Some ErrSSHRemoteFingerprintVerificationCancelled /\
   Error ErrSSHRemoteFingerprintVerificationCancelled =
     "server Fingerprint verification process has been cancelled"%string) /\
  (forall c b more chunks later,
     session_inv c -> fingerprintProcessed c = false ->
     List.concat chunks = b :: more ->
     let sent :=
       state_of (local SSHClientRespondFingerprint (frame chunks later) c) in
     channel sent = Chan.mk [Byte.eqb b x00] false /\
     filter is_send_fingerprint (trace sent) =
       [EvSendFingerprint (Byte.eqb b x00)] /\
     (Byte.eqb b x00 = true <-> b = x00)) /\
  (session_inv s -> fingerprintProcessed s = false ->
   channel s = Chan.make bool ->
   forall b later,
     result_of
       (resume run
          (state_of (local SSHClientRespondFingerprint (frame [[b]] later)
                       (state_of run)))) =
       Some (if Byte.eqb b x00 then None
             else Some ErrSSHRemoteFingerprintRefused)).
Proof.
  intros Hf Hw run channel.
  destruct (confirmRemoteFingerprint_run fgp buf s Hf Hw)
    as (asked & k & Htr & Hch & Hv & Hk & Hrun).
  assert (Hready : forall d,
    match Chan.buf (channel d), Chan.closed (channel d) with
    | v :: rest, _ =>
        fingerprint_ready d =
          Some (Some v,
                set_fingerprintVerifyResultReceive
                  (Chan.mk rest (Chan.closed (channel d))) d)
    | [], true => fingerprint_ready d = Some (None, d)
    | [], false => fingerprint_ready d = None
    end).
  { intros d. unfold fingerprint_ready, Chan.pop, channel.
    destruct (Chan.buf (fingerprintVerifyResultReceive d));
      [destruct (Chan.closed (fingerprintVerifyResultReceive d)) |];
      reflexivity. }
  assert (Hresume : forall s1,
    is_blocked run = true ->
    resume run s1 =
      match fingerprint_ready s1 with
      | Some (x, s2) => k x s2
      | None => Blocked fingerprint_ready s1 k
      end).
  { intros s1 Hb. subst run. rewrite Hrun in *.
    destruct (fingerprint_ready asked) as [[x s2] |];
      [rewrite Hk in Hb; discriminate | reflexivity]. }
  split; [| split; [| split; [| split; [| split; [| split; [| split]]]]]].
  - split.
    + subst run. rewrite Hrun.
      destruct (fingerprint_ready asked) as [[x s2] |] eqn:E;
        [| exact Htr].
      rewrite Hk. cbn [state_of]. unfold disabled. fields.
      unfold fingerprint_ready in E.
      destruct (Chan.pop (fingerprintVerifyResultReceive asked))
        as [[v c] |];
        [| destruct (Chan.closed (fingerprintVerifyResultReceive asked))];
        try discriminate; injection E as <- <-; exact Htr.
    + intros Hlen. apply framed_fits; [| exact Hlen].
      unfold fits in Hf. now apply Nat.leb_le.
  - intros v rest Hb. subst run. rewrite Hrun.
    pose proof (Hready asked) as Hr. unfold channel in *.
    rewrite Hch, Hb in Hr. rewrite Hr, Hk. reflexivity.
  - intros Hb Hcl. subst run. rewrite Hrun.
    pose proof (Hready asked) as Hr. unfold channel in *.
    rewrite Hch, Hb, Hcl in Hr. rewrite Hr, Hk. reflexivity.
  - intros Hb Hcl.
    assert (Hblocked : is_blocked run = true).
    { subst run. rewrite Hrun. pose proof (Hready asked) as Hr.
      unfold channel in *. rewrite Hch, Hb, Hcl in Hr. now rewrite Hr. }
    split; [exact Hblocked |]. intros s1.
    rewrite (Hresume s1 Hblocked). pose proof (Hready s1) as Hr.
    split; [| split].
    + intros v rest Hb1. rewrite Hb1 in Hr. rewrite Hr, Hk. reflexivity.
    + intros Hb1 Hc1. rewrite Hb1, Hc1 in Hr. rewrite Hr, Hk. reflexivity.
    + intros Hb1 Hc1. rewrite Hb1, Hc1 in Hr. now rewrite Hr.
  - intros [[|] |]; cbn; split; intros H; try discriminate; reflexivity.
  - repeat split.
  - intros c b more chunks later Hc Hp Hb.
    destruct (local_RespondFingerprint_sends c b more chunks later Hc Hp Hb)
      as (H1 & H2 & _).
    split; [exact H1 |]. split; [exact H2 |].
    split; [intros H; now apply Byte.byte_dec_bl | intros ->; reflexivity].
  - intros Hs Hp Hmake b later.
    assert (Hasked : state_of run = asked /\ is_blocked run = true).
    { subst run. rewrite Hrun. pose proof (Hready asked) as Hr.
      unfold channel in *. rewrite Hch, Hmake in Hr. cbn in Hr.
      rewrite Hr. now split. }
    destruct Hasked as [-> Hblocked].
    assert (Hia : session_inv asked)
      by (apply (session_inv_view s); [now symmetry | exact Hs]).
    assert (Hpa : fingerprintProcessed asked = false).
    { unfold view in Hv. injection Hv as _ _ _ E _. congruence. }
    destruct (local_RespondFingerprint_sends asked b [] [[b]] later Hia Hpa
                eq_refl) as (H1 & _).
    set (sent := state_of
      (local SSHClientRespondFingerprint (frame [[b]] later) asked)) in *.
    rewrite (Hresume sent Hblocked).
    pose proof (Hready sent) as Hr.
    unfold channel in Hr. rewrite H1 in Hr. cbn [Chan.buf] in Hr.
    rewrite Hr, Hk.
    cbn [result_of]. destruct (Byte.eqb b x00); reflexivity.
Qed.

(** Scenario: the fingerprint of a fresh session is put to the client, the
    remote task waits, and the client accepts with a [0x00] byte or
    refuses with any other. *)
Lemma confirmRemoteFingerprint_verdict_accept :
  let s := newSSH 2 (mkEnv [] [] []) in
  let run := confirmRemoteFingerprint [x53; x48; x41] (repeat x00 4096) s in
  is_blocked run = true /\
  result_of
    (resume run
       (state_of (local SSHClientRespondFingerprint (frame [[x00]] [])
                    (state_of run)))) = Some None /\
  result_of
    (resume run
       (state_of (local SSHClientRespondFingerprint (frame [[x01]] [])
                    (state_of run)))) =
    Some (Some ErrSSHRemoteFingerprintRefused).
Proof.
  intros s run.
  destruct (confirmRemoteFingerprint_verdict [x53; x48; x41]
              (repeat x00 4096) s eq_refl eq_refl)
    as (_ & _ & _ & Hb & _ & _ & _ & Hlast).
  split; [apply Hb; reflexivity |].
  split.
  - apply (Hlast (newSSH_inv 2 (mkEnv [] [] [])) eq_refl eq_refl x00 []).
  - apply (Hlast (newSSH_inv 2 (mkEnv [] [] [])) eq_refl eq_refl x01 []).
Defined.

(** ** Bootup *)

Section BootupClaim.

Variable ParseString : LimitedReader -> list byte * option error * LimitedReader.
Variable Address : Type.
Variable ParseAddress : LimitedReader -> Address * option error * LimitedReader.
Variable Address_String : Address -> string.
Variable ParsePrivateKey : list byte -> nat * option error.

(** C6.  [Bootup] hands the reader to the user-name parser, what that
    leaves to the address parser, and from what that leaves it fetches the
    byte of the auth method.  A user name that does not parse gives code
    0x01; an address that does not parse, or whose text is empty, code
    0x02; an auth byte that cannot be read, or is none of 0x00, 0x01 and
    0x02, code 0x03; in each case with no next state and the session as it
    was.  Otherwise [Bootup] counts the remote task in the wait group,
    starts it, and returns [local] as the next state with no error. *)
Theorem Bootup_errors (r : LimitedReader) (s : sshClient) :
  let run :=
    Bootup ParseString ParseAddress Address_String ParsePrivateKey r s in
  (SSHRequestErrorBadUserName = x01 /\
   SSHRequestErrorBadRemoteAddress = x02 /\
   SSHRequestErrorBadAuthMethod = x03 /\
   SSHAuthMethodNone = x00 /\ SSHAuthMethodPassphrase = x01 /\
   SSHAuthMethodPrivateKey = x02) /\
  (forall userName e r1,
     ParseString r = (userName, Some e, r1) ->
     run = Done (None, ToFSMError e SSHRequestErrorBadUserName, r1) s) /\
  (forall userName r1,
     ParseString r = (userName, None, r1) ->
     (forall addr e r2,
        ParseAddress r1 = (addr, Some e, r2) ->
        run = Done (None, ToFSMError e SSHRequestErrorBadRemoteAddress, r2)
                s) /\
     (forall addr r2,
        ParseAddress r1 = (addr, None, r2) ->
        (String.length (Address_String addr) = 0 ->
         run = Done (None,
                     ToFSMError ErrSSHInvalidAddress
                       SSHRequestErrorBadRemoteAddress, r2) s) /\
        (0 < String.length (Address_String addr) ->
         (forall rData e r3,
            FetchOneByte r2 = (rData, Some e, r3) ->
            run = Done (None, ToFSMError e SSHRequestErrorBadAuthMethod, r3)
                    s) /\
         (forall rData r3,
            FetchOneByte r2 = (rData, None, r3) ->
            let method := nth 0 rData x00 in
            (method <> SSHAuthMethodNone ->
             method <> SSHAuthMethodPassphrase ->
             method <> SSHAuthMethodPrivateKey ->
             run = Done (None,
                         ToFSMError ErrSSHInvalidAuthMethod
                           SSHRequestErrorBadAuthMethod, r3) s) /\
            (method = SSHAuthMethodNone \/
             method = SSHAuthMethodPassphrase \/
             method = SSHAuthMethodPrivateKey ->
             run = Done (Some local, NoFSMError, r3)
                     (record
                        (EvGoRemote userName (Address_String addr) method)
                        (set_remoteTask (Running Connecting)
                           (set_remoteCloseWait (remoteCloseWait s + 1)
                              s)))))))).
Proof.
  intros run. split; [repeat split |]. split.
  - intros userName e r1 E. subst run. unfold Bootup. now rewrite E.
  - intros userName r1 E. split.
    + intros addr e r2 Ea. subst run. unfold Bootup. now rewrite E, Ea.
    + intros addr r2 Ea. split.
      * intros Hl. subst run. unfold Bootup. rewrite E, Ea, Hl. reflexivity.
      * intros Hl. split.
        -- intros rData e r3 Ef. subst run. unfold Bootup.
           rewrite E, Ea.
           destruct (Nat.leb_spec (String.length (Address_String addr)) 0);
             [lia |].
           now rewrite Ef.
        -- intros rData r3 Ef method. split.
           ++ intros H0 H1 H2. subst run. unfold Bootup.
              rewrite E, Ea.
              destruct (Nat.leb_spec (String.length (Address_String addr)) 0);
                [lia |].
              rewrite Ef. fold method. unfold buildAuthMethod.
              destruct (Byte.eqb method SSHAuthMethodNone) eqn:G0;
                [apply Byte.byte_dec_bl in G0; contradiction |].
              destruct (Byte.eqb method SSHAuthMethodPassphrase) eqn:G1;
                [apply Byte.byte_dec_bl in G1; contradiction |].
              destruct (Byte.eqb method SSHAuthMethodPrivateKey) eqn:G2;
                [apply Byte.byte_dec_bl in G2; contradiction |].
              reflexivity.
           ++ intros Hm. subst run. unfold Bootup.
              rewrite E, Ea.
              destruct (Nat.leb_spec (String.length (Address_String addr)) 0);
                [lia |].
              rewrite Ef. fold method.
              destruct Hm as [-> | [-> | ->]]; reflexivity.
Qed.

End BootupClaim.

(** Scenario 1, with a codec that yields the user name alice and the
    address host:22 and leaves the auth byte 0x01 in the frame. *)
Example Bootup_passphrase :
  result_of
    (Bootup (fun r => ([x61; x6c; x69; x63; x65], None, r))
       (fun r => (tt, None, r)) (fun _ => "host:22"%string)
       (fun _ => (0, None))
       (frame [[x01]] []) (newSSH 2 (mkEnv [] [] []))) =
    Some (Some local, NoFSMError, frame [] []) /\
  trace (state_of
    (Bootup (fun r => ([x61; x6c; x69; x63; x65], None, r))
       (fun r => (tt, None, r)) (fun _ => "host:22"%string)
       (fun _ => (0, None))
       (frame [[x01]] []) (newSSH 2 (mkEnv [] [] [])))) =
    [EvGoRemote [x61; x6c; x69; x63; x65] "host:22" x01].
Proof. split; reflexivity. Qed.

(** ** Stdin frames *)

Lemma local_StdIn_run s s1 remote r :
  getRemote s = Done (remote, None) s1 ->
  local SSHClientStdIn r s = stdin_loop (fuel r) remote r s1.
Proof.
  intros Hg. unfold local.
  change (Byte.eqb SSHClientStdIn SSHClientStdIn) with true.
  cbv iota. unfold bind at 1. rewrite Hg. reflexivity.
Qed.

Lemma stdin_step w c remote rData s :
  writer remote = Some w -> closer remote = Some c ->
  exists s',
    (forall (A : Type) (K : M A),
       (wErr <- match writer remote with
                | Some w => writer_Write w rData
                | None => panic (option error)
                end ;;
        match wErr with
        | Some _ =>
            call_closer remote ;;
            l_Debug "Failed to write data to remote: %s"
        | None => ret tt
        end ;;
        K) s = K s') /\
    trace s' =
      trace s ++
      EvWrite w rData ::
      match fst (next_result (writeResults (env s))) with
      | Some _ => [EvCloser c; EvDebug "Failed to write data to remote: %s"]
      | None => []
      end /\
    writeResults (env s') = snd (next_result (writeResults (env s))).
Proof.
  intros Hw Hc. rewrite Hw.
  destruct (next_result (writeResults (env s))) as [wErr rest] eqn:E.
  set (s1 := record (EvWrite w rData)
               (set_env (mkEnv (sendManualResults (env s)) rest
                           (windowChangeResults (env s))) s)).
  cbn [fst snd]. destruct wErr.
  - exists (record (EvDebug "Failed to write data to remote: %s")
              (record (EvCloser c) s1)).
    split; [| split].
    + intros A K. unfold bind, writer_Write, call_closer. rewrite E, Hc.
      reflexivity.
    + subst s1. fields. now rewrite <- !app_assoc.
    + reflexivity.
  - exists s1. split; [| split].
    + intros A K. unfold bind, writer_Write. rewrite E. reflexivity.
    + reflexivity.
    + reflexivity.
Qed.

Lemma stdin_loop_frame w c remote chunks : forall later turns s,
  writer remote = Some w -> closer remote = Some c ->
  Forall (fun chunk => chunk <> []) chunks ->
  List.length chunks < turns ->
  exists s',
    stdin_loop turns remote (frame chunks later) s =
      Done (None, frame [] later) s' /\
    trace s' =
      trace s ++ stdin_events w c chunks (writeResults (env s)).
Proof.
  induction chunks as [| chunk rest IH]; intros later turns s Hw Hc Hne Ht.
  - exists s. destruct turns; cbn; now rewrite app_nil_r.
  - inversion Hne as [| ? ? Hchunk Hrest]; subst.
    destruct turns as [| turns]; [cbn in Ht; lia |].
    cbn [stdin_loop]. rewrite Completed_frame.
    assert (Hpos : 0 < List.length (List.concat (chunk :: rest))).
    { cbn [List.concat]. rewrite length_app.
      destruct chunk; [contradiction | cbn; lia]. }
    destruct (Nat.eqb_spec (List.length (List.concat (chunk :: rest))) 0);
      [lia |].
    rewrite Buffered_frame by exact Hpos.
    destruct (stdin_step w c remote chunk s Hw Hc) as (s1 & E1 & T1 & W1).
    rewrite E1.
    destruct (IH later turns s1 Hw Hc Hrest) as (s' & E' & T');
      [cbn in Ht; lia |].
    exists s'. split; [exact E' |].
    rewrite T', T1, W1. cbn [stdin_events]. now rewrite <- app_assoc.
Qed.

Lemma Fetch_error k r bs e r' :
  Fetch k r = (bs, Some e, r') -> e = io_EOF \/ In (Fault e) (source r).
Proof.
  unfold Fetch. destruct (Completed r); [intros E; injection E; auto |].
  destruct (source r) as [| [data | e0] rest]; intros E.
  - injection E; auto.
  - discriminate.
  - injection E as _ <- _. right. now left.
Qed.

Lemma Fetch_faults k r bs r' e :
  Fetch k r = (bs, None, r') ->
  In (Fault e) (source r') -> In (Fault e) (source r).
Proof.
  unfold Fetch. destruct (Completed r); [discriminate |].
  destruct (source r) as [| [data | e0] rest]; intros E; try discriminate.
  injection E as _ <-. cbn [source].
  destruct (skipn _ data); intros H; [now right |].
  destruct H as [H | H]; [discriminate | now right].
Qed.

Lemma stdin_loop_result remote turns : forall r,
  isValid remote = true ->
  exists res,
    (forall s, result_of (stdin_loop turns remote r s) = Some res) /\
    (forall e r', res = (Some e, r') ->
       e = io_EOF \/ In (Fault e) (source r)).
Proof.
  induction turns as [| turns IH]; intros r Hv.
  - cbn. destruct (Completed r).
    + exists (None, r). split; [reflexivity | intros e r' E; discriminate].
    + exists (Some io_EOF, r). split; [reflexivity |].
      intros e r' E. injection E as <- _. now left.
  - cbn [stdin_loop]. destruct (Completed r).
    { exists (None, r). split; [reflexivity | intros e r' E; discriminate]. }
    destruct (Buffered r) as [[rData rErr] r1] eqn:Eb.
    destruct rErr as [e0 |].
    { exists (Some e0, r1). split; [reflexivity |].
      intros e r' E. injection E as <- _.
      now apply (Fetch_error _ _ _ _ _ Eb). }
    destruct (IH r1 Hv) as (res & Hres & Herr).
    exists res. split.
    + intros s. destruct (valid_handle remote Hv) as (w & c & sess & Hw & Hc & _).
      destruct (stdin_step w c remote rData s Hw Hc) as (s1 & E1 & _).
      rewrite E1. apply Hres.
    + intros e r' E. destruct (Herr e r' E) as [H | H]; [now left |].
      right. now apply (Fetch_faults _ _ _ _ _ Eb).
Qed.

(** C9.  A stdin frame handled with a valid remote handle.  When its
    payload arrives whole, [local] writes every chunk to the remote stdin
    in order, answers each write that fails with [closer()] and a log
    entry, goes on with the chunks that remain, and returns nil.  What it
    returns for a frame never depends on how the writes went: an error can
    only be the end or a fault of the transport under the reader.  Without
    a handle the frame is turned down with "remote SSH connection is
    unavailable" before anything is read. *)
Theorem local_StdIn_write_failures
  (s s1 : sshClient) (remote : sshRemoteConn) (w c : nat) :
  getRemote s = Done (remote, None) s1 ->
  isValid remote = true ->
  writer remote = Some w ->
  closer remote = Some c ->
  (forall chunks later,
     Forall (fun chunk => chunk <> []) chunks ->
     exists s',
       local SSHClientStdIn (frame chunks later) s =
         Done (None, frame [] later) s' /\
       trace s' =
         trace s1 ++ stdin_events w c chunks (writeResults (env s1))) /\
  (forall r,
     exists res,
       (forall d d1,
          getRemote d = Done (remote, None) d1 ->
          result_of (local SSHClientStdIn r d) = Some res) /\
       (forall e r', res = (Some e, r') ->
          e = io_EOF \/ In (Fault e) (source r))) /\
  (forall d d1 h e r,
     getRemote d = Done (h, Some e) d1 ->
     local SSHClientStdIn r d = Done (Some e, r) d1 /\
     d1 = d /\
     e = ErrSSHRemoteConnUnavailable /\
     Error e = "remote SSH connection is unavailable"%string).
Proof.
  intros Hg Hv Hw Hc. split; [| split].
  - intros chunks later Hne.
    rewrite (local_StdIn_run s s1 remote _ Hg).
    apply stdin_loop_frame; [exact Hw | exact Hc | exact Hne |].
    apply fuel_frame.
  - intros r. destruct (stdin_loop_result remote (fuel r) r Hv)
      as (res & Hres & Herr).
    exists res. split; [| exact Herr].
    intros d d1 Hd. rewrite (local_StdIn_run d d1 remote r Hd). apply Hres.
  - intros d d1 h e r Hd.
    assert (Hrun : local SSHClientStdIn r d = Done (Some e, r) d1).
    { unfold local.
      change (Byte.eqb SSHClientStdIn SSHClientStdIn) with true.
      cbv iota. unfold bind at 1. rewrite Hd. reflexivity. }
    split; [exact Hrun |].
    destruct (getRemote_cases d)
      as [[_ H] | [(h' & rest & _ & _ & H) | [(_ & _ & _ & H) | (g & k & H)]]];
      rewrite H in Hd; try discriminate.
    injection Hd as _ <- <-. repeat split.
Qed.

(** A frame of two chunks whose first write fails. *)
Lemma local_StdIn_write_failures_first_fails :
  let s := set_remoteConn (mkRemoteConn (Some 1) (Some 2) (Some 3))
             (newSSH 2 (mkEnv [] [Some (external_error "broken pipe")] []))
  in
  exists s',
    local SSHClientStdIn (frame [[x6c; x73]; [x0a]] []) s =
      Done (None, frame [] []) s' /\
    trace s' =
      [EvWrite 1 [x6c; x73]; EvCloser 2;
       EvDebug "Failed to write data to remote: %s"; EvWrite 1 [x0a]].
Proof.
  intros s.
  destruct (local_StdIn_write_failures s s
              (mkRemoteConn (Some 1) (Some 2) (Some 3)) 1 2
              eq_refl eq_refl eq_refl eq_refl) as [H _].
  apply (H [[x6c; x73]; [x0a]] []).
  repeat constructor; discriminate.
Defined.

(** ** Close twice *)

Lemma closing_fixed s :
  credentialProcessed s = true -> fingerprintProcessed s = true ->
  credentialReceiveClosed s = true ->
  fingerprintVerifyResultReceiveClosed s = true ->
  closing s = s.
Proof.
  intros H1 H2 H3 H4. unfold closing. fields. rewrite H3. fields.
  rewrite H4. destruct s. cbn in *. subst. reflexivity.
Qed.


Lemma getRemote_settled s :
  session_inv s -> handle_settled s ->
  isValid (remoteConn s) = true /\
  getRemote s = Done (remoteConn s, None) s \/
  isValid (remoteConn s) = false /\
  getRemote s = Done (zeroRemoteConn, Some ErrSSHRemoteConnUnavailable) s.
Proof.
  intros Hs Hh. destruct (isValid (remoteConn s)) eqn:Hv.
  - left. split; [reflexivity | now apply getRemote_cached].
  - right. split; [reflexivity |].
    destruct Hh as [Hv' | [Hx Hb]]; [congruence |].
    apply getRemote_unavailable; try assumption.
    destruct (inv_remote_closed Hs) as [Hc _]. congruence.
Qed.

(** [Close] on a closed session returns nil at once, and leaves the
    session as it is but for the call of [closer] on a cached handle. *)
Lemma Close_closed s :
  session_inv s -> closed s ->
  exists s2,
    Close s = Done None s2 /\
    (s2 = s \/
     exists c, closer (remoteConn s) = Some c /\ s2 = record (EvCloser c) s).
Proof.
  intros Hs ((H1 & H2 & H3 & H4) & Hd & Hw & Hx & Hh).
  rewrite Close_run by exact Hs. rewrite closing_fixed by assumption.
  unfold Close_tail, bind at 1.
  destruct (getRemote_settled s Hs Hh) as [[Hv ->] | [Hv ->]];
    cbn [bind_res].
  - destruct (valid_handle _ Hv) as (w & c & sess & _ & Hcl & _).
    exists (record (EvCloser c) s). split; [| right; eauto].
    unfold bind at 1, call_closer. rewrite Hcl. cbn [bind_res modify].
    unfold bind at 1, baseCtxCancel, bind at 1, gets at 1.
    cbn [bind_res]. fields. rewrite Hd. cbn [bind_res ret].
    unfold bind, remoteCloseWait_Wait, await. fields. rewrite Hw.
    reflexivity.
  - exists s. split; [| now left].
    unfold bind at 1. cbn [bind_res ret].
    unfold bind at 1, baseCtxCancel, bind at 1, gets at 1.
    cbn [bind_res]. rewrite Hd. cbn [bind_res ret].
    unfold bind, remoteCloseWait_Wait, await. rewrite Hw. reflexivity.
Qed.

Lemma neutral_returns (A : Type) (m : M A) s :
  neutral m -> is_blocked (m s) = false.
Proof. intros H. now destruct (H s) as (a & s' & -> & _). Qed.

(** No frame suspends the control goroutine once the handle is settled. *)
Lemma local_settled_returns marker r s :
  session_inv s -> handle_settled s ->
  credentialProcessed s = true -> fingerprintProcessed s = true ->
  is_blocked (local marker r s) = false.
Proof.
  intros Hs Hh Hc Hf. unfold local.
  destruct (Byte.eqb marker SSHClientStdIn).
  { unfold bind at 1.
    destruct (getRemote_settled s Hs Hh) as [[Hv ->] | [Hv ->]];
      cbn [bind_res]; [| reflexivity].
    now apply neutral_returns, neutral_stdin_loop. }
  destruct (Byte.eqb marker SSHClientResize).
  { unfold bind at 1.
    destruct (getRemote_settled s Hs Hh) as [[Hv ->] | [Hv ->]];
      cbn [bind_res]; [| reflexivity].
    destruct (ReadFull 4 r) as [[b rErr] r'].
    destruct rErr; [reflexivity |].
    destruct (valid_handle _ Hv) as (w & c & sess & _ & _ & ->).
    apply neutral_returns.
    apply neutral_bind; [apply neutral_session_WindowChange |].
    intros wcErr. apply neutral_bind; [| intros _; apply neutral_ret].
    destruct wcErr; [apply neutral_l_Debug | apply neutral_ret]. }
  destruct (Byte.eqb marker SSHClientRespondFingerprint).
  { unfold bind at 1, gets at 1. cbn [bind_res]. now rewrite Hf. }
  destruct (Byte.eqb marker SSHClientRespondCredential).
  { unfold bind at 1, gets at 1. cbn [bind_res]. now rewrite Hc. }
  reflexivity.
Qed.

Lemma Release_returns s : is_blocked (Release s) = false.
Proof.
  unfold Release, bind at 1, baseCtxCancel, bind at 1, gets at 1.
  cbn [bind_res]. now destruct (baseCtxCancelDone s).
Qed.

Lemma errorOf_returns (A : Type) (f : A -> option error) (m : M A) s :
  is_blocked (m s) = false -> is_blocked (errorOf f m s) = false.
Proof.
  unfold errorOf, bind. intros H. destruct (m s); [reflexivity | | reflexivity].
  discriminate.
Qed.

Lemma settle_control_returned c r sys :
  is_blocked r = false -> control (fst (settle_control c r sys)) = None.
Proof. destruct r; [reflexivity | discriminate | reflexivity]. Qed.

Lemma settle_remote_control r sys :
  control (settle_remote r sys) = control sys.
Proof. now destruct r. Qed.

Section CloseClaim.

Variable ParseString : LimitedReader -> list byte * option error * LimitedReader.
Variable Address : Type.
Variable ParseAddress : LimitedReader -> Address * option error * LimitedReader.
Variable Address_String : Address -> string.
Variable ParsePrivateKey : list byte -> nat * option error.

Local Notation "'exec_'" :=
  (exec ParseString ParseAddress Address_String ParsePrivateKey).
Local Notation "'step_'" :=
  (step ParseString ParseAddress Address_String ParsePrivateKey).
Local Notation "'run_'" :=
  (run ParseString ParseAddress Address_String ParsePrivateKey).

(** Once [Close] has returned no call is left suspended, whatever is done
    next. *)
Lemma exec_closed a sys :
  system_inv sys -> control sys = None -> closed (client sys) ->
  control (fst (exec_ a sys)) = None.
Proof.
  intros (Hc & Hs & _ & _) Hn Hcl.
  pose proof Hcl as ((H1 & H2 & _) & _ & _ & Hx & Hh).
  unfold exec. rewrite Hc, Hn.
  destruct a; cbn [control_call fst];
    try exact Hn;
    try (destruct (remote sys); try exact Hn;
         destruct (remote_step _ _ _); try exact Hn;
         cbn [fst]; now rewrite settle_remote_control).
  - destruct (remoteTask (client sys)); try discriminate. exact Hn.
  - apply settle_control_returned, errorOf_returns.
    now apply local_settled_returns.
  - apply settle_control_returned.
    destruct (Close_closed (client sys) Hs Hcl) as (s2 & -> & _).
    reflexivity.
  - apply settle_control_returned, Release_returns.
  - destruct (remote sys); [| exact Hn]. cbn [fst].
    now rewrite settle_remote_control.
  - now destruct (remoteTask (client sys)).
Qed.

Lemma run_closed acts : forall sys,
  system_inv sys -> control sys = None -> closed (client sys) ->
  system_inv (run_ acts sys) /\ control (run_ acts sys) = None /\
  closed (client (run_ acts sys)).
Proof.
  induction acts as [| a rest IH]; intros sys Hsys Hn Hcl.
  - now cbn.
  - cbn [run]. unfold step.
    destruct (exec_inv ParseString Address ParseAddress Address_String
                ParsePrivateKey a sys Hsys) as (H1 & H2 & _).
    apply IH; [exact H1 | now apply exec_closed |].
    apply (closed_stable (client sys)); try assumption;
      [apply Hsys | apply H1].
Qed.

Lemma exec_returns a sys c e :
  snd (exec_ a sys) = Some (c, e) -> control (fst (exec_ a sys)) = None.
Proof.
  unfold exec. destruct (crashed sys); [discriminate |].
  assert (Hset : forall c0 r, snd (settle_control c0 r sys) = Some (c, e) ->
                              control (fst (settle_control c0 r sys)) = None).
  { intros c0 r. destruct r; cbn; [reflexivity | discriminate | discriminate]. }
  destruct a; cbn [control_call];
    try (destruct (control sys) as [[c0 r0] |]; [discriminate |]);
    try (apply Hset);
    try (destruct (remote sys); [| destruct (remote_step _ _ _)];
         cbn [snd]; discriminate).
  - destruct (remoteTask (client sys)); try discriminate. apply Hset.
  - destruct (control sys) as [[c0 r0] |]; [apply Hset | discriminate].
  - destruct (remote sys); cbn [snd]; discriminate.
  - destruct (remoteTask (client sys)); cbn [snd]; discriminate.
Qed.

(** C8.  [Close] is idempotent.  In the session reached by any schedule
    of calls, callbacks, wake-ups and reads from a fresh session, nothing
    has panicked (no channel was closed twice): [credentialReceive] and
    [fingerprintVerifyResultReceive] have each been closed at most once,
    exactly when their flag is set, and the base context has been
    cancelled at most once.  A call of [Close] that returns there returns
    nil, and only once the wait group is drained and neither the remote
    task nor the stderr pump is running.  From then on, whatever is done
    next, a further [Close] returns nil at once and leaves the session as
    it found it, but for the call of [closer] on the cached remote
    handle. *)
Theorem Close_idempotent
  (headerSize : nat) (e : environment) (acts : list action) :
  let sys := run_ acts (boot headerSize e) in
  let s := client sys in
  crashed sys = false /\
  count (is_close ch_credentialReceive) (trace s) =
    Nat.b2n (credentialReceiveClosed s) /\
  count (is_close ch_credentialReceive) (trace s) <= 1 /\
  count (is_close ch_fingerprintVerifyResultReceive) (trace s) =
    Nat.b2n (fingerprintVerifyResultReceiveClosed s) /\
  count (is_close ch_fingerprintVerifyResultReceive) (trace s) <= 1 /\
  count is_ctx_cancel (trace s) <= 1 /\
  forall a err,
    snd (exec_ a sys) = Some (CallClose, err) ->
    let sys1 := step_ a sys in
    err = None /\
    remoteCloseWait (client sys1) = 0 /\
    tasks_exited (client sys1) /\
    credentialReceiveClosed (client sys1) = true /\
    fingerprintVerifyResultReceiveClosed (client sys1) = true /\
    baseCtxCancelDone (client sys1) = true /\
    forall more,
      let sys2 := run_ more sys1 in
      exists s3,
        exec_ DoClose sys2 =
          (mkSystem s3 None (remote sys2) false, Some (CallClose, None)) /\
        (s3 = client sys2 \/
         exists c, closer (remoteConn (client sys2)) = Some c /\
                   s3 = record (EvCloser c) (client sys2)).
Proof.
  intros sys s.
  destruct (run_inv ParseString Address ParseAddress Address_String
              ParsePrivateKey acts (boot headerSize e)
              (boot_inv headerSize e)) as [Hsys _].
  fold sys in Hsys. pose proof Hsys as (Hc & Hs & _). fold s in Hs.
  destruct (inv_credential_closed Hs) as [_ Hcc].
  destruct (inv_fingerprint_closed Hs) as [_ Hfc].
  pose proof (inv_cancel_once Hs) as Hk.
  split; [exact Hc |]. split; [exact Hcc |].
  split; [rewrite Hcc; destruct (credentialReceiveClosed s); cbn; lia |].
  split; [exact Hfc |].
  split; [rewrite Hfc;
          destruct (fingerprintVerifyResultReceiveClosed s); cbn; lia |].
  split; [rewrite Hk; destruct (baseCtxCancelDone s); cbn; lia |].
  intros a err E sys1.
  destruct (exec_inv ParseString Address ParseAddress Address_String
              ParsePrivateKey a sys Hsys) as (H1 & _ & H3).
  destruct (H3 _ _ E) as [Hs1 [-> Hcl]].
  fold (step_ a sys) in H1, Hs1, Hcl. fold sys1 in H1, Hs1, Hcl.
  pose proof Hcl as ((_ & _ & Hcc1 & Hfc1) & Hd1 & Hw1 & Hx1 & _).
  split; [reflexivity |]. split; [exact Hw1 |].
  split.
  { pose proof (inv_wait Hs1) as W. rewrite Hw1 in W.
    unfold tasks_exited. lia. }
  split; [exact Hcc1 |]. split; [exact Hfc1 |]. split; [exact Hd1 |].
  intros more sys2.
  destruct (run_closed more sys1 H1
              (exec_returns a sys CallClose None E) Hcl)
    as (Hsys2 & Hn2 & Hcl2).
  fold sys2 in Hsys2, Hn2, Hcl2.
  pose proof Hsys2 as (Hc2 & Hs2 & _).
  destruct (Close_closed (client sys2) Hs2 Hcl2) as (s3 & E3 & Hs3).
  exists s3. split; [| exact Hs3].
  unfold exec. rewrite Hc2, Hn2. cbn [control_call]. rewrite E3.
  cbn [settle_control]. now rewrite Hc2.
Qed.

End CloseClaim.

(** Scenario: [Close] is called while the shell is served; it waits for
    the remote task and the stderr pump, and returns when it is woken
    after both have returned.  Whatever follows, one more [Close] returns
    at once. *)
Lemma Close_idempotent_teardown :
  let ParseString := fun r : LimitedReader => ([x61], @None error, r) in
  let ParseAddress := fun r : LimitedReader => (tt, @None error, r) in
  let Address_String := fun _ : unit => "host:22"%string in
  let ParsePrivateKey := fun _ : list byte => (0, @None error) in
  let buf := [x00; x00; x00; x00] in
  let sys :=
    run ParseString ParseAddress Address_String ParsePrivateKey
      [DoBootup (frame [[x01]] []); ShellStarted 1 2 3; ConnectSucceed buf;
       DoClose; StdoutRead None buf; StderrRead None buf]
      (boot 2 (mkEnv [] [] [])) in
  is_none (control sys) = false /\
  snd (exec ParseString ParseAddress Address_String ParsePrivateKey
         WakeControl sys) = Some (CallClose, None) /\
  forall more,
    snd (exec ParseString ParseAddress Address_String ParsePrivateKey
           DoClose
           (run ParseString ParseAddress Address_String ParsePrivateKey
              more
              (step ParseString ParseAddress Address_String
                 ParsePrivateKey WakeControl sys))) =
      Some (CallClose, None) /\
    is_none
      (control
         (step ParseString ParseAddress Address_String ParsePrivateKey
            DoClose
            (run ParseString ParseAddress Address_String ParsePrivateKey
               more
               (step ParseString ParseAddress Address_String
                  ParsePrivateKey WakeControl sys)))) = true.
Proof.
  intros ParseString ParseAddress Address_String ParsePrivateKey buf sys.
  assert (E : snd (exec ParseString ParseAddress Address_String
                     ParsePrivateKey WakeControl sys) =
              Some (CallClose, None)) by (vm_compute; reflexivity).
  split; [vm_compute; reflexivity |]. split; [exact E |].
  intros more.
  destruct (Close_idempotent ParseString unit ParseAddress Address_String
              ParsePrivateKey 2 (mkEnv [] [] [])
              [DoBootup (frame [[x01]] []); ShellStarted 1 2 3;
               ConnectSucceed buf; DoClose; StdoutRead None buf;
               StderrRead None buf])
    as (_ & _ & _ & _ & _ & _ & H).
  destruct (H WakeControl None E) as (_ & _ & _ & _ & _ & _ & Hmore).
  destruct (Hmore more) as (s3 & E3 & _).
  split.
  - exact (f_equal snd E3).
  - exact (f_equal (fun x => is_none (control (fst x))) E3).
Defined.

(** ** A credential that is too large *)

Lemma local_RespondCredential_oversize s chunks later :
  credentialProcessed s = false ->
  sshCredentialMaxSize < List.length (List.concat chunks) ->
  exists r',
    local SSHClientRespondCredential (frame chunks later) s =
      Done (Some ErrSSHCredentialDataTooLarge, r')
        (set_credentialProcessed true s).
Proof.
  intros Hp Hlen. rewrite local_RespondCredential_run by exact Hp.
  change (Remains (frame chunks later))
    with (List.length (List.concat chunks)).
  destruct (Nat.ltb_spec sshCredentialMaxSize
              (List.length (List.concat chunks))); [| lia].
  destruct (credential_loop_beyond chunks later (fuel (frame chunks later))
              sshCredentialMaxSize [] 0) as (buf' & r' & Hrun).
  - apply fuel_frame.
  - lia.
  - exact Hlen.
  - rewrite Hrun. now exists r'.
Qed.

(** The password callback is suspended nowhere but in its receive from
    [credentialReceive]. *)
Lemma passwordCallback_blocked b s0 :
  is_blocked (passwordCallback b s0) = true ->
  exists asked k,
    passwordCallback b s0 = Blocked credential_ready asked k /\
    forall x s2, k x s2 = Done (password_result x) (disabled s2).
Proof.
  remember (passwordCallback b s0) as run eqn:Er.
  unfold passwordCallback in Er.
  unfold bind at 1, enableRemoteReadTimeoutRetry, modify at 1 in Er.
  cbn [bind_res] in Er.
  set (s1 := set_remoteReadTimeoutRetry true s0) in Er.
  unfold bind at 1, bind at 1, gets at 1 in Er. cbn [bind_res] in Er.
  unfold bind at 1, slice_from in Er.
  destruct (List.length b <? HeaderSize s1);
    [subst run; discriminate |].
  cbn [bind_res ret] in Er. unfold bind at 1 in Er.
  destruct (SendManual_run SSHServerConnectRequestCredential
              (skipn (HeaderSize s1) b) s1)
    as (wErr & s2 & E & _). rewrite E in Er. cbn [bind_res] in Er.
  destruct wErr; [subst run; discriminate |].
  unfold bind at 1, bind at 1, recv_credential, chan_recv, await in Er.
  fold (credential_ready s2) in Er.
  destruct (credential_ready s2) as [[[x |] s3] |];
    try (subst run; discriminate).
  intros _. cbn [bind_res] in Er. subst run.
  eexists s2, _. split; [reflexivity |].
  intros [x |] s3; reflexivity.
Qed.

Section CredentialClaim.

Variable ParseString : LimitedReader -> list byte * option error * LimitedReader.
Variable Address : Type.
Variable ParseAddress : LimitedReader -> Address * option error * LimitedReader.
Variable Address_String : Address -> string.
Variable ParsePrivateKey : list byte -> nat * option error.

Local Notation "'exec_'" :=
  (exec ParseString ParseAddress Address_String ParsePrivateKey).
Local Notation "'step_'" :=
  (step ParseString ParseAddress Address_String ParsePrivateKey).
Local Notation "'run_'" :=
  (run ParseString ParseAddress Address_String ParsePrivateKey).

(** C10.  A credential response that is too large uses up the one attempt
    of the session and delivers nothing.  In the session reached by any
    schedule, with the control goroutine free and no credential processed
    yet, a [SSHClientRespondCredential] frame whose payload has more than
    [sshCredentialMaxSize] bytes returns "credential was too large"; the
    session it leaves is the one before with [credentialProcessed] set,
    so not the same.  From then on, whatever is done next: nothing is ever
    sent on [credentialReceive], which stays empty; every further
    credential frame is refused with "unexpected credential data respond";
    a password callback suspended in its receive stays suspended as long
    as the channel is not closed, and returns [ErrSSHAuthCancelled] once
    it is; and [Close] closes it. *)
Theorem oversize_credential_consumes_attempt
  (headerSize : nat) (e : environment) (acts : list action)
  (chunks : list (list byte)) (later : list delivery) :
  let sys := run_ acts (boot headerSize e) in
  let a := DoLocal SSHClientRespondCredential (frame chunks later) in
  let sys1 := step_ a sys in
  control sys = None ->
  credentialProcessed (client sys) = false ->
  sshCredentialMaxSize < List.length (List.concat chunks) ->
  snd (exec_ a sys) =
    Some (CallLocal SSHClientRespondCredential,
          Some ErrSSHCredentialDataTooLarge) /\
  Error ErrSSHCredentialDataTooLarge = "credential was too large"%string /\
  client sys1 = set_credentialProcessed true (client sys) /\
  client sys1 <> client sys /\
  forall more,
    let s2 := client (run_ more sys1) in
    credentialProcessed s2 = true /\
    count is_send_credential (trace s2) = 0 /\
    Chan.buf (credentialReceive s2) = [] /\
    (forall r,
       local SSHClientRespondCredential r s2 =
         Done (Some ErrSSHUnexpectedCredentialDataRespond, r) s2) /\
    Error ErrSSHUnexpectedCredentialDataRespond =
      "unexpected credential data respond"%string /\
    (forall b s0,
       is_blocked (passwordCallback b s0) = true ->
       if credentialReceiveClosed s2
       then result_of (resume (passwordCallback b s0) s2) =
              Some ([], Some ErrSSHAuthCancelled)
       else is_blocked (resume (passwordCallback b s0) s2) = true) /\
    credentialReceiveClosed (state_of (Close s2)) = true.
Proof.
  intros sys a sys1 Hn Hp Hlen.
  destruct (run_inv ParseString Address ParseAddress Address_String
              ParsePrivateKey acts (boot headerSize e)
              (boot_inv headerSize e)) as [Hsys _].
  fold sys in Hsys. pose proof Hsys as (Hc & Hs & _).
  destruct (local_RespondCredential_oversize (client sys) chunks later
              Hp Hlen) as (r' & Hrun).
  assert (Hexec : exec_ a sys =
    (mkSystem (set_credentialProcessed true (client sys)) None (remote sys)
       false,
     Some (CallLocal SSHClientRespondCredential,
           Some ErrSSHCredentialDataTooLarge))).
  { unfold exec, a. rewrite Hc, Hn. cbn [control_call].
    unfold errorOf, bind. rewrite Hrun. cbn. now rewrite Hc. }
  assert (H1 : client sys1 = set_credentialProcessed true (client sys)).
  { unfold sys1, step. now rewrite Hexec. }
  split; [now rewrite Hexec |]. split; [reflexivity |].
  split; [exact H1 |].
  split.
  { intros E. rewrite H1 in E.
    assert (E' : credentialProcessed
                   (set_credentialProcessed true (client sys)) = false)
      by (now rewrite E).
    discriminate. }
  intros more s2.
  destruct (exec_inv ParseString Address ParseAddress Address_String
              ParsePrivateKey a sys Hsys) as (Hsys1 & _ & _).
  fold (step_ a sys) in Hsys1. fold sys1 in Hsys1.
  destruct (run_inv ParseString Address ParseAddress Address_String
              ParsePrivateKey more sys1 Hsys1) as [Hsys2 (He & _)].
  pose proof Hsys2 as (_ & Hs2 & _). fold s2 in He, Hs2.
  destruct (inv_credential_unused Hs Hp) as [_ Hcount].
  destruct He as [Hp2 Hcount2]; [now rewrite H1 |].
  rewrite H1 in Hcount2. cbn [trace set_credentialProcessed] in Hcount2.
  rewrite Hcount in Hcount2.
  assert (Hbuf : Chan.buf (credentialReceive s2) = []).
  { pose proof (inv_credential_buffer Hs2) as Hl. rewrite Hcount2 in Hl.
    destruct (Chan.buf (credentialReceive s2)); [reflexivity |].
    cbn in Hl. lia. }
  split; [exact Hp2 |]. split; [exact Hcount2 |]. split; [exact Hbuf |].
  split; [intros r; now apply local_RespondCredential_again |].
  split; [reflexivity |].
  split.
  - intros b s0 Hb.
    destruct (passwordCallback_blocked b s0 Hb) as (asked & k & -> & Hk).
    destruct (inv_credential_closed Hs2) as [Hcl _].
    cbn [resume]. unfold credential_ready, Chan.pop. rewrite Hbuf, <- Hcl.
    destruct (credentialReceiveClosed s2); [| reflexivity].
    now rewrite Hk.
  - rewrite Close_run by exact Hs2.
    destruct (closing_flags s2) as (_ & _ & Hf & _).
    pose proof (ok_state_evolves _ _ _ _
                  (Close_tail_ok (closing s2) (closing_inv s2 Hs2)
                     (closing_flags s2))) as (_ & _ & Hk & _).
    now apply Hk.
Qed.

End CredentialClaim.

(** Scenario: the password callback waits for the passphrase, and the
    client answers with 4097 bytes. *)
Lemma oversize_credential_consumes_attempt_4097 :
  let ParseString := fun r : LimitedReader => ([x61], @None error, r) in
  let ParseAddress := fun r : LimitedReader => (tt, @None error, r) in
  let Address_String := fun _ : unit => "host:22"%string in
  let ParsePrivateKey := fun _ : list byte => (0, @None error) in
  let sys :=
    run ParseString ParseAddress Address_String ParsePrivateKey
      [DoBootup (frame [[x01]] []); AskPassword (repeat x00 4096)]
      (boot 2 (mkEnv [] [] [])) in
  let a := DoLocal SSHClientRespondCredential (frame [repeat x61 4097] []) in
  is_none (remote sys) = false /\
  snd (exec ParseString ParseAddress Address_String ParsePrivateKey a sys) =
    Some (CallLocal SSHClientRespondCredential,
          Some ErrSSHCredentialDataTooLarge) /\
  forall more,
    count is_send_credential
      (trace
         (client
            (run ParseString ParseAddress Address_String ParsePrivateKey
               more
               (step ParseString ParseAddress Address_String
                  ParsePrivateKey a sys)))) = 0.
Proof.
  intros ParseString ParseAddress Address_String ParsePrivateKey sys a.
  destruct (oversize_credential_consumes_attempt ParseString unit
              ParseAddress Address_String ParsePrivateKey 2
              (mkEnv [] [] [])
              [DoBootup (frame [[x01]] []); AskPassword (repeat x00 4096)]
              [repeat x61 4097] [])
    as (H1 & _ & _ & _ & H5).
  - vm_compute. reflexivity.
  - vm_compute. reflexivity.
  - cbn [List.concat]. rewrite app_nil_r, repeat_length.
    unfold sshCredentialMaxSize. apply Nat.lt_succ_diag_r.
  - split; [vm_compute; reflexivity |]. split; [exact H1 |].
    intros more. apply (H5 more).
Defined.

(** * Further properties *)

(** ** Reads of the dialled connection *)

Lemma is_timeout_spec e : is_timeout e = true <-> e = Some (net_Error true).
Proof.
  destruct e as [[| | | | | | | | | | | | [|] |] |]; cbn; split;
    try discriminate; try reflexivity.
Qed.

Lemma Read_first timeout r rest d :
  is_timeout (rErr r) = false \/
  remoteReadTimeoutRetry d = false /\
  remoteReadForceRetryNextTimeout d = false ->
  sshRemoteConnWrapper_Read timeout (r :: rest) d =
    Done (Some (rLen r, rErr r), rest) d.
Proof.
  intros H. cbn [sshRemoteConnWrapper_Read].
  destruct (rErr r) as [[| | | | | | | | | | | | [|] |] |] eqn:E;
    try reflexivity.
  destruct H as [H | [H1 H2]]; [discriminate |].
  unfold bind. now rewrite requestTimeoutRetry_refused.
Qed.

(** X1.  [Read] hands a read that did not time out to its caller as it is,
    length and error, without calling the hook; and so it does with a
    timeout when retry is neither enabled nor forced.  The session, read
    deadline included, is left as it was. *)
Theorem Read_passes_through
  (timeout : Z) (r : conn_read) (rest : list conn_read) (d : sshClient) :
  is_timeout (rErr r) = false \/
  remoteReadTimeoutRetry d = false /\
  remoteReadForceRetryNextTimeout d = false ->
  sshRemoteConnWrapper_Read timeout (r :: rest) d =
    Done (Some (rLen r, rErr r), rest) d.
Proof. apply Read_first. Qed.

Lemma Read_passes_through_reset :
  sshRemoteConnWrapper_Read 30
    [mkRead 7 (Some (external_error "connection reset")) 100;
     mkRead 5 None 101]
    (set_remoteReadTimeoutRetry true (newSSH 2 (mkEnv [] [] []))) =
    Done (Some (7, Some (external_error "connection reset")),
          [mkRead 5 None 101])
      (set_remoteReadTimeoutRetry true (newSSH 2 (mkEnv [] [] []))).
Proof.
  apply (Read_passes_through 30
           (mkRead 7 (Some (external_error "connection reset")) 100)).
  left. reflexivity.
Defined.

Lemma last_cons_default (A : Type) (l : list A) : forall x a b,
  last (x :: l) a = last (x :: l) b.
Proof.
  induction l as [| y l IH]; intros x a b; [reflexivity |].
  change (last (y :: l) a = last (y :: l) b). apply IH.
Qed.

(** X2.  While retry is enabled, [Read] takes any number of timeouts in a
    row: each one sets the read deadline anew, to its time plus the
    timeout, and the caller gets the first read that is not a timeout; the
    latch is left as it was.  Until such a read comes, [Read] has not
    returned. *)
Theorem Read_retries_while_enabled
  (timeout : Z) (outs : list conn_read) (d : sshClient) :
  remoteReadTimeoutRetry d = true ->
  Forall (fun o => is_timeout (rErr o) = true) outs ->
  let deadlines :=
    map (fun o => EvSetReadDeadline (Some (now o + timeout)%Z)) outs in
  exists d',
    trace d' = trace d ++ deadlines /\
    remoteReadTimeoutRetry d' = true /\
    remoteReadForceRetryNextTimeout d' = remoteReadForceRetryNextTimeout d /\
    readDeadline d' =
      last (map (fun o => Some (now o + timeout)%Z) outs) (readDeadline d) /\
    sshRemoteConnWrapper_Read timeout outs d = Done (None, []) d' /\
    forall r rest,
      is_timeout (rErr r) = false ->
      sshRemoteConnWrapper_Read timeout (outs ++ r :: rest) d =
        Done (Some (rLen r, rErr r), rest) d'.
Proof.
  intros Hr Ho. revert d Hr.
  induction Ho as [| o outs Hto _ IH]; intros d Hr deadlines.
  - exists d. cbn. rewrite app_nil_r. repeat split; try assumption.
    intros r rest Hn. apply Read_first. now left.
  - apply is_timeout_spec in Hto.
    set (d1 := record (EvSetReadDeadline (Some (now o + timeout)%Z))
                 (set_readDeadline (Some (now o + timeout)%Z) d)).
    destruct (IH d1 Hr) as (d' & Ht & Hr' & Hf & Hd & Hnone & Hsome).
    exists d'. subst deadlines. cbn [map].
    split; [rewrite Ht; cbn [d1 trace record]; now rewrite <- app_assoc |].
    split; [exact Hr' |]. split; [exact Hf |].
    split.
    { rewrite Hd. destruct outs as [| c outs']; [reflexivity |].
      cbn [map].
      apply (last_cons_default _ (map _ outs') _ (readDeadline d1)
               (readDeadline d)). }
    split.
    + cbn [sshRemoteConnWrapper_Read]. rewrite Hto. unfold bind at 1.
      rewrite requestTimeoutRetry_enabled by exact Hr. cbn [bind_res].
      exact Hnone.
    + intros r rest Hn. cbn [app sshRemoteConnWrapper_Read]. rewrite Hto.
      unfold bind at 1.
      rewrite requestTimeoutRetry_enabled by exact Hr. cbn [bind_res].
      now apply Hsome.
Qed.

Lemma Read_retries_while_enabled_twice :
  let d := set_remoteReadTimeoutRetry true (newSSH 2 (mkEnv [] [] [])) in
  exists d',
    trace d' =
      [EvSetReadDeadline (Some 130%Z); EvSetReadDeadline (Some 160%Z)] /\
    readDeadline d' = Some 160%Z /\
    sshRemoteConnWrapper_Read 30
      [timed_out 0 100; timed_out 0 130; mkRead 5 None 131] d =
      Done (Some (5, None), []) d'.
Proof.
  intros d.
  destruct (Read_retries_while_enabled 30
              [timed_out 0 100; timed_out 0 130] d eq_refl)
    as (d' & Ht & _ & _ & Hd & _ & Hsome).
  - repeat constructor.
  - exists d'. split; [exact Ht |]. split; [exact Hd |].
    apply (Hsome (mkRead 5 None 131) []). reflexivity.
Defined.

(** ** Frames the handler turns down *)

(** X3.  A frame whose marker is none of the four client signals is turned
    down with "unknown client signal"; nothing is read from it and the
    session is left as it was. *)
Theorem local_unknown_signal
  (marker : byte) (r : LimitedReader) (s : sshClient) :
  marker <> SSHClientStdIn ->
  marker <> SSHClientResize ->
  marker <> SSHClientRespondFingerprint ->
  marker <> SSHClientRespondCredential ->
  local marker r s = Done (Some ErrSSHUnknownClientSignal, r) s /\
  Error ErrSSHUnknownClientSignal = "unknown client signal"%string.
Proof.
  intros H0 H1 H2 H3. split; [| reflexivity]. unfold local.
  destruct (Byte.eqb marker SSHClientStdIn) eqn:G0;
    [apply Byte.byte_dec_bl in G0; contradiction |].
  destruct (Byte.eqb marker SSHClientResize) eqn:G1;
    [apply Byte.byte_dec_bl in G1; contradiction |].
  destruct (Byte.eqb marker SSHClientRespondFingerprint) eqn:G2;
    [apply Byte.byte_dec_bl in G2; contradiction |].
  destruct (Byte.eqb marker SSHClientRespondCredential) eqn:G3;
    [apply Byte.byte_dec_bl in G3; contradiction |].
  reflexivity.
Qed.

Lemma local_unknown_signal_04 :
  local x04 (frame [[x61]] []) (newSSH 2 (mkEnv [] [] [])) =
    Done (Some ErrSSHUnknownClientSignal, frame [[x61]] [])
      (newSSH 2 (mkEnv [] [] [])).
Proof.
  apply (local_unknown_signal x04 (frame [[x61]] [])
           (newSSH 2 (mkEnv [] [] []))); discriminate.
Defined.



(** ** Release *)

(** X5.  [Release] cancels the base context, once, and does nothing else:
    it returns nil without waiting for anything, leaves every other field
    of the session alone, and a second [Release] changes nothing at
    all. *)
Theorem Release_cancels_only (s : sshClient) :
  exists s',
    Release s = Done None s' /\
    s' = (if baseCtxCancelDone s then s
          else record EvCtxCancel (set_baseCtxCancelDone true s)) /\
    baseCtxCancelDone s' = true /\
    Release s' = Done None s'.
Proof.
  unfold Release, bind at 1, baseCtxCancel, bind at 1, gets at 1.
  cbn [bind_res]. destruct (baseCtxCancelDone s) eqn:Hd.
  - exists s. cbn [bind_res ret]. repeat split; try assumption.
    unfold bind, gets. cbn [bind_res]. now rewrite Hd.
  - eexists. cbn [bind_res modify ret]. split; [reflexivity |].
    repeat split.
Qed.

(** ** The callbacks of the handshake *)

Lemma SendManual_requested marker b s :
  SendManual marker b (set_remoteReadTimeoutRetry true s) =
    Done (fst (next_result (sendManualResults (env s))))
      (requested marker b s).
Proof.
  unfold requested, SendManual. cbn [env set_remoteReadTimeoutRetry].
  now destruct (next_result (sendManualResults (env s))).
Qed.

Lemma requested_fields marker b s :
  trace (requested marker b s) = trace s ++ [EvSendManual marker b] /\
  remoteReadTimeoutRetry (requested marker b s) = true /\
  remoteReadForceRetryNextTimeout (requested marker b s) =
    remoteReadForceRetryNextTimeout s /\
  credentialReceive (requested marker b s) = credentialReceive s /\
  fingerprintVerifyResultReceive (requested marker b s) =
    fingerprintVerifyResultReceive s.
Proof.
  unfold requested, SendManual. cbn [env set_remoteReadTimeoutRetry].
  destruct (next_result (sendManualResults (env s))). cbn. repeat split.
Qed.

Lemma passwordCallback_run b s :
  fits b s = true ->
  let asked :=
    requested SSHServerConnectRequestCredential (skipn (HeaderSize s) b) s in
  exists k,
    (forall x s2, k x s2 = Done (password_result x) (disabled s2)) /\
    passwordCallback b s =
      match fst (next_result (sendManualResults (env s))) with
      | Some e => Done ([], Some e) (disabled asked)
      | None =>
          match credential_ready asked with
          | Some (x, s2) => k x s2
          | None => Blocked credential_ready asked k
          end
      end.
Proof.
  intros Hf asked.
  exists (fun x s2 =>
    bind_res
      (bind_res (Done x s2)
         (fun received : option (list byte) =>
            match received with
            | None => ret ([], Some ErrSSHAuthCancelled)
            | Some passphraseBytes => ret (passphraseBytes, None)
            end))
      (fun out => disableRemoteReadTimeoutRetry ;; ret out)).
  split; [intros [x |] s2; reflexivity |].
  unfold passwordCallback.
  unfold bind at 1, enableRemoteReadTimeoutRetry, modify at 1.
  cbn [bind_res].
  unfold bind at 1, bind at 1, gets at 1. cbn [bind_res].
  unfold bind at 1.
  rewrite (fits_slice b (set_remoteReadTimeoutRetry true s)) by exact Hf.
  cbn [bind_res]. unfold bind at 1.
  change (HeaderSize (set_remoteReadTimeoutRetry true s))
    with (HeaderSize s).
  rewrite SendManual_requested. cbn [bind_res]. fold asked.
  destruct (fst (next_result (sendManualResults (env s)))); [reflexivity |].
  unfold bind at 1, recv_credential, chan_recv, await.
  fold (credential_ready asked).
  destruct (credential_ready asked) as [[x s2] |]; reflexivity.
Qed.

Lemma publicKeysCallback_run parse b s :
  fits b s = true ->
  let asked :=
    requested SSHServerConnectRequestCredential (skipn (HeaderSize s) b) s in
  exists k,
    (forall x s2, k x s2 = Done (public_keys_result parse x) (disabled s2)) /\
    publicKeysCallback parse b s =
      match fst (next_result (sendManualResults (env s))) with
      | Some e => Done ([], Some e) (disabled asked)
      | None =>
          match credential_ready asked with
          | Some (x, s2) => k x s2
          | None => Blocked credential_ready asked k
          end
      end.
Proof.
  intros Hf asked.
  exists (fun x s2 =>
    bind_res
      (bind_res (Done x s2)
         (fun received : option (list byte) =>
            match received with
            | None => ret ([], Some ErrSSHAuthCancelled)
            | Some privateKeyBytes =>
                let '(signer, signerErr) := parse privateKeyBytes in
                match signerErr with
                | Some e => ret ([], Some e)
                | None => ret ([signer], signerErr)
                end
            end))
      (fun out => disableRemoteReadTimeoutRetry ;; ret out)).
  split.
  { intros [x |] s2; [| reflexivity]. cbn [bind_res public_keys_result].
    destruct (parse x) as [signer [e |]]; reflexivity. }
  unfold publicKeysCallback.
  unfold bind at 1, enableRemoteReadTimeoutRetry, modify at 1.
  cbn [bind_res].
  unfold bind at 1, bind at 1, gets at 1. cbn [bind_res].
  unfold bind at 1.
  rewrite (fits_slice b (set_remoteReadTimeoutRetry true s)) by exact Hf.
  cbn [bind_res]. unfold bind at 1.
  change (HeaderSize (set_remoteReadTimeoutRetry true s))
    with (HeaderSize s).
  rewrite SendManual_requested. cbn [bind_res]. fold asked.
  destruct (fst (next_result (sendManualResults (env s)))); [reflexivity |].
  unfold bind at 1, recv_credential, chan_recv, await.
  fold (credential_ready asked).
  destruct (credential_ready asked) as [[x s2] |]; reflexivity.
Qed.

Lemma confirmRemoteFingerprint_cases fgp buf s :
  fits buf s = true ->
  let asked :=
    requested SSHServerConnectVerifyFingerprint
      (framed buf (HeaderSize s) fgp) s in
  exists k,
    (forall x s2, k x s2 = Done (fingerprint_verdict x) (disabled s2)) /\
    confirmRemoteFingerprint fgp buf s =
      match fst (next_result (sendManualResults (env s))) with
      | Some e => Done (Some e) (disabled asked)
      | None =>
          match fingerprint_ready asked with
          | Some (x, s2) => k x s2
          | None => Blocked fingerprint_ready asked k
          end
      end.
Proof.
  intros Hf asked. destruct (awaiting_fingerprint asked) as (k & Hk & Hrun).
  exists k. split; [exact Hk |].
  unfold confirmRemoteFingerprint.
  unfold bind at 1, enableRemoteReadTimeoutRetry, modify at 1.
  cbn [bind_res].
  unfold bind at 1, bind at 1, gets at 1. cbn [bind_res].
  unfold bind at 1.
  rewrite (fits_slice buf (set_remoteReadTimeoutRetry true s)) by exact Hf.
  cbn [bind_res]. unfold bind at 1.
  change (HeaderSize (set_remoteReadTimeoutRetry true s))
    with (HeaderSize s).
  rewrite SendManual_requested. cbn [bind_res]. fold asked.
  destruct (fst (next_result (sendManualResults (env s)))); [reflexivity |].
  exact Hrun.
Qed.

Lemma requestTimeoutRetries_enabled timeout times : forall d,
  remoteReadTimeoutRetry d = true ->
  result_of (requestTimeoutRetries timeout times d) =
    Some (map (fun _ => true) times).
Proof.
  induction times as [| t rest IH]; intros d H; [reflexivity |].
  cbn [requestTimeoutRetries map]. unfold bind at 1.
  rewrite requestTimeoutRetry_enabled by exact H. cbn [bind_res].
  specialize (IH (record (EvSetReadDeadline (Some (t + timeout)%Z))
                    (set_readDeadline (Some (t + timeout)%Z) d)) H).
  unfold bind.
  destruct (requestTimeoutRetries timeout rest _) as [bs d2 | |];
    try discriminate.
  cbn in IH. injection IH as ->. reflexivity.
Qed.

Lemma disabled_retry_off s : retry_off (disabled s).
Proof. now split. Qed.

Lemma bracketed_receive (A X : Type)
  (g : sshClient -> option (X * sshClient)) (f : X -> A)
  (k : X -> sshClient -> res A) asked :
  remoteReadTimeoutRetry asked = true ->
  (forall x s2, k x s2 = Done (f x) (disabled s2)) ->
  bracketed
    match g asked with
    | Some (x, s2) => k x s2
    | None => Blocked g asked k
    end.
Proof.
  intros Hr Hk. destruct (g asked) as [[x s2] |].
  - rewrite Hk. apply disabled_retry_off.
  - split; [exact Hr |]. intros s1. cbn [resume].
    destruct (g s1) as [[x s2] |]; [| reflexivity].
    rewrite Hk. apply disabled_retry_off.
Qed.

(** X6.  The three callbacks of the handshake keep read-timeout retry on
    exactly while they run.  Each one that waits for the client waits with
    retry enabled, so that the hook grants every read timeout in the
    meantime; and each one returns, by whatever path, at once or after
    waiting, with retry disabled and the latch for one more retry set. *)
Theorem callbacks_bracket_retry
  (parse : list byte -> nat * option error) (b fgp : list byte)
  (s : sshClient) :
  fits b s = true ->
  bracketed (passwordCallback b s) /\
  bracketed (publicKeysCallback parse b s) /\
  bracketed (confirmRemoteFingerprint fgp b s) /\
  forall (A : Type) (run : res A) (timeout : Z) (times : list Z),
    bracketed run -> is_blocked run = true ->
    result_of (requestTimeoutRetries timeout times (state_of run)) =
      Some (map (fun _ => true) times).
Proof.
  intros Hf. split; [| split; [| split]].
  - destruct (passwordCallback_run b s Hf) as (k & Hk & ->).
    destruct (fst (next_result (sendManualResults (env s))));
      [apply disabled_retry_off |].
    apply bracketed_receive with (f := password_result); [| exact Hk].
    apply requested_fields.
  - destruct (publicKeysCallback_run parse b s Hf) as (k & Hk & ->).
    destruct (fst (next_result (sendManualResults (env s))));
      [apply disabled_retry_off |].
    apply bracketed_receive with (f := public_keys_result parse);
      [| exact Hk].
    apply requested_fields.
  - destruct (confirmRemoteFingerprint_cases fgp b s Hf) as (k & Hk & ->).
    destruct (fst (next_result (sendManualResults (env s))));
      [apply disabled_retry_off |].
    apply bracketed_receive with (f := fingerprint_verdict); [| exact Hk].
    apply requested_fields.
  - intros A run timeout times Hb Hblocked.
    destruct run as [a s' | X g asked k | s']; try discriminate.
    cbn [state_of]. apply requestTimeoutRetries_enabled. apply Hb.
Qed.

(** Scenario: the password callback on a fresh session waits for the
    passphrase with retry on; three read timeouts in the meantime are all
    retried. *)
Lemma callbacks_bracket_retry_waiting :
  let run := passwordCallback (repeat x00 4096) (newSSH 2 (mkEnv [] [] [])) in
  is_blocked run = true /\
  bracketed run /\
  result_of (requestTimeoutRetries 30 [100; 130; 160]%Z (state_of run)) =
    Some [true; true; true].
Proof.
  intros run.
  destruct (callbacks_bracket_retry (fun _ => (0, None)) (repeat x00 4096)
              [] (newSSH 2 (mkEnv [] [] [])) eq_refl)
    as (Hp & _ & _ & Hall).
  split; [reflexivity |]. split; [exact Hp |].
  apply (Hall _ run 30%Z [100; 130; 160]%Z Hp eq_refl).
Defined.

(** X7.  A callback whose request frame [SendManual] refuses returns the
    error of [SendManual] at once: it does not wait, and takes nothing from
    the channel it would have received from, whatever is queued there. *)
Theorem callbacks_return_write_error
  (parse : list byte -> nat * option error) (b fgp : list byte)
  (s : sshClient) (e : error) :
  fits b s = true ->
  fst (next_result (sendManualResults (env s))) = Some e ->
  (exists s',
     passwordCallback b s = Done ([], Some e) s' /\
     credentialReceive s' = credentialReceive s /\
     trace s' =
       trace s ++ [EvSendManual SSHServerConnectRequestCredential
                     (skipn (HeaderSize s) b)]) /\
  (exists s',
     publicKeysCallback parse b s = Done ([], Some e) s' /\
     credentialReceive s' = credentialReceive s) /\
  (exists s',
     confirmRemoteFingerprint fgp b s = Done (Some e) s' /\
     fingerprintVerifyResultReceive s' = fingerprintVerifyResultReceive s /\
     trace s' =
       trace s ++ [EvSendManual SSHServerConnectVerifyFingerprint
                     (framed b (HeaderSize s) fgp)]).
Proof.
  intros Hf He. split; [| split].
  - destruct (passwordCallback_run b s Hf) as (k & _ & ->). rewrite He.
    eexists. split; [reflexivity |].
    destruct (requested_fields SSHServerConnectRequestCredential
                (skipn (HeaderSize s) b) s) as (Ht & _ & _ & Hc & _).
    split; [exact Hc | exact Ht].
  - destruct (publicKeysCallback_run parse b s Hf) as (k & _ & ->).
    rewrite He. eexists. split; [reflexivity |].
    apply (requested_fields SSHServerConnectRequestCredential
             (skipn (HeaderSize s) b) s).
  - destruct (confirmRemoteFingerprint_cases fgp b s Hf) as (k & _ & ->).
    rewrite He. eexists. split; [reflexivity |].
    destruct (requested_fields SSHServerConnectVerifyFingerprint
                (framed b (HeaderSize s) fgp) s) as (Ht & _ & _ & _ & Hc).
    split; [exact Hc | exact Ht].
Qed.

(** Scenario: the responder is gone while a passphrase is queued. *)
Lemma callbacks_return_write_error_queued :
  let s := set_credentialReceive (Chan.mk [[x70; x77]] false)
             (newSSH 2 (mkEnv [Some (external_error "closed")] [] [])) in
  exists s',
    passwordCallback (repeat x00 4096) s =
      Done ([], Some (external_error "closed")) s' /\
    credentialReceive s' = Chan.mk [[x70; x77]] false.
Proof.
  intros s.
  destruct (callbacks_return_write_error (fun _ => (0, None))
              (repeat x00 4096) [] s (external_error "closed")
              eq_refl eq_refl) as ((s' & E & Hc & _) & _).
  exists s'. split; [exact E | exact Hc].
Defined.

Lemma unfit_panics (A B : Type) (m : list byte -> M A) (f : A -> M B)
  (b : list byte) (s : sshClient) :
  fits b s = false ->
  is_blocked
    ((enableRemoteReadTimeoutRetry ;;
      out <- (h <- gets HeaderSize ;; req <- slice_from b h ;; m req) ;;
      f out) s) = false.
Proof.
  unfold fits. intros Hf.
  unfold bind at 1, enableRemoteReadTimeoutRetry, modify at 1.
  cbn [bind_res].
  unfold bind at 1, bind at 1, gets at 1. cbn [bind_res].
  unfold bind at 1, slice_from.
  change (HeaderSize (set_remoteReadTimeoutRetry true s))
    with (HeaderSize s).
  destruct (Nat.ltb_spec (List.length b) (HeaderSize s)); [reflexivity |].
  apply Nat.leb_gt in Hf. lia.
Qed.

Lemma passwordCallback_resume b s0 :
  is_blocked (passwordCallback b s0) = true ->
  exists k, forall s,
    resume (passwordCallback b s0) s =
      match credential_ready s with
      | Some (x, s2) => Done (password_result x) (disabled s2)
      | None => Blocked credential_ready s k
      end.
Proof.
  intros Hb. destruct (passwordCallback_blocked b s0 Hb) as (a & k & -> & Hk).
  exists k. intros s. cbn [resume].
  destruct (credential_ready s) as [[x s2] |]; [apply Hk | reflexivity].
Qed.

Lemma publicKeysCallback_resume parse b s0 :
  is_blocked (publicKeysCallback parse b s0) = true ->
  exists k, forall s,
    resume (publicKeysCallback parse b s0) s =
      match credential_ready s with
      | Some (x, s2) => Done (public_keys_result parse x) (disabled s2)
      | None => Blocked credential_ready s k
      end.
Proof.
  intros Hb. destruct (fits b s0) eqn:Hf.
  - destruct (publicKeysCallback_run parse b s0 Hf) as (k & Hk & E).
    rewrite E in *.
    destruct (fst (next_result (sendManualResults (env s0))));
      [discriminate |].
    destruct (credential_ready _) as [[x s2] |];
      [rewrite Hk in Hb; discriminate |].
    exists k. intros s. cbn [resume].
    destruct (credential_ready s) as [[x s2] |]; [apply Hk | reflexivity].
  - unfold publicKeysCallback in Hb. rewrite unfit_panics in Hb by exact Hf.
    discriminate.
Qed.

Lemma confirmRemoteFingerprint_resume fgp buf s0 :
  is_blocked (confirmRemoteFingerprint fgp buf s0) = true ->
  exists k, forall s,
    resume (confirmRemoteFingerprint fgp buf s0) s =
      match fingerprint_ready s with
      | Some (x, s2) => Done (fingerprint_verdict x) (disabled s2)
      | None => Blocked fingerprint_ready s k
      end.
Proof.
  intros Hb. destruct (fits buf s0) eqn:Hf.
  - destruct (confirmRemoteFingerprint_cases fgp buf s0 Hf) as (k & Hk & E).
    rewrite E in *.
    destruct (fst (next_result (sendManualResults (env s0))));
      [discriminate |].
    destruct (fingerprint_ready _) as [[x s2] |];
      [rewrite Hk in Hb; discriminate |].
    exists k. intros s. cbn [resume].
    destruct (fingerprint_ready s) as [[x s2] |]; [apply Hk | reflexivity].
  - exfalso. unfold fits in Hf. apply Nat.leb_gt in Hf.
    unfold confirmRemoteFingerprint in Hb.
    unfold bind at 1, enableRemoteReadTimeoutRetry, modify at 1 in Hb.
    cbn [bind_res] in Hb.
    unfold bind at 1, bind at 1, gets at 1 in Hb. cbn [bind_res] in Hb.
    unfold bind at 1, slice_from in Hb.
    change (HeaderSize (set_remoteReadTimeoutRetry true s0))
      with (HeaderSize s0) in Hb.
    destruct (Nat.ltb_spec (List.length buf) (HeaderSize s0));
      [discriminate | lia].
Qed.

(** ** What [Close] does to the two channels *)

Lemma Close_rest_state h (e : option error) t :
  let t' :=
    state_of
      ((match e with
        | None => call_closer h
        | Some _ => ret tt
        end ;;
        baseCtxCancel ;;
        remoteCloseWait_Wait ;;
        ret (@None error)) t) in
  credentialReceive t' = credentialReceive t /\
  fingerprintVerifyResultReceive t' = fingerprintVerifyResultReceive t.
Proof.
  cbv zeta. unfold bind at 1 3.
  assert (H : forall t1 : sshClient,
    credentialReceive t1 = credentialReceive t ->
    fingerprintVerifyResultReceive t1 = fingerprintVerifyResultReceive t ->
    let t' := state_of ((baseCtxCancel ;; remoteCloseWait_Wait ;;
                         ret (@None error)) t1) in
    credentialReceive t' = credentialReceive t /\
    fingerprintVerifyResultReceive t' = fingerprintVerifyResultReceive t).
  { intros t1 H1 H2. cbv zeta.
    unfold baseCtxCancel, remoteCloseWait_Wait, await, bind, gets.
    cbn [bind_res].
    destruct (baseCtxCancelDone t1); cbn [bind_res ret modify]; fields;
      destruct (remoteCloseWait t1 =? 0); cbn; now split. }
  destruct e as [e |].
  - cbn [bind_res ret]. now apply H.
  - unfold call_closer. destruct (closer h) as [c |].
    + cbn [bind_res modify]. now apply H.
    + cbn. now split.
Qed.

Lemma Close_tail_state t :
  credentialReceive (state_of (Close_tail t)) = credentialReceive t /\
  fingerprintVerifyResultReceive (state_of (Close_tail t)) =
    fingerprintVerifyResultReceive t.
Proof.
  remember (Close_tail t) as run eqn:Er.
  unfold Close_tail, bind at 1 in Er.
  destruct (getRemote_cases t)
    as [[_ H] | [(h & rest & _ & _ & H) | [(_ & _ & _ & H) | (g & k & H)]]];
    rewrite H in Er; cbn [bind_res] in Er; subst run.
  - apply (Close_rest_state (remoteConn t) None t).
  - apply (Close_rest_state h None
             (set_remoteConn h
                (set_remoteConnReceive
                   (Chan.mk rest (Chan.closed (remoteConnReceive t))) t))).
  - apply (Close_rest_state zeroRemoteConn
             (Some ErrSSHRemoteConnUnavailable) t).
  - cbn. now split.
Qed.

Lemma closing_channels s :
  session_inv s ->
  credentialReceive (closing s) =
    Chan.mk (Chan.buf (credentialReceive s)) true /\
  fingerprintVerifyResultReceive (closing s) =
    Chan.mk (Chan.buf (fingerprintVerifyResultReceive s)) true.
Proof.
  intros Hs. destruct (inv_credential_closed Hs) as [Hc _].
  destruct (inv_fingerprint_closed Hs) as [Hf _].
  unfold closing. fields.
  destruct (credentialReceiveClosed s) eqn:Ec; fields;
    destruct (fingerprintVerifyResultReceiveClosed s) eqn:Ef; fields;
    split; try reflexivity.
  all: try (destruct (credentialReceive s); cbn in *; congruence).
  all: try (destruct (fingerprintVerifyResultReceive s); cbn in *;
            congruence).
Qed.

Lemma Close_state_channels s :
  session_inv s ->
  credentialReceive (state_of (Close s)) =
    Chan.mk (Chan.buf (credentialReceive s)) true /\
  fingerprintVerifyResultReceive (state_of (Close s)) =
    Chan.mk (Chan.buf (fingerprintVerifyResultReceive s)) true.
Proof.
  intros Hs. rewrite Close_run by exact Hs.
  destruct (Close_tail_state (closing s)) as [-> ->].
  now apply closing_channels.
Qed.

Lemma local_RespondCredential_sends s chunks later :
  session_inv s ->
  credentialProcessed s = false ->
  List.length (List.concat chunks) <= sshCredentialMaxSize ->
  exists r',
    local SSHClientRespondCredential (frame chunks later) s =
      Done (None, r')
        (record (EvSendCredential (List.concat chunks))
           (set_credentialReceive (Chan.mk [List.concat chunks] false)
              (set_credentialProcessed true s))).
Proof.
  intros Hs Hp Hlen. rewrite local_RespondCredential_run by exact Hp.
  change (Remains (frame chunks later))
    with (List.length (List.concat chunks)).
  destruct (Nat.ltb_spec sshCredentialMaxSize
              (List.length (List.concat chunks))); [lia |].
  destruct (credential_loop_within chunks later (fuel (frame chunks later))
              (List.length (List.concat chunks)) [] 0)
    as (r' & Hrun & _).
  - apply fuel_frame.
  - reflexivity.
  - rewrite Hrun. cbn [app]. unfold bind. rewrite send_credential_run.
    + now exists r'.
    + apply (inv_credential_unused Hs). exact Hp.
Qed.

Lemma local_RespondCredential_unreadable s r rData err r' :
  credentialProcessed s = false ->
  Completed r = false ->
  Buffered r = (rData, Some err, r') ->
  local SSHClientRespondCredential r s =
    Done (Some err, r') (set_credentialProcessed true s).
Proof.
  intros Hp Hc Hb. rewrite local_RespondCredential_run by exact Hp.
  unfold fuel. cbn [credential_loop]. rewrite Hc, Hb. reflexivity.
Qed.

Lemma local_RespondFingerprint_unreadable s r rData err r' :
  fingerprintProcessed s = false ->
  FetchOneByte r = (rData, Some err, r') ->
  local SSHClientRespondFingerprint r s =
    Done (Some err, r') (set_fingerprintProcessed true s).
Proof.
  intros Hp Hb. rewrite local_RespondFingerprint_run by exact Hp.
  now rewrite Hb.
Qed.

Section Reachable.

Variable ParseString : LimitedReader -> list byte * option error * LimitedReader.
Variable Address : Type.
Variable ParseAddress : LimitedReader -> Address * option error * LimitedReader.
Variable Address_String : Address -> string.
Variable ParsePrivateKey : list byte -> nat * option error.

Local Notation "'exec_'" :=
  (exec ParseString ParseAddress Address_String ParsePrivateKey).
Local Notation "'step_'" :=
  (step ParseString ParseAddress Address_String ParsePrivateKey).
Local Notation "'run_'" :=
  (run ParseString ParseAddress Address_String ParsePrivateKey).

Lemma reachable_inv headerSize e acts :
  system_inv (run_ acts (boot headerSize e)).
Proof.
  apply (run_inv ParseString Address ParseAddress Address_String
           ParsePrivateKey acts (boot headerSize e) (boot_inv headerSize e)).
Qed.

Lemma later_inv sys more :
  system_inv sys ->
  session_inv (client (run_ more sys)) /\
  evolves (client sys) (client (run_ more sys)).
Proof.
  intros H.
  destruct (run_inv ParseString Address ParseAddress Address_String
              ParsePrivateKey more sys H) as [(_ & Hs & _) He].
  now split.
Qed.

Lemma exec_local_returns marker r sys (x : option error * LimitedReader) s' :
  system_inv sys -> control sys = None ->
  local marker r (client sys) = Done x s' ->
  exec_ (DoLocal marker r) sys =
    (mkSystem s' None (remote sys) false, Some (CallLocal marker, fst x)).
Proof.
  intros (Hc & _) Hn Hrun. unfold exec. rewrite Hc, Hn.
  cbn [control_call]. unfold errorOf, bind. rewrite Hrun. cbn.
  now rewrite Hc.
Qed.

(** Once the credential flag is set with nothing sent, nothing is ever
    sent. *)
Lemma credential_spent sys more :
  system_inv sys ->
  credentialProcessed (client sys) = true ->
  count is_send_credential (trace (client sys)) = 0 ->
  let s2 := client (run_ more sys) in
  credentialProcessed s2 = true /\
  count is_send_credential (trace s2) = 0 /\
  Chan.buf (credentialReceive s2) = [] /\
  (forall r,
     local SSHClientRespondCredential r s2 =
       Done (Some ErrSSHUnexpectedCredentialDataRespond, r) s2) /\
  (forall b s0,
     is_blocked (passwordCallback b s0) = true ->
     if credentialReceiveClosed s2
     then result_of (resume (passwordCallback b s0) s2) =
            Some ([], Some ErrSSHAuthCancelled)
     else is_blocked (resume (passwordCallback b s0) s2) = true).
Proof.
  intros Hsys Hp Hn s2.
  destruct (later_inv sys more Hsys) as [Hs2 (He & _)]. fold s2 in Hs2, He.
  destruct (He Hp) as [Hp2 Hn2]. rewrite Hn in Hn2.
  assert (Hbuf : Chan.buf (credentialReceive s2) = []).
  { pose proof (inv_credential_buffer Hs2) as Hl. rewrite Hn2 in Hl.
    destruct (Chan.buf (credentialReceive s2)); [reflexivity |].
    cbn in Hl. lia. }
  split; [exact Hp2 |]. split; [exact Hn2 |]. split; [exact Hbuf |].
  split; [intros r; now apply local_RespondCredential_again |].
  intros b s0 Hb. destruct (passwordCallback_resume b s0 Hb) as [k ->].
  destruct (inv_credential_closed Hs2) as [Hcl _].
  unfold credential_ready, Chan.pop. rewrite Hbuf, <- Hcl.
  now destruct (credentialReceiveClosed s2).
Qed.

Lemma fingerprint_spent sys more :
  system_inv sys ->
  fingerprintProcessed (client sys) = true ->
  count is_send_fingerprint (trace (client sys)) = 0 ->
  let s2 := client (run_ more sys) in
  fingerprintProcessed s2 = true /\
  count is_send_fingerprint (trace s2) = 0 /\
  Chan.buf (fingerprintVerifyResultReceive s2) = [] /\
  (forall r,
     local SSHClientRespondFingerprint r s2 =
       Done (Some ErrSSHUnexpectedFingerprintVerificationRespond, r) s2) /\
  (forall fgp buf s0,
     is_blocked (confirmRemoteFingerprint fgp buf s0) = true ->
     if fingerprintVerifyResultReceiveClosed s2
     then result_of (resume (confirmRemoteFingerprint fgp buf s0) s2) =
            Some (Some ErrSSHRemoteFingerprintVerificationCancelled)
     else is_blocked (resume (confirmRemoteFingerprint fgp buf s0) s2) =
            true).
Proof.
  intros Hsys Hp Hn s2.
  destruct (later_inv sys more Hsys) as [Hs2 (_ & He & _)].
  fold s2 in Hs2, He.
  destruct (He Hp) as [Hp2 Hn2]. rewrite Hn in Hn2.
  assert (Hbuf : Chan.buf (fingerprintVerifyResultReceive s2) = []).
  { pose proof (inv_fingerprint_buffer Hs2) as Hl. rewrite Hn2 in Hl.
    destruct (Chan.buf (fingerprintVerifyResultReceive s2));
      [reflexivity |].
    cbn in Hl. lia. }
  split; [exact Hp2 |]. split; [exact Hn2 |]. split; [exact Hbuf |].
  split; [intros r; now apply local_RespondFingerprint_again |].
  intros fgp buf s0 Hb.
  destruct (confirmRemoteFingerprint_resume fgp buf s0 Hb) as [k ->].
  destruct (inv_fingerprint_closed Hs2) as [Hcl _].
  unfold fingerprint_ready, Chan.pop. rewrite Hbuf, <- Hcl.
  now destruct (fingerprintVerifyResultReceiveClosed s2).
Qed.

(** X8.  A credential response whose payload cannot be read uses up the
    one attempt of the session all the same.  In any session that can be
    reached, with the control goroutine free and no credential processed
    yet, a credential frame whose first read fails returns the error of
    the read, having set [credentialProcessed] and nothing else.  From
    then on nothing is ever sent on [credentialReceive], every further
    credential frame is turned down, and a password callback that waits
    gets out only when the channel is closed, with
    [ErrSSHAuthCancelled]. *)
Theorem unreadable_credential_consumes_attempt
  (headerSize : nat) (e : environment) (acts : list action)
  (r r' : LimitedReader) (rData : list byte) (err : error) :
  let sys := run_ acts (boot headerSize e) in
  let a := DoLocal SSHClientRespondCredential r in
  control sys = None ->
  credentialProcessed (client sys) = false ->
  Completed r = false ->
  Buffered r = (rData, Some err, r') ->
  exec_ a sys =
    (mkSystem (set_credentialProcessed true (client sys)) None (remote sys)
       false,
     Some (CallLocal SSHClientRespondCredential, Some err)) /\
  forall more,
    let s2 := client (run_ more (step_ a sys)) in
    credentialProcessed s2 = true /\
    count is_send_credential (trace s2) = 0 /\
    Chan.buf (credentialReceive s2) = [] /\
    (forall r2,
       local SSHClientRespondCredential r2 s2 =
         Done (Some ErrSSHUnexpectedCredentialDataRespond, r2) s2) /\
    (forall b s0,
       is_blocked (passwordCallback b s0) = true ->
       if credentialReceiveClosed s2
       then result_of (resume (passwordCallback b s0) s2) =
              Some ([], Some ErrSSHAuthCancelled)
       else is_blocked (resume (passwordCallback b s0) s2) = true).
Proof.
  intros sys a Hn Hp Hc Hb.
  pose proof (reachable_inv headerSize e acts) as Hsys. fold sys in Hsys.
  pose proof Hsys as (_ & Hs & _).
  pose proof (exec_local_returns SSHClientRespondCredential r sys
                (Some err, r') _ Hsys Hn
                (local_RespondCredential_unreadable _ _ _ _ _ Hp Hc Hb))
    as Hexec.
  split; [exact Hexec |].
  intros more.
  destruct (exec_inv ParseString Address ParseAddress Address_String
              ParsePrivateKey a sys Hsys) as (Hsys1 & _ & _).
  fold (step_ a sys) in Hsys1.
  apply credential_spent; [exact Hsys1 | |];
    unfold step, a; rewrite Hexec; [reflexivity |].
  apply (inv_credential_unused Hs Hp).
Qed.

(** X9.  The same for the fingerprint: a response whose byte cannot be
    read returns the error of the read having set [fingerprintProcessed]
    and nothing else; nothing is ever sent on
    [fingerprintVerifyResultReceive] after that, every further response is
    turned down, and a confirmation that waits gets out only when the
    channel is closed, with "verification process has been cancelled". *)
Theorem unreadable_fingerprint_consumes_attempt
  (headerSize : nat) (e : environment) (acts : list action)
  (r r' : LimitedReader) (rData : list byte) (err : error) :
  let sys := run_ acts (boot headerSize e) in
  let a := DoLocal SSHClientRespondFingerprint r in
  control sys = None ->
  fingerprintProcessed (client sys) = false ->
  FetchOneByte r = (rData, Some err, r') ->
  exec_ a sys =
    (mkSystem (set_fingerprintProcessed true (client sys)) None (remote sys)
       false,
     Some (CallLocal SSHClientRespondFingerprint, Some err)) /\
  forall more,
    let s2 := client (run_ more (step_ a sys)) in
    fingerprintProcessed s2 = true /\
    count is_send_fingerprint (trace s2) = 0 /\
    Chan.buf (fingerprintVerifyResultReceive s2) = [] /\
    (forall r2,
       local SSHClientRespondFingerprint r2 s2 =
         Done (Some ErrSSHUnexpectedFingerprintVerificationRespond, r2) s2) /\
    (forall fgp buf s0,
       is_blocked (confirmRemoteFingerprint fgp buf s0) = true ->
       if fingerprintVerifyResultReceiveClosed s2
       then result_of (resume (confirmRemoteFingerprint fgp buf s0) s2) =
              Some (Some ErrSSHRemoteFingerprintVerificationCancelled)
       else is_blocked (resume (confirmRemoteFingerprint fgp buf s0) s2) =
              true).
Proof.
  intros sys a Hn Hp Hb.
  pose proof (reachable_inv headerSize e acts) as Hsys. fold sys in Hsys.
  pose proof Hsys as (_ & Hs & _).
  pose proof (exec_local_returns SSHClientRespondFingerprint r sys
                (Some err, r') _ Hsys Hn
                (local_RespondFingerprint_unreadable _ _ _ _ _ Hp Hb))
    as Hexec.
  split; [exact Hexec |].
  intros more.
  destruct (exec_inv ParseString Address ParseAddress Address_String
              ParsePrivateKey a sys Hsys) as (Hsys1 & _ & _).
  fold (step_ a sys) in Hsys1.
  apply fingerprint_spent; [exact Hsys1 | |];
    unfold step, a; rewrite Hexec; [reflexivity |].
  apply (inv_fingerprint_unused Hs Hp).
Qed.

(** X10.  [Close] releases whoever waits in a callback.  On the session
    [Close] leaves, whether it has returned or waits itself, a callback
    that was suspended in its receive goes on at once: with what was
    queued on its channel if a response had been sent and not yet taken,
    and otherwise with "authentication has been cancelled" (for the
    fingerprint, "verification process has been cancelled"). *)
Theorem Close_releases_callbacks
  (headerSize : nat) (e : environment) (acts : list action)
  (b fgp : list byte) (s0 : sshClient) :
  let s := client (run_ acts (boot headerSize e)) in
  let left := state_of (Close s) in
  (is_blocked (passwordCallback b s0) = true ->
   result_of (resume (passwordCallback b s0) left) =
     Some (password_result (hd_error (Chan.buf (credentialReceive s))))) /\
  (is_blocked (publicKeysCallback ParsePrivateKey b s0) = true ->
   result_of (resume (publicKeysCallback ParsePrivateKey b s0) left) =
     Some (public_keys_result ParsePrivateKey
             (hd_error (Chan.buf (credentialReceive s))))) /\
  (is_blocked (confirmRemoteFingerprint fgp b s0) = true ->
   result_of (resume (confirmRemoteFingerprint fgp b s0) left) =
     Some (fingerprint_verdict
             (hd_error (Chan.buf (fingerprintVerifyResultReceive s))))) /\
  password_result None = ([], Some ErrSSHAuthCancelled) /\
  public_keys_result ParsePrivateKey None = ([], Some ErrSSHAuthCancelled) /\
  fingerprint_verdict None =
    Some ErrSSHRemoteFingerprintVerificationCancelled /\
  Error ErrSSHAuthCancelled = "authentication has been cancelled"%string.
Proof.
  intros s left.
  pose proof (reachable_inv headerSize e acts) as (_ & Hs & _).
  fold s in Hs.
  destruct (Close_state_channels s Hs) as [Hc Hf]. fold left in Hc, Hf.
  assert (Rc : credential_ready left =
    match Chan.buf (credentialReceive s) with
    | v :: rest =>
        Some (Some v, set_credentialReceive (Chan.mk rest true) left)
    | [] => Some (None, left)
    end).
  { unfold credential_ready, Chan.pop. rewrite Hc. cbn.
    now destruct (Chan.buf (credentialReceive s)). }
  assert (Rf : fingerprint_ready left =
    match Chan.buf (fingerprintVerifyResultReceive s) with
    | v :: rest =>
        Some (Some v,
              set_fingerprintVerifyResultReceive (Chan.mk rest true) left)
    | [] => Some (None, left)
    end).
  { unfold fingerprint_ready, Chan.pop. rewrite Hf. cbn.
    now destruct (Chan.buf (fingerprintVerifyResultReceive s)). }
  split; [| split; [| split]].
  - intros Hb. destruct (passwordCallback_resume b s0 Hb) as [k ->].
    rewrite Rc. now destruct (Chan.buf (credentialReceive s)).
  - intros Hb.
    destruct (publicKeysCallback_resume ParsePrivateKey b s0 Hb) as [k ->].
    rewrite Rc. now destruct (Chan.buf (credentialReceive s)).
  - intros Hb.
    destruct (confirmRemoteFingerprint_resume fgp b s0 Hb) as [k ->].
    rewrite Rf. now destruct (Chan.buf (fingerprintVerifyResultReceive s)).
  - repeat split.
Qed.

(** X11.  A credential goes from the frame to the SSH library unchanged.
    In any session that can be reached with no credential processed yet, a
    credential frame of at most [sshCredentialMaxSize] bytes, arriving
    whole, makes a waiting password callback return exactly the payload as
    the passphrase, and a waiting public-keys callback return what
    [ssh.ParsePrivateKey] makes of exactly the payload: its signer, or its
    error and no signer.  The channel is empty again afterwards. *)
Theorem credential_round_trip
  (headerSize : nat) (e : environment) (acts : list action)
  (chunks : list (list byte)) (later : list delivery)
  (b : list byte) (s0 : sshClient) :
  let s := client (run_ acts (boot headerSize e)) in
  let payload := List.concat chunks in
  let sent :=
    state_of (local SSHClientRespondCredential (frame chunks later) s) in
  credentialProcessed s = false ->
  List.length payload <= sshCredentialMaxSize ->
  (is_blocked (passwordCallback b s0) = true ->
   exists s',
     resume (passwordCallback b s0) sent = Done (payload, None) s' /\
     Chan.buf (credentialReceive s') = []) /\
  (is_blocked (publicKeysCallback ParsePrivateKey b s0) = true ->
   exists s',
     resume (publicKeysCallback ParsePrivateKey b s0) sent =
       Done (match ParsePrivateKey payload with
             | (_, Some err) => ([], Some err)
             | (signer, None) => ([signer], None)
             end) s' /\
     Chan.buf (credentialReceive s') = []).
Proof.
  intros s payload sent Hp Hlen.
  pose proof (reachable_inv headerSize e acts) as (_ & Hs & _).
  fold s in Hs.
  destruct (local_RespondCredential_sends s chunks later Hs Hp Hlen)
    as (r' & Hrun).
  assert (Hready : credential_ready sent =
    Some (Some payload, set_credentialReceive (Chan.mk [] false) sent)).
  { unfold sent. rewrite Hrun. reflexivity. }
  split; intros Hb.
  - destruct (passwordCallback_resume b s0 Hb) as [k ->]. rewrite Hready.
    eexists. split; reflexivity.
  - destruct (publicKeysCallback_resume ParsePrivateKey b s0 Hb) as [k ->].
    rewrite Hready. eexists. split; reflexivity.
Qed.



(** X14.  The wait group counts the goroutines.  In any session that can
    be reached, nothing has panicked (so [Done] was never called on an
    empty wait group), the counter of [remoteCloseWait] is the number of
    goroutines still running among the remote task and the stderr pump,
    so [Wait] lets [Close] through exactly when both have returned or were
    never started; and the stderr pump is never started before the shell
    is served. *)
Theorem wait_group_counts_goroutines
  (headerSize : nat) (e : environment) (acts : list action) :
  let sys := run_ acts (boot headerSize e) in
  let s := client sys in
  crashed sys = false /\
  remoteCloseWait s = running (remoteTask s) + running (stderrTask s) /\
  (is_blocked (remoteCloseWait_Wait s) = false <-> tasks_exited s) /\
  (before_serving (remoteTask s) = true -> stderrTask s = NotStarted).
Proof.
  intros sys s.
  pose proof (reachable_inv headerSize e acts) as (Hc & Hs & _).
  subst s sys. set (s := client _) in *. pose proof (inv_wait Hs) as Hw.
  split; [exact Hc |]. split; [exact Hw |].
  split; [| apply (inv_stderr Hs)].
  unfold remoteCloseWait_Wait, await, tasks_exited.
  destruct (Nat.eqb_spec (remoteCloseWait s) 0) as [E | E];
    cbn [is_blocked]; split; intros H; try reflexivity; try discriminate.
  - lia.
  - exfalso. destruct H. lia.
Qed.


(** X16.  However the remote task returns, its deferred function runs to
    the end.  In any session that can be reached while the task runs, it
    signals [HeaderClose], closes [remoteConnReceive] (which was open),
    cancels the base context unless that was done, and takes the task off
    the wait group (which counted it), in this order and without a panic.
    A handle still queued stays in the closed channel, and from then on
    [getRemote] never waits. *)
Theorem remote_teardown
  (headerSize : nat) (e : environment) (acts : list action) (p : progress) :
  let s := client (run_ acts (boot headerSize e)) in
  remoteTask s = Running p ->
  exists s',
    remote_deferred s = Done tt s' /\
    trace s' =
      trace s ++ [EvSignalHeaderClose; EvClose ch_remoteConnReceive] ++
      (if baseCtxCancelDone s then [] else [EvCtxCancel]) /\
    Chan.closed (remoteConnReceive s) = false /\
    remoteConnReceive s' = Chan.mk (Chan.buf (remoteConnReceive s)) true /\
    baseCtxCancelDone s' = true /\
    remoteCloseWait s = S (remoteCloseWait s') /\
    remoteTask s' = Exited /\
    is_blocked (getRemote s') = false.
Proof.
  intros s Hr.
  pose proof (reachable_inv headerSize e acts) as (_ & Hs & _).
  fold s in Hs.
  destruct (inv_remote_closed Hs) as [Hc _]. rewrite Hr in Hc.
  cbn [is_exited] in Hc.
  pose proof (inv_wait Hs) as Hw. rewrite Hr in Hw. cbn [running] in Hw.
  assert (Hget : forall t,
    Chan.closed (remoteConnReceive t) = true ->
    is_blocked (getRemote t) = false).
  { intros t Ht. unfold getRemote, bind, gets. cbn [bind_res].
    destruct (isValid (remoteConn t)); [reflexivity |].
    unfold recv_remoteConn, chan_recv, await, Chan.pop. rewrite Ht.
    destruct (Chan.buf (remoteConnReceive t)); reflexivity. }
  unfold remote_deferred.
  unfold bind at 1, modify at 1. cbn [bind_res].
  unfold bind at 1, chan_close. fields. rewrite Hc. cbn [bind_res].
  unfold bind at 1, baseCtxCancel, bind at 1, gets at 1. cbn [bind_res].
  fields.
  destruct (baseCtxCancelDone s) eqn:Hd; cbn [bind_res ret modify];
    unfold bind at 1, remoteCloseWait_Done, bind at 1, gets at 1;
    cbn [bind_res]; fields; rewrite Hw; cbn [Nat.add bind_res modify];
    eexists; (split; [reflexivity |]); fields;
    rewrite <- ?app_assoc; cbn [app];
    (split; [reflexivity |]); (split; [reflexivity |]);
    (split; [reflexivity |]); (split; [try reflexivity; assumption |]);
    (split; [reflexivity |]); (split; [reflexivity |]);
    apply Hget; reflexivity.
Qed.

End Reachable.

(** ** Frames built in the scratch buffer *)




(** X18.  The writer for the output of the before-connecting hook always
    reports the whole of what it was given as written: the count it
    returns is [len(b)], also when the output was cut to the room left in
    the buffer, and also when [SendManual] failed; the error it returns is
    that of [SendManual]. *)
Theorem hookOutput_reports_all (b buf : list byte) (s : sshClient) :
  fits buf s = true ->
  let h := HeaderSize s in
  exists s',
    hookOutput b buf s =
      Done (List.length b, fst (next_result (sendManualResults (env s))))
        s' /\
    trace s' =
      trace s ++
      [EvSendManual SSHServerHookOutputBeforeConnecting
         (firstn h buf ++ firstn (List.length buf - h) b)] /\
    view s' = view s.
Proof.
  intros Hf h. unfold hookOutput.
  unfold bind at 1, gets at 1. cbn [bind_res].
  unfold bind at 1. rewrite fits_slice by exact Hf. cbn [bind_res].
  unfold bind.
  destruct (SendManual_run SSHServerHookOutputBeforeConnecting
              (framed buf (HeaderSize s) b) s)
    as (wErr & s' & -> & -> & -> & Hv & _).
  cbn [bind_res ret]. eexists. split; [reflexivity |].
  split; [reflexivity | exact Hv].
Qed.

(** Scenario: 5000 bytes of hook output, and a responder that fails. *)
Lemma hookOutput_reports_all_5000 :
  exists s',
    hookOutput (repeat x65 5000) (repeat x00 4096)
      (newSSH 2 (mkEnv [Some (external_error "closed")] [] [])) =
      Done (5000, Some (external_error "closed")) s'.
Proof.
  destruct (hookOutput_reports_all (repeat x65 5000) (repeat x00 4096)
              (newSSH 2 (mkEnv [Some (external_error "closed")] [] []))
              eq_refl) as (s' & E & _).
  exists s'. rewrite E. rewrite repeat_length. reflexivity.
Defined.

(** ** Presets *)

Section ParseSSHConfigProps.

Variable SplitHostPort : string -> string * string * option error.
Variable JoinHostPort : string -> string -> string.
Variable Rest : Type.

Local Notation "'parse_'" := (parseSSHConfig SplitHostPort JoinHostPort).

(** X19.  [parseSSHConfig] never fails and touches nothing but the host.
    A host that [net.SplitHostPort] accepts is left as it is; any other is
    replaced by [net.JoinHostPort(host, "22")], unless that is empty, in
    which case the host is left as it is.  So a host that is not empty
    never becomes empty; and when the joined host is one that
    [net.SplitHostPort] accepts, parsing the result again changes
    nothing. *)
Theorem parseSSHConfig_default_port (p : Preset Rest) :
  let q := fst (parse_ p) in
  snd (parse_ p) = None /\
  rest_of_preset q = rest_of_preset p /\
  (snd (SplitHostPort (Host p)) = None -> q = p) /\
  (snd (SplitHostPort (Host p)) <> None ->
   Host q =
     if String.length (JoinHostPort (Host p) sshDefaultPortString) =? 0
     then Host p
     else JoinHostPort (Host p) sshDefaultPortString) /\
  (Host p <> EmptyString -> Host q <> EmptyString) /\
  (snd (SplitHostPort (Host q)) = None -> parse_ q = parse_ p).
Proof.
  cbv zeta. unfold parseSSHConfig.
  destruct (SplitHostPort (Host p)) as [[hh pp] [sErr |]] eqn:E;
    cbn [fst snd Host rest_of_preset].
  - destruct (String.length (JoinHostPort (Host p) sshDefaultPortString))
      as [| len] eqn:L; cbn [Nat.leb Nat.eqb fst snd Host rest_of_preset].
    + split; [reflexivity |]. split; [reflexivity |].
      split; [discriminate |]. split; [reflexivity |].
      split; [auto |]. rewrite E. discriminate.
    + split; [reflexivity |]. split; [reflexivity |].
      split; [discriminate |]. split; [reflexivity |].
      split.
      { intros _ H. rewrite H in L. discriminate. }
      destruct (SplitHostPort (JoinHostPort (Host p) sshDefaultPortString))
        as [[hh' pp'] [sErr' |]] eqn:E'; [discriminate |].
      intros _. cbn [fst snd Host rest_of_preset]. now rewrite L.
  - destruct (String.length (Host p)) as [| len] eqn:L;
      cbn [Nat.leb fst snd Host rest_of_preset].
    + split; [reflexivity |]. split; [reflexivity |].
      split; [intros _; now destruct p |]. split; [congruence |].
      split; [auto |]. intros _. rewrite E.
      cbn [fst snd Host rest_of_preset]. now rewrite L.
    + split; [reflexivity |]. split; [reflexivity |].
      split; [reflexivity |]. split; [congruence |].
      split; [auto |]. intros _. rewrite E. now rewrite L.
Qed.

End ParseSSHConfigProps.

(** ** [Close] without a remote task *)

Lemma closing_keeps s :
  remoteTask (closing s) = remoteTask s /\
  stderrTask (closing s) = stderrTask s /\
  remoteConn (closing s) = remoteConn s /\
  remoteConnReceive (closing s) = remoteConnReceive s.
Proof.
  unfold closing. fields.
  destruct (credentialReceiveClosed s); fields;
    destruct (fingerprintVerifyResultReceiveClosed s); fields;
    repeat split.
Qed.

Section Stuck.

Variable ParseString : LimitedReader -> list byte * option error * LimitedReader.
Variable Address : Type.
Variable ParseAddress : LimitedReader -> Address * option error * LimitedReader.
Variable Address_String : Address -> string.
Variable ParsePrivateKey : list byte -> nat * option error.

Local Notation "'exec_'" :=
  (exec ParseString ParseAddress Address_String ParsePrivateKey).
Local Notation "'step_'" :=
  (step ParseString ParseAddress Address_String ParsePrivateKey).
Local Notation "'run_'" :=
  (run ParseString ParseAddress Address_String ParsePrivateKey).

(** A call that waits for something no goroutine is there to bring. *)
Lemma stuck_step (X : Type) (g : sshClient -> option (X * sshClient))
  (k : X -> sshClient -> res (option error)) (c : call) (t : sshClient)
  (a : action) :
  remoteTask t = NotStarted -> stderrTask t = NotStarted -> g t = None ->
  let sys := mkSystem t (Some (c, Blocked g t k)) None false in
  exec_ a sys = (sys, None).
Proof.
  intros Hr He Hg sys. unfold exec. cbn [crashed control remote client sys].
  destruct a; cbn [control_call remote_step]; try reflexivity;
    unfold at_stage; rewrite ?Hr, ?He; try reflexivity.
  cbn [resume]. rewrite Hg. reflexivity.
Qed.

Lemma stuck_run (X : Type) (g : sshClient -> option (X * sshClient))
  (k : X -> sshClient -> res (option error)) (c : call) (t : sshClient)
  (more : list action) :
  remoteTask t = NotStarted -> stderrTask t = NotStarted -> g t = None ->
  let sys := mkSystem t (Some (c, Blocked g t k)) None false in
  run_ more sys = sys.
Proof.
  intros Hr He Hg sys. subst sys.
  induction more as [| a rest IH]; [reflexivity |].
  cbn [run]. unfold step.
  rewrite (stuck_step X g k c t a Hr He Hg). exact IH.
Qed.

(** X20.  [Close] needs the remote task to get out of [getRemote].  In a
    session that can be reached in which no remote task was started (no
    [Bootup] has succeeded), with no call in progress, [Close] sets the
    flags and closes the two channels, and then waits in [getRemote] for a
    handle or for the close of [remoteConnReceive]; as only the remote
    task does either, nothing that can happen afterwards changes the
    session or makes [Close], or any other call, return. *)
Theorem Close_without_remote_task_waits
  (headerSize : nat) (e : environment) (acts more : list action) :
  let sys := run_ acts (boot headerSize e) in
  let sys1 := step_ DoClose sys in
  remoteTask (client sys) = NotStarted ->
  control sys = None ->
  remote sys = None ->
  snd (exec_ DoClose sys) = None /\
  is_none (control sys1) = false /\
  client sys1 = closing (client sys) /\
  sealed (client sys1) /\
  run_ more sys1 = sys1 /\
  forall a, snd (exec_ a (run_ more sys1)) = None.
Proof.
  intros sys sys1 Hr Hn Hrem.
  pose proof (reachable_inv ParseString Address ParseAddress Address_String
                ParsePrivateKey headerSize e acts) as (Hc & Hs & _).
  fold sys in Hc, Hs.
  set (t := closing (client sys)).
  destruct (closing_keeps (client sys)) as (Kr & Ke & Kc & Kq).
  fold t in Kr, Ke, Kc, Kq.
  assert (Hbp : before_published (remoteTask (client sys)) = true)
    by (now rewrite Hr).
  destruct (inv_remote_unpublished Hs Hbp) as [Hq _].
  destruct (inv_remote_closed Hs) as [Hcl _]. rewrite Hr in Hcl.
  cbn [is_exited] in Hcl.
  assert (Hv : isValid (remoteConn (client sys)) = false).
  { destruct (isValid (remoteConn (client sys))) eqn:Hv; [| reflexivity].
    rewrite (inv_cached Hs Hv) in Hbp. discriminate. }
  assert (Hst : stderrTask (client sys) = NotStarted).
  { apply (inv_stderr Hs). now rewrite Hr. }
  destruct (getRemote_blocked t) as [k Hk]; try congruence.
  set (g0 := fun s : sshClient =>
         match Chan.pop (remoteConnReceive s) with
         | Some (v, c) => Some (Some v, set_remoteConnReceive c s)
         | None =>
             if Chan.closed (remoteConnReceive s) then Some (None, s)
             else None
         end) in Hk.
  assert (Hclose : exists k', Close (client sys) = Blocked g0 t k').
  { rewrite Close_run by exact Hs. fold t. unfold Close_tail, bind at 1.
    rewrite Hk. cbn [bind_res]. eexists. reflexivity. }
  destruct Hclose as [k' Hclose].
  assert (Hexec : exec_ DoClose sys =
    (mkSystem t (Some (CallClose, Blocked g0 t k')) None false, None)).
  { unfold exec. rewrite Hc, Hn. cbn [control_call]. rewrite Hclose.
    cbn [settle_control]. now rewrite Hc, Hrem. }
  assert (H1 : sys1 =
    mkSystem t (Some (CallClose, Blocked g0 t k')) None false)
    by (unfold sys1, step; now rewrite Hexec).
  assert (Hg : g0 t = None).
  { unfold g0, Chan.pop. rewrite Kq, Hq, Hcl. reflexivity. }
  split; [now rewrite Hexec |]. rewrite H1.
  split; [reflexivity |]. split; [reflexivity |].
  split; [apply closing_flags |].
  rewrite stuck_run by congruence.
  split; [reflexivity |]. intros a.
  rewrite stuck_step by congruence. reflexivity.
Qed.

End Stuck.

(** ** Scenarios *)

(** A credential frame whose transport fails at the first read, while the
    password callback waits. *)
Lemma unreadable_credential_consumes_attempt_reset :
  let ParseString := fun r : LimitedReader => ([x61], @None error, r) in
  let ParseAddress := fun r : LimitedReader => (tt, @None error, r) in
  let Address_String := fun _ : unit => "host:22"%string in
  let ParsePrivateKey := fun _ : list byte => (0, @None error) in
  let sys :=
    run ParseString ParseAddress Address_String ParsePrivateKey
      [DoBootup (frame [[x01]] []); AskPassword (repeat x00 4096)]
      (boot 2 (mkEnv [] [] [])) in
  let a :=
    DoLocal SSHClientRespondCredential
      (mkReader 5 [Fault (external_error "reset")]) in
  snd (exec ParseString ParseAddress Address_String ParsePrivateKey a sys) =
    Some (CallLocal SSHClientRespondCredential,
          Some (external_error "reset")) /\
  forall more,
    count is_send_credential
      (trace
         (client
            (run ParseString ParseAddress Address_String ParsePrivateKey
               more
               (step ParseString ParseAddress Address_String
                  ParsePrivateKey a sys)))) = 0.
Proof.
  intros ParseString ParseAddress Address_String ParsePrivateKey sys a.
  destruct (unreadable_credential_consumes_attempt ParseString unit
              ParseAddress Address_String ParsePrivateKey 2
              (mkEnv [] [] [])
              [DoBootup (frame [[x01]] []); AskPassword (repeat x00 4096)]
              (mkReader 5 [Fault (external_error "reset")])
              (mkReader 5 []) [] (external_error "reset"))
    as [H1 H2].
  - vm_compute. reflexivity.
  - vm_compute. reflexivity.
  - reflexivity.
  - reflexivity.
  - split; [exact (f_equal snd H1) |]. intros more. apply (H2 more).
Defined.

(** A fingerprint frame with no byte in it, while the confirmation
    waits. *)
Lemma unreadable_fingerprint_consumes_attempt_empty :
  let ParseString := fun r : LimitedReader => ([x61], @None error, r) in
  let ParseAddress := fun r : LimitedReader => (tt, @None error, r) in
  let Address_String := fun _ : unit => "host:22"%string in
  let ParsePrivateKey := fun _ : list byte => (0, @None error) in
  let sys :=
    run ParseString ParseAddress Address_String ParsePrivateKey
      [DoBootup (frame [[x01]] []);
       AskFingerprint [x53; x48; x41] (repeat x00 4096)]
      (boot 2 (mkEnv [] [] [])) in
  let a := DoLocal SSHClientRespondFingerprint (frame [] []) in
  snd (exec ParseString ParseAddress Address_String ParsePrivateKey a sys) =
    Some (CallLocal SSHClientRespondFingerprint, Some io_EOF) /\
  forall more,
    count is_send_fingerprint
      (trace
         (client
            (run ParseString ParseAddress Address_String ParsePrivateKey
               more
               (step ParseString ParseAddress Address_String
                  ParsePrivateKey a sys)))) = 0.
Proof.
  intros ParseString ParseAddress Address_String ParsePrivateKey sys a.
  destruct (unreadable_fingerprint_consumes_attempt ParseString unit
              ParseAddress Address_String ParsePrivateKey 2
              (mkEnv [] [] [])
              [DoBootup (frame [[x01]] []);
               AskFingerprint [x53; x48; x41] (repeat x00 4096)]
              (frame [] []) (frame [] []) [] io_EOF)
    as [H1 H2].
  - vm_compute. reflexivity.
  - vm_compute. reflexivity.
  - reflexivity.
  - split; [exact (f_equal snd H1) |]. intros more. apply (H2 more).
Defined.

(** [Close] while the password callback waits and nothing was sent. *)
Lemma Close_releases_callbacks_waiting :
  let ParseString := fun r : LimitedReader => ([x61], @None error, r) in
  let ParseAddress := fun r : LimitedReader => (tt, @None error, r) in
  let Address_String := fun _ : unit => "host:22"%string in
  let ParsePrivateKey := fun _ : list byte => (0, @None error) in
  let buf := [x00; x00; x00; x00] in
  let booted :=
    client
      (run ParseString ParseAddress Address_String ParsePrivateKey
         [DoBootup (frame [[x01]] [])] (boot 2 (mkEnv [] [] []))) in
  let waiting :=
    client
      (run ParseString ParseAddress Address_String ParsePrivateKey
         [DoBootup (frame [[x01]] []); AskPassword buf]
         (boot 2 (mkEnv [] [] []))) in
  is_blocked (passwordCallback buf booted) = true /\
  result_of (resume (passwordCallback buf booted) (state_of (Close waiting))) =
    Some ([], Some ErrSSHAuthCancelled).
Proof.
  intros ParseString ParseAddress Address_String ParsePrivateKey buf booted
    waiting.
  assert (Hb : is_blocked (passwordCallback buf booted) = true)
    by (vm_compute; reflexivity).
  split; [exact Hb |].
  destruct (Close_releases_callbacks ParseString unit ParseAddress
              Address_String ParsePrivateKey 2 (mkEnv [] [] [])
              [DoBootup (frame [[x01]] []); AskPassword buf]
              buf [] booted) as [H _].
  unfold waiting. rewrite (H Hb). vm_compute. reflexivity.
Defined.

(** A passphrase of two chunks, and an empty one. *)
Lemma credential_round_trip_passphrase :
  let ParseString := fun r : LimitedReader => ([x61], @None error, r) in
  let ParseAddress := fun r : LimitedReader => (tt, @None error, r) in
  let Address_String := fun _ : unit => "host:22"%string in
  let ParsePrivateKey := fun _ : list byte => (0, @None error) in
  let buf := [x00; x00; x00; x00] in
  let booted :=
    client
      (run ParseString ParseAddress Address_String ParsePrivateKey
         [DoBootup (frame [[x01]] [])] (boot 2 (mkEnv [] [] []))) in
  let waiting :=
    client
      (run ParseString ParseAddress Address_String ParsePrivateKey
         [DoBootup (frame [[x01]] []); AskPassword buf]
         (boot 2 (mkEnv [] [] []))) in
  (exists s',
     resume (passwordCallback buf booted)
       (state_of
          (local SSHClientRespondCredential
             (frame [[x68; x75]; [x6e; x74; x65; x72]] []) waiting)) =
       Done ([x68; x75; x6e; x74; x65; x72], None) s') /\
  (exists s',
     resume (passwordCallback buf booted)
       (state_of
          (local SSHClientRespondCredential (frame [] []) waiting)) =
       Done ([], None) s').
Proof.
  intros ParseString ParseAddress Address_String ParsePrivateKey buf booted
    waiting.
  assert (Hb : is_blocked (passwordCallback buf booted) = true)
    by (vm_compute; reflexivity).
  assert (Hp : credentialProcessed waiting = false)
    by (vm_compute; reflexivity).
  split.
  - destruct (credential_round_trip ParseString unit ParseAddress
                Address_String ParsePrivateKey 2 (mkEnv [] [] [])
                [DoBootup (frame [[x01]] []); AskPassword buf]
                [[x68; x75]; [x6e; x74; x65; x72]] [] buf booted Hp)
      as [H _].
    + cbn. unfold sshCredentialMaxSize. lia.
    + destruct (H Hb) as (s' & E & _). exists s'. exact E.
  - destruct (credential_round_trip ParseString unit ParseAddress
                Address_String ParsePrivateKey 2 (mkEnv [] [] [])
                [DoBootup (frame [[x01]] []); AskPassword buf]
                [] [] buf booted Hp) as [H _].
    + cbn. lia.
    + destruct (H Hb) as (s' & E & _). exists s'. exact E.
Defined.


(** The remote task returns while a handle it has published is still
    queued. *)
Lemma remote_teardown_published :
  let ParseString := fun r : LimitedReader => ([x61], @None error, r) in
  let ParseAddress := fun r : LimitedReader => (tt, @None error, r) in
  let Address_String := fun _ : unit => "host:22"%string in
  let ParsePrivateKey := fun _ : list byte => (0, @None error) in
  let s :=
    client
      (run ParseString ParseAddress Address_String ParsePrivateKey
         [DoBootup (frame [[x01]] []); ShellStarted 1 2 3]
         (boot 2 (mkEnv [] [] []))) in
  exists s',
    remote_deferred s = Done tt s' /\
    remoteConnReceive s' =
      Chan.mk [mkRemoteConn (Some 1) (Some 2) (Some 3)] true /\
    remoteCloseWait s' = 0 /\
    is_blocked (getRemote s') = false.
Proof.
  intros ParseString ParseAddress Address_String ParsePrivateKey s.
  destruct (remote_teardown ParseString unit ParseAddress Address_String
              ParsePrivateKey 2 (mkEnv [] [] [])
              [DoBootup (frame [[x01]] []); ShellStarted 1 2 3] Published)
    as (s' & E & _ & _ & Hq & _ & Hw & _ & Hg).
  - vm_compute. reflexivity.
  - exists s'. split; [exact E |]. split; [exact Hq |].
    split; [| exact Hg].
    change (1 = S (remoteCloseWait s')) in Hw. now injection Hw as <-.
Defined.

(** [Close] on a fresh session, and what is tried afterwards. *)
Lemma Close_without_remote_task_waits_fresh :
  let ParseString := fun r : LimitedReader => ([x61], @None error, r) in
  let ParseAddress := fun r : LimitedReader => (tt, @None error, r) in
  let Address_String := fun _ : unit => "host:22"%string in
  let ParsePrivateKey := fun _ : list byte => (0, @None error) in
  let sys1 :=
    step ParseString ParseAddress Address_String ParsePrivateKey DoClose
      (boot 2 (mkEnv [] [] [])) in
  is_none (control sys1) = false /\
  run ParseString ParseAddress Address_String ParsePrivateKey
    [WakeControl; DoBootup (frame [[x01]] []); DoRelease; WakeRemote;
     WakeControl] sys1 = sys1.
Proof.
  intros ParseString ParseAddress Address_String ParsePrivateKey sys1.
  destruct (Close_without_remote_task_waits ParseString unit ParseAddress
              Address_String ParsePrivateKey 2 (mkEnv [] [] []) []
              [WakeControl; DoBootup (frame [[x01]] []); DoRelease;
               WakeRemote; WakeControl] eq_refl eq_refl eq_refl)
    as (_ & H1 & _ & _ & H2 & _).
  split; [exact H1 | exact H2].
Defined.

(** ** Frames that come before the handle *)

Lemma getRemote_waits s :
  is_blocked (getRemote s) = true ->
  exists k,
    getRemote s = Blocked (X := option sshRemoteConn)
      (fun s =>
         match Chan.pop (remoteConnReceive s) with
         | Some (v, c) => Some (Some v, set_remoteConnReceive c s)
         | None =>
             if Chan.closed (remoteConnReceive s) then Some (None, s)
             else None
         end) s k /\
    forall x s2,
      k x s2 =
        match x with
        | Some h => Done (h, None) (set_remoteConn h s2)
        | None => Done (zeroRemoteConn, Some ErrSSHRemoteConnUnavailable) s2
        end.
Proof.
  remember (getRemote s) as run eqn:Er.
  unfold getRemote, bind, gets in Er. cbn [bind_res] in Er.
  destruct (isValid (remoteConn s)); [subst run; discriminate |].
  unfold recv_remoteConn, chan_recv, await in Er.
  destruct (Chan.pop (remoteConnReceive s)) as [[v c] |];
    [subst run; discriminate |].
  destruct (Chan.closed (remoteConnReceive s)); [subst run; discriminate |].
  cbn [bind_res] in Er. intros _. subst run. eexists. split; [reflexivity |].
  intros [h |] s2; reflexivity.
Qed.

(** X21.  A stdin frame that comes before the remote handle waits for it
    and is not lost.  While [local] waits in [getRemote] nothing of the
    frame is read and the session is as it was.  Woken by a handle on
    [remoteConnReceive], it takes the handle and writes every chunk of the
    payload to its writer, in order, and returns nil; woken by the close
    of the channel it returns "remote SSH connection is unavailable" with
    the frame unread; otherwise it goes on waiting. *)
Theorem stdin_waits_for_handle
  (s : sshClient) (chunks : list (list byte)) (later : list delivery) :
  let run := local SSHClientStdIn (frame chunks later) s in
  is_blocked (getRemote s) = true ->
  Forall (fun chunk => chunk <> []) chunks ->
  (is_blocked run = true /\ state_of run = s) /\
  (forall s1 h rest w c,
     Chan.buf (remoteConnReceive s1) = h :: rest ->
     writer h = Some w -> closer h = Some c ->
     exists s',
       resume run s1 = Done (None, frame [] later) s' /\
       trace s' =
         trace s1 ++ stdin_events w c chunks (writeResults (env s1))) /\
  (forall s1,
     Chan.buf (remoteConnReceive s1) = [] ->
     Chan.closed (remoteConnReceive s1) = true ->
     resume run s1 =
       Done (Some ErrSSHRemoteConnUnavailable, frame chunks later) s1) /\
  (forall s1,
     Chan.buf (remoteConnReceive s1) = [] ->
     Chan.closed (remoteConnReceive s1) = false ->
     is_blocked (resume run s1) = true).
Proof.
  intros run Hg Hne.
  destruct (getRemote_waits s Hg) as (k & Ek & Hk).
  set (g0 := fun s : sshClient =>
         match Chan.pop (remoteConnReceive s) with
         | Some (v, c) => Some (Some v, set_remoteConnReceive c s)
         | None =>
             if Chan.closed (remoteConnReceive s) then Some (None, s)
             else None
         end) in Ek.
  assert (Hrun : run =
    Blocked g0 s
      (fun x s' =>
         bind_res (k x s')
           (fun x0 : sshRemoteConn * option error =>
              let (remote, remoteErr) := x0 in
              match remoteErr with
              | Some e0 => ret (Some e0, frame chunks later)
              | None =>
                  stdin_loop (fuel (frame chunks later)) remote
                    (frame chunks later)
              end))).
  { unfold run, local.
    change (Byte.eqb SSHClientStdIn SSHClientStdIn) with true.
    cbv iota. unfold bind at 1. rewrite Ek. reflexivity. }
  rewrite Hrun. split; [now split |]. split; [| split].
  - intros s1 h rest w c Hq Hw Hc. cbn [resume]. unfold g0, Chan.pop.
    rewrite Hq, Hk. cbn [bind_res].
    destruct (stdin_loop_frame w c h chunks later
                (fuel (frame chunks later))
                (set_remoteConn h
                   (set_remoteConnReceive
                      (Chan.mk rest (Chan.closed (remoteConnReceive s1)))
                      s1)) Hw Hc Hne (fuel_frame chunks later))
      as (s' & E & Ht).
    exists s'. split; [exact E | exact Ht].
  - intros s1 Hq Hc. cbn [resume]. unfold g0, Chan.pop. rewrite Hq, Hc, Hk.
    reflexivity.
  - intros s1 Hq Hc. cbn [resume]. unfold g0, Chan.pop. rewrite Hq, Hc.
    reflexivity.
Qed.

(** Scenario: two chunks typed before the shell is up, the second write
    failing. *)
Lemma stdin_waits_for_handle_early :
  let s := newSSH 2 (mkEnv [] [None; Some (external_error "pipe")] []) in
  let h := mkRemoteConn (Some 1) (Some 2) (Some 3) in
  exists s',
    resume (local SSHClientStdIn (frame [[x6c]; [x73]] []) s)
      (set_remoteConnReceive (Chan.mk [h] false) s) =
      Done (None, frame [] []) s' /\
    trace s' =
      [EvWrite 1 [x6c]; EvWrite 1 [x73]; EvCloser 2;
       EvDebug "Failed to write data to remote: %s"].
Proof.
  intros s h.
  destruct (stdin_waits_for_handle s [[x6c]; [x73]] [] eq_refl)
    as (_ & H & _).
  - repeat constructor; discriminate.
  - apply (H (set_remoteConnReceive (Chan.mk [h] false) s) h [] 1 2);
      reflexivity.
Defined.
